(** * ChainCycles: the client-side session and synchronisation layer

    A shallow embedding of the TypeScript sources

      - [frontend/src/lib/linera/dynamicSigner.ts]  (module [Signer])
      - [frontend/src/lib/linera/lineraAdapter.ts]  (modules [Adapter],
                                                    [PrivateKey] and [Bind])
      - [frontend/src/lib/linera/wasmInit.ts]       (module [WasmInit])
      - [frontend/src/lib/gameApi.ts]               (modules [GameApi] and
                                                    [Players])
      - [frontend/src/stores/lineraStore.ts], the game store [useGameStore]
        and the connection store [useLineraStore]   (modules [Store] and
                                                    [LineraStore])

    JavaScript runs on one cooperative thread: a piece of code between two
    [await]s is atomic.  Asynchronous functions are therefore modelled as
    explicit step functions (one step per [await]), the remote services as
    scripted outcomes, and the effects the code has on the outside world as
    a trace of events. *)

From Stdlib Require Import ZArith QArith Qminmax Lia Lqa Bool Ascii String DecimalString.
From stdpp Require Import base option list strings gmap fin_maps.

Set Warnings "-register-all".
Open Scope Z_scope.

(* ===================================================================== *)
(** * Part I: definitions *)
(* ===================================================================== *)

(** ** JavaScript values, exceptions and truthiness *)
Module JS.

(** What [JSON.parse] returns.  Objects keep their fields as an
    association list with distinct keys; numbers are the integer-valued
    ones (the only ones whose [ToString] is a plain decimal numeral). *)
Inductive json : Type :=
| JNull
| JBool (b : bool)
| JNum (n : Z)
| JStr (s : string)
| JArr (items : list json)
| JObj (fields : list (string * json)).

(** A JavaScript value as an expression yields it: [None] is [undefined]. *)
Definition value := option json.

(** Thrown values.  [Error m] is an [Error] object whose [message] is [m];
    [Thrown s] is any thrown value that is not an [Error] instance, [s]
    being what [String(value)] gives. *)
Inductive exn : Type :=
| Error (message : string)
| Thrown (str : string).

(** The outcome of a call: a returned value or a thrown exception; for an
    [async] function, a fulfilled or a rejected promise. *)
Inductive result (A : Type) : Type :=
| Ok (a : A)
| Throw (e : exn).
Global Arguments Ok {A} a.
Global Arguments Throw {A} e.

(** [error instanceof Error ? error.message : String(error)] *)
Definition message_of (e : exn) : string :=
  match e with
  | Error m => m
  | Thrown s => s
  end.

(** [ToBoolean]. *)
Definition truthy (v : value) : bool :=
  match v with
  | None => false
  | Some JNull => false
  | Some (JBool b) => b
  | Some (JNum n) => negb (n =? 0)
  | Some (JStr s) => negb (String.eqb s "")
  | Some (JArr _) => true
  | Some (JObj _) => true
  end.

Fixpoint assoc (k : string) (fields : list (string * json)) : value :=
  match fields with
  | [] => None
  | (k', v) :: rest => if String.eqb k k' then Some v else assoc k rest
  end.

(** [s[0]] on a string: its first character, as a string. *)
Definition first_char (s : string) : value :=
  match s with
  | EmptyString => None
  | String c _ => Some (JStr (String c EmptyString))
  end.

(** [v[0]] for a value [v] that is neither [null] nor [undefined]. *)
Definition index0 (v : json) : value :=
  match v with
  | JArr items => head items
  | JStr s => first_char s
  | JObj fields => assoc "0" fields
  | _ => None
  end.

(** [v.name] for a value [v] that is neither [null] nor [undefined], where
    [name] is not a built-in property of strings, arrays, numbers or
    booleans ([data], [errors], [message] are not). *)
Definition prop (name : string) (v : json) : value :=
  match v with
  | JObj fields => assoc name fields
  | _ => None
  end.

(** [v?.name]. *)
Definition opt_prop (name : string) (v : value) : value :=
  match v with
  | None | Some JNull => None
  | Some j => prop name j
  end.

Definition join_comma (parts : list string) : string :=
  match parts with
  | [] => ""
  | p :: ps => fold_left (fun acc q => acc +:+ "," +:+ q) ps p
  end.

(** [ToString], as the [Error] constructor applies it to its argument. *)
Fixpoint to_string (v : json) : string :=
  match v with
  | JNull => "null"
  | JBool true => "true"
  | JBool false => "false"
  | JNum n => NilZero.string_of_int (Z.to_int n)
  | JStr s => s
  | JArr items =>
      join_comma
        (map (fun i => match i with JNull => "" | _ => to_string i end) items)
  | JObj _ => "[object Object]"
  end.

(** [new Error(a || fallback)] for a value [a] and a string literal. *)
Definition error_or (a : value) (fallback : string) : exn :=
  match a with
  | Some j => if truthy a then Error (to_string j) else Error fallback
  | None => Error fallback
  end.

(** *** A state and exception monad

    [st S A]: a computation over a state [S] that returns an [A] or
    throws.  An [async] function whose [await]s are not interleaved with
    other code is such a computation. *)
Definition st (S A : Type) : Type := S -> result A * S.

Definition ret {S A} (a : A) : st S A := fun s => (Ok a, s).
Definition throw {S A} (e : exn) : st S A := fun s => (Throw e, s).
Definition bind {S A B} (m : st S A) (k : A -> st S B) : st S B :=
  fun s => match m s with
           | (Ok a, s') => k a s'
           | (Throw e, s') => (Throw e, s')
           end.
Definition try_catch {S A} (m : st S A) (h : exn -> st S A) : st S A :=
  fun s => match m s with
           | (Ok a, s') => (Ok a, s')
           | (Throw e, s') => h e s'
           end.
Definition get {S} : st S S := fun s => (Ok s, s).
Definition modify {S} (f : S -> S) : st S unit := fun s => (Ok tt, f s).
(** [await] of a remote call whose outcome is [r]. *)
Definition await {S A} (r : result A) : st S A := fun s => (r, s).

End JS.
Export JS.

Notation "'let*' x ':=' m 'in' k" := (bind m (fun x => k))
  (at level 10, x binder, m at level 100, k at level 200).

(** ** [dynamicSigner.ts] *)
Module Signer.

(** [String.prototype.toLowerCase] on the ASCII strings that addresses
    are ("0x" followed by hexadecimal digits).  The built-in also maps
    the letters of other alphabets, which this function leaves as they
    are: it is used where the source lowercases an address, and to run
    the signer's methods, which take the built-in as a parameter. *)
Definition lower_ascii (c : ascii) : ascii :=
  let n := nat_of_ascii c in
  if ((65 <=? n)%nat && (n <=? 90)%nat)%bool then ascii_of_nat (n + 32) else c.

Fixpoint toLowerCase (s : string) : string :=
  match s with
  | EmptyString => EmptyString
  | String c rest => String (lower_ascii c) (toLowerCase rest)
  end.

(** One digit of [Number.prototype.toString(16)]. *)
Definition hex_digit (n : N) : ascii :=
  ascii_of_N (if (n <? 10)%N then 48 + n else 87 + n)%N.

(** [b.toString(16).padStart(2, '0')] for a byte [b]. *)
Definition byte_hex (b : Byte.byte) : string :=
  let n := Byte.to_N b in
  String (hex_digit (n / 16)) (String (hex_digit (n mod 16)) EmptyString).

(** [uint8ArrayToHex]: map, then [join('')]. *)
Definition uint8ArrayToHex (bytes : list Byte.byte) : string :=
  fold_right (fun b acc => byte_hex b +:+ acc) "" bytes.

(** The [DynamicWallet] interface.  [address] is declared a string but is
    read defensively by the code ([!address], [address?.]), so it may be
    missing; [signMessage] is the external wallet's answer. *)
Record DynamicWallet := {
  address : option string;
  signMessage : string -> result string;
}.

(** The state of a [DynamicSigner] object. *)
Record DynamicSigner := {
  wallet : DynamicWallet;
  cachedAddress : option string;
}.

Definition createDynamicSigner (w : DynamicWallet) : DynamicSigner :=
  {| wallet := w; cachedAddress := None |}.

Definition nonempty (o : option string) : bool :=
  match o with
  | Some s => negb (String.eqb s "")
  | None => false
  end.

(** The methods of the signer.  [owner] comes from outside and is any
    string, so that nothing is assumed of what the built-in
    [String.prototype.toLowerCase] does to it: the built-in is the
    parameter [lowercase]. *)
Section Builtin.

Variable lowercase : string -> string.

(** The second half of [address()], reached when nothing is cached. *)
Definition resolve_address (s : DynamicSigner) : result string * DynamicSigner :=
  match address (wallet s) with
  | Some w =>
      if nonempty (Some w)
      then (Ok (lowercase w),
            {| wallet := wallet s; cachedAddress := Some (lowercase w) |})
      else (Throw (Error "Dynamic wallet has no address"), s)
  | None => (Throw (Error "Dynamic wallet has no address"), s)
  end.

(** [address()]: the cached address when there is one, else the wallet's
    address lowercased, which is then cached. *)
Definition signer_address (s : DynamicSigner) : result string * DynamicSigner :=
  match cachedAddress s with
  | Some a =>
      if nonempty (Some a) then (Ok a, s) else resolve_address s
  | None => resolve_address s
  end.

(** [containsKey(owner)]. *)
Definition containsKey (s : DynamicSigner) (owner : string)
  : result bool * DynamicSigner :=
  match signer_address s with
  | (Ok my, s') => (Ok (String.eqb (lowercase owner) my), s')
  | (Throw e, s') => (Throw e, s')
  end.

(** [sign(owner, value)]. *)
Definition sign (s : DynamicSigner) (owner : string) (value : list Byte.byte)
  : result string * DynamicSigner :=
  match signer_address s with
  | (Throw e, s') => (Throw e, s')
  | (Ok myAddress, s') =>
      if negb (String.eqb (lowercase owner) myAddress)
      then (Throw (Error ("Owner " +:+ owner +:+
                          " does not match wallet address " +:+ myAddress)), s')
      else
        let messageHex := "0x" +:+ uint8ArrayToHex value in
        match signMessage (wallet s') messageHex with
        | Ok signature => (Ok signature, s')
        | Throw e =>
            (Throw (Error ("Failed to sign with Dynamic wallet: " +:+ message_of e)), s')
        end
  end.

End Builtin.

(** The error [sign] raises for an owner that is not the signer's. *)
Definition owner_mismatch (owner myAddress : string) : exn :=
  Error ("Owner " +:+ owner +:+ " does not match wallet address " +:+ myAddress).

End Signer.

(** ** [lineraAdapter.ts] *)
Module Adapter.
Import Signer.

(** *** The objects the adapter holds *)

(** [new Client(wallet, autoSigner)]: a client is told apart by the
    wallet container and the signer it was built from. *)
Record Client := {
  client_wallet : nat;
  client_signer : string;
}.

Record LineraConnection := {
  client : Client;
  conn_wallet : nat;
  faucet : string;
  chainId : string;
  conn_address : string;
  autoSignerAddress : string;
}.

(** [(await client.chain(chainId)).application(applicationId)]: the handle
    remembers the client and chain it was resolved under. *)
Record Application := {
  app_client : Client;
  app_chain : string;
  app_id : string;
}.

Record ApplicationConnection := {
  application : Application;
  applicationId : string;
}.

Record ConnectionState := {
  isConnected : bool;
  st_chainId : option string;
  st_userAddress : option string;
  st_autoSignerAddress : option string;
}.

(** [{ query, variables: variables || {} }], before [JSON.stringify]. *)
Record Payload := {
  pl_query : string;
  pl_variables : json;
}.

(** What the adapter does to the outside world. *)
Inductive event : Type :=
| ECreateWallet (faucetUrl : string)
| EClaimChain (faucetUrl : string) (wallet : nat) (owner : string)
| ESetOwner (wallet : nat) (chain owner : string)
| ENewClient (wallet : nat) (signer : string)
| EChain (c : Client) (chain : string)
| EApplication (c : Client) (chain appId : string)
| EAppQuery (app : Application) (p : Payload)
| EProcessInbox (c : Client) (chain : string)
| ESleep (ms : Z)
| EWarn (e : exn).

(** The singleton's fields, the browser's [localStorage] and the trace.
    The entry ['chaincycles_recent_rooms'] of [localStorage], a JSON array
    of strings, is kept decoded in [recentRooms] ([None]: no such entry);
    [localStorage] holds all other entries.  [connectPromise] names the
    memoized promise by its index in the promise table of the event loop. *)
Record World := {
  connection : option LineraConnection;
  appConnection : option ApplicationConnection;
  connectPromise : option nat;
  localStorage : gmap string string;
  recentRooms : option (list string);
  trace : list event;
}.

Definition initial : World :=
  {| connection := None; appConnection := None; connectPromise := None;
     localStorage := ∅; recentRooms := None; trace := [] |}.

Definition set_connection (c : option LineraConnection) (w : World) : World :=
  {| connection := c; appConnection := appConnection w;
     connectPromise := connectPromise w; localStorage := localStorage w;
     recentRooms := recentRooms w; trace := trace w |}.

Definition set_appConnection (a : option ApplicationConnection) (w : World) : World :=
  {| connection := connection w; appConnection := a;
     connectPromise := connectPromise w; localStorage := localStorage w;
     recentRooms := recentRooms w; trace := trace w |}.

Definition set_connectPromise (p : option nat) (w : World) : World :=
  {| connection := connection w; appConnection := appConnection w;
     connectPromise := p; localStorage := localStorage w;
     recentRooms := recentRooms w; trace := trace w |}.

Definition set_localStorage (s : gmap string string) (w : World) : World :=
  {| connection := connection w; appConnection := appConnection w;
     connectPromise := connectPromise w; localStorage := s;
     recentRooms := recentRooms w; trace := trace w |}.

Definition set_recentRooms (r : option (list string)) (w : World) : World :=
  {| connection := connection w; appConnection := appConnection w;
     connectPromise := connectPromise w; localStorage := localStorage w;
     recentRooms := r; trace := trace w |}.

Definition log (e : event) (w : World) : World :=
  {| connection := connection w; appConnection := appConnection w;
     connectPromise := connectPromise w; localStorage := localStorage w;
     recentRooms := recentRooms w; trace := trace w ++ [e] |}.

(** [localStorage.setItem] and [localStorage.removeItem]. *)
Definition setItem (k v : string) (w : World) : World :=
  set_localStorage (<[k := v]> (localStorage w)) w.

Definition removeItem (k : string) (w : World) : World :=
  set_localStorage (delete k (localStorage w)) w.

(** The adapter's methods run in the monad [st World]: a method run from
    its call to its settlement, with no other method of the adapter
    interleaved at its [await]s. *)
Definition M (A : Type) : Type := st World A.

Definition emit (e : event) : M unit := modify (log e).

(** [getState()]. *)
Definition getState (w : World) : ConnectionState :=
  {| isConnected := bool_decide (is_Some (connection w));
     st_chainId := chainId <$> connection w;
     st_userAddress := conn_address <$> connection w;
     st_autoSignerAddress := autoSignerAddress <$> connection w |}.

(** [isConnected()], [isApplicationConnected()], [getChainId()],
    [getUserAddress()]. *)
Definition is_connected (w : World) : bool := bool_decide (is_Some (connection w)).
Definition isApplicationConnected (w : World) : bool :=
  bool_decide (is_Some (appConnection w)).

Definition getChainId : M string :=
  let* w := get in
  match connection w with
  | None => throw (Error "Not connected")
  | Some c => ret (chainId c)
  end.

Definition getUserAddress : M string :=
  let* w := get in
  match connection w with
  | None => throw (Error "Not connected")
  | Some c => ret (conn_address c)
  end.

(** *** [disconnect()] *)
Definition mnemonic_key (k : string) : bool :=
  String.prefix "chaincycles_mnemonic_" k.

Definition drop_mnemonics (s : gmap string string) : gmap string string :=
  filter (fun kv => mnemonic_key kv.1 = false) s.

Definition disconnect (w : World) : World :=
  let w := set_connection None w in
  let w := set_appConnection None w in
  let w := removeItem "chaincycles_chain_id" w in
  let w := removeItem "chaincycles_user_address" w in
  set_localStorage (drop_mnemonics (localStorage w)) w.

Section Config.

(** [APPLICATION_ID], read once from the build environment. *)
Variable APPLICATION_ID : string.

(** *** [connectApplication(applicationId = APPLICATION_ID)]

    Here the method runs from its call to its settlement, as [query] and
    [mutate] await it; module [Bind] has it one step per [await]. *)

(** The part of [connectApplication] after the cache check.  [chain_r]
    and [app_r] are the outcomes of the two remote round trips,
    [client.chain] and [chain.application]. *)
Definition resolve_application (applicationId : string)
    (chain_r app_r : result unit) (c : LineraConnection)
  : M ApplicationConnection :=
  if String.eqb applicationId "" then
    throw (Error "Application ID is not configured")
  else
    let* _ := emit (EChain (client c) (chainId c)) in
    let* _ := await chain_r in
    let* _ := emit (EApplication (client c) (chainId c) applicationId) in
    let* _ := await app_r in
    let a' := {| application :=
                   {| app_client := client c; app_chain := chainId c;
                      app_id := applicationId |};
                 applicationId := applicationId |} in
    let* _ := modify (set_appConnection (Some a')) in
    ret a'.

Definition cached_for (applicationId : string)
    (a : option ApplicationConnection) : bool :=
  match a with
  | Some a => String.eqb (Adapter.applicationId a) applicationId
  | None => false
  end.

Definition connectApplication (applicationId : string)
    (chain_r app_r : result unit) : M ApplicationConnection :=
  let* w := get in
  match connection w with
  | None => throw (Error "Must connect wallet before connecting to application")
  | Some c =>
      match appConnection w with
      | Some a =>
          if cached_for applicationId (Some a) then ret a
          else resolve_application applicationId chain_r app_r c
      | None => resolve_application applicationId chain_r app_r c
      end
  end.

(** The answer of [application.query(payload)] followed by
    [JSON.parse]: the call rejects, or returns text that does not
    parse, or returns text that parses to [parsed]. *)
Inductive reply : Type :=
| Reply (parsed : json)
| Garbled
| Failed (e : exn).

Definition parse_reply (r : reply) : result json :=
  match r with
  | Reply parsed => Ok parsed
  | Garbled => Throw (Error "SyntaxError: Unexpected token in JSON")
  | Failed e => Throw e
  end.

(** The remote side of one [query] or [mutate]. *)
Record Remote := {
  r_chain : result unit;
  r_application : result unit;
  r_reply : reply;
}.

(** [variables || {}]. *)
Definition variables_or_empty (variables : value) : json :=
  match variables with
  | Some v => if truthy variables then v else JObj []
  | None => JObj []
  end.

(** [parsed.name], which throws a [TypeError] on [null]. *)
Definition field (name : string) (parsed : json) : M value :=
  match parsed with
  | JNull => throw (Error ("Cannot read properties of null (reading '"
                           +:+ name +:+ "')"))
  | _ => ret (prop name parsed)
  end.

(** [if (parsed.errors) throw new Error(parsed.errors[0]?.message || fallback)] *)
Definition check_errors (fallback : string) (parsed : json) : M unit :=
  let* errors := field "errors" parsed in
  if truthy errors then
    match errors with
    | Some e => throw (error_or (opt_prop "message" (index0 e)) fallback)
    | None => ret tt
    end
  else ret tt.

(** The part [query] and [mutate] share: the connection check, the lazy
    application binding, the remote call and [JSON.parse]. *)
Definition send (not_connected : string) (document : string)
    (variables : value) (env : Remote) : M json :=
  let* w := get in
  match connection w with
  | None => throw (Error not_connected)
  | Some _ =>
      let* _ :=
        match appConnection w with
        | None =>
            let* _ := connectApplication APPLICATION_ID
                        (r_chain env) (r_application env) in
            ret tt
        | Some _ => ret tt
        end in
      let payload := {| pl_query := document;
                        pl_variables := variables_or_empty variables |} in
      let* w' := get in
      match appConnection w' with
      | None => throw (Error "Cannot read properties of null (reading 'application')")
      | Some a =>
          let* _ := emit (EAppQuery (application a) payload) in
          await (parse_reply (r_reply env))
      end
  end.

(** *** [query(graphqlQuery, variables)] *)
Definition query (graphqlQuery : string) (variables : value) (env : Remote)
  : M value :=
  let* parsed := send "Must connect wallet before querying"
                      graphqlQuery variables env in
  let* _ := field "data" parsed in
  let* _ := check_errors "Query failed" parsed in
  field "data" parsed.

(** One round of the wait that follows a mutation: what
    [client.chain(chainId)] gives ([Ok true] when the chain object has a
    [processInbox] function) and what [processInbox()] gives. *)
Record Attempt := {
  a_chain : result bool;
  a_inbox : result unit;
}.

(** The body of the [try] block of attempt [i]. *)
Definition sync_attempt (a : Attempt) : M unit :=
  let* _ := emit (ESleep 1000) in
  let* w := get in
  match connection w with
  | None => throw (Error "Cannot read properties of null (reading 'client')")
  | Some c =>
      let* _ := emit (EChain (client c) (chainId c)) in
      let* has_inbox := await (a_chain a) in
      if has_inbox : bool then
        let* _ := emit (EProcessInbox (client c) (chainId c)) in
        await (a_inbox a)
      else ret tt
  end.

(** [for (let i = 0; i < 3; i++) { try { ... } catch (syncError) { console.warn(...) } }],
    the attempts being [attempts i], [attempts (i+1)], ... *)
Fixpoint sync_loop (n : nat) (i : nat) (attempts : nat -> Attempt) : M unit :=
  match n with
  | O => ret tt
  | S n' =>
      let* _ := try_catch (sync_attempt (attempts i))
                          (fun syncError => emit (EWarn syncError)) in
      sync_loop n' (S i) attempts
  end.

(** *** [mutate(graphqlMutation, variables)] *)
Definition mutate (graphqlMutation : string) (variables : value)
    (env : Remote) (attempts : nat -> Attempt) : M value :=
  let* parsed := send "Must connect wallet before mutating"
                      graphqlMutation variables env in
  let* _ := check_errors "Mutation failed" parsed in
  let* _ := sync_loop 3 0 attempts in
  field "data" parsed.

(** *** [queryWithSync(graphqlQuery, variables)] *)
Definition queryWithSync (graphqlQuery : string) (variables : value)
    (sync_r : result unit) (env : Remote) : M value :=
  let* w := get in
  match connection w with
  | None => throw (Error "Must connect wallet before querying")
  | Some c =>
      let* _ := try_catch
                  (let* _ := emit (EChain (client c) (chainId c)) in
                   await sync_r)
                  (fun error => emit (EWarn error)) in
      query graphqlQuery variables env
  end.

End Config.

(** *** [performConnect], one step per [await] *)

(** The remote side of one connection attempt: the outcome of each step,
    fixed in advance.  [s_wallet] is the wallet container the faucet
    creates, [s_signer] the address of the fresh random key, [s_claim]
    the partition the faucet hands out. *)
Record ConnectScript := {
  s_load : result unit;
  s_wallet : result nat;
  s_signer : result string;
  s_claim : result string;
  s_setOwner : result unit;
  s_client : result unit;
  s_chain : result unit;
}.

(** Where a suspended [performConnect] waits, with the locals it holds. *)
Inductive pc : Type :=
| AwaitLoad
| AwaitWallet
| AwaitClaim (wallet : nat) (autoSigner : string)
| AwaitSetOwner (wallet : nat) (autoSigner chain : string)
| AwaitClient (wallet : nat) (autoSigner chain : string)
| AwaitChain (wallet : nat) (autoSigner chain : string).

Record Task := {
  t_pc : pc;
  t_faucetUrl : string;
  t_userAddress : string;
  t_script : ConnectScript;
}.

(** The promise [performConnect] returned. *)
Inductive promise : Type :=
| Pending (t : Task)
| Fulfilled (c : LineraConnection)
| Rejected (e : exn).

Definition at_pc (p : pc) (t : Task) : Task :=
  {| t_pc := p; t_faucetUrl := t_faucetUrl t;
     t_userAddress := t_userAddress t; t_script := t_script t |}.

(** The [catch] block: [this.connection = null; throw error]. *)
Definition connect_failed (e : exn) (w : World) : promise * World :=
  (Rejected e, set_connection None w).

(** The end of the [try] block: store the connection and the three
    [localStorage] entries, return the connection. *)
Definition connect_done (t : Task) (wallet : nat) (autoSigner chain : string)
    (w : World) : promise * World :=
  let c := {| client := {| client_wallet := wallet; client_signer := autoSigner |};
              conn_wallet := wallet;
              faucet := t_faucetUrl t;
              chainId := chain;
              conn_address := t_userAddress t;
              autoSignerAddress := autoSigner |} in
  let w := set_connection (Some c) w in
  let w := setItem "chaincycles_chain_id" chain w in
  let w := setItem "chaincycles_user_address" (t_userAddress t) w in
  let w := setItem "chaincycles_auto_signer" autoSigner w in
  (Fulfilled c, w).

(** Resume a suspended [performConnect] until its next [await], its
    [return] or its [throw]. *)
Definition perform_step (t : Task) (w : World) : promise * World :=
  let s := t_script t in
  match t_pc t with
  | AwaitLoad =>
      match s_load s with
      | Throw e => connect_failed e w
      | Ok _ => (Pending (at_pc AwaitWallet t), log (ECreateWallet (t_faucetUrl t)) w)
      end
  | AwaitWallet =>
      match s_wallet s with
      | Throw e => connect_failed e w
      | Ok wallet =>
          match s_signer s with
          | Throw e => connect_failed e w
          | Ok autoSigner =>
              (Pending (at_pc (AwaitClaim wallet autoSigner) t),
               log (EClaimChain (t_faucetUrl t) wallet autoSigner) w)
          end
      end
  | AwaitClaim wallet autoSigner =>
      match s_claim s with
      | Throw e => connect_failed e w
      | Ok chain =>
          (Pending (at_pc (AwaitSetOwner wallet autoSigner chain) t),
           log (ESetOwner wallet chain autoSigner) w)
      end
  | AwaitSetOwner wallet autoSigner chain =>
      match s_setOwner s with
      | Throw e => connect_failed e w
      | Ok _ =>
          (Pending (at_pc (AwaitClient wallet autoSigner chain) t),
           log (ENewClient wallet autoSigner) w)
      end
  | AwaitClient wallet autoSigner chain =>
      match s_client s with
      | Throw e => connect_failed e w
      | Ok _ =>
          (Pending (at_pc (AwaitChain wallet autoSigner chain) t),
           log (EChain {| client_wallet := wallet; client_signer := autoSigner |}
                       chain) w)
      end
  | AwaitChain wallet autoSigner chain =>
      match s_chain s with
      | Throw e => connect_failed e w
      | Ok _ => connect_done t wallet autoSigner chain w
      end
  end.

(** *** [connect(dynamicWallet, faucetUrl)] on the event loop *)

(** A [connect] call: suspended at [await this.connectPromise], either in
    the branch that started the attempt ([own = true], the one with the
    [finally]) or in the branch that found one in flight; or settled. *)
Inductive call : Type :=
| Waiting (own : bool) (p : nat)
| Done (r : result ConnectionState).

Record Sys := {
  world : World;
  promises : list promise;
  calls : list call;
}.

Definition boot (w : World) : Sys :=
  {| world := w; promises := []; calls := [] |}.

(** What the event loop runs next: a new [connect] call up to its first
    [await]; the continuation of the [performConnect] behind promise [p];
    the continuation of the suspended call [k]. *)
Inductive sched : Type :=
| Call (wallet : DynamicWallet) (faucetUrl : string) (script : ConnectScript)
| Advance (p : nat)
| Resume (k : nat).

Definition same_address (w : World) (userAddress : string) : bool :=
  match connection w with
  | Some c => String.eqb (conn_address c) userAddress
  | None => false
  end.

(** [connect] lowercases the wallet's address with the built-in
    [String.prototype.toLowerCase], of which nothing is assumed here: it
    is the parameter [lowercase] ([Signer.toLowerCase] on ASCII text). *)
Section Builtin.

Variable lowercase : string -> string.

(** [connect] from its call to its first [await] (or to its early
    [return] or [throw]). *)
Definition connect_call (wallet : DynamicWallet) (faucetUrl : string)
    (script : ConnectScript) (s : Sys) : Sys :=
  let userAddress := lowercase <$> address wallet in
  match userAddress with
  | None =>
      {| world := world s; promises := promises s;
         calls := calls s ++ [Done (Throw (Error "Dynamic wallet has no address"))] |}
  | Some userAddress =>
      if negb (nonempty (Some userAddress)) then
        {| world := world s; promises := promises s;
           calls := calls s ++ [Done (Throw (Error "Dynamic wallet has no address"))] |}
      else if same_address (world s) userAddress then
        {| world := world s; promises := promises s;
           calls := calls s ++ [Done (Ok (getState (world s)))] |}
      else
        match connectPromise (world s) with
        | Some p =>
            {| world := world s; promises := promises s;
               calls := calls s ++ [Waiting false p] |}
        | None =>
            let p := length (promises s) in
            let t := {| t_pc := AwaitLoad; t_faucetUrl := faucetUrl;
                        t_userAddress := userAddress; t_script := script |} in
            {| world := set_connectPromise (Some p) (world s);
               promises := promises s ++ [Pending t];
               calls := calls s ++ [Waiting true p] |}
        end
  end.

Definition advance (p : nat) (s : Sys) : Sys :=
  match promises s !! p with
  | Some (Pending t) =>
      let '(q, w) := perform_step t (world s) in
      {| world := w; promises := <[p := q]> (promises s); calls := calls s |}
  | _ => s
  end.

(** The continuation of [await this.connectPromise]: [return
    this.getState()] or the rethrown rejection; in the branch that
    started the attempt, the [finally] then clears [connectPromise]. *)
Definition resume (k : nat) (s : Sys) : Sys :=
  match calls s !! k with
  | Some (Waiting own p) =>
      match promises s !! p with
      | Some (Fulfilled _) =>
          {| world := if own then set_connectPromise None (world s) else world s;
             promises := promises s;
             calls := <[k := Done (Ok (getState (world s)))]> (calls s) |}
      | Some (Rejected e) =>
          {| world := if own then set_connectPromise None (world s) else world s;
             promises := promises s;
             calls := <[k := Done (Throw e)]> (calls s) |}
      | _ => s
      end
  | _ => s
  end.

Definition step (s : Sys) (ev : sched) : Sys :=
  match ev with
  | Call wallet faucetUrl script => connect_call wallet faucetUrl script s
  | Advance p => advance p s
  | Resume k => resume k s
  end.

Definition run (s : Sys) (evs : list sched) : Sys := fold_left step evs s.

(** A [connect] call run alone: the call, the six continuations of the
    attempt it may have started, its own continuation. *)
Definition connect_alone (wallet : DynamicWallet) (faucetUrl : string)
    (script : ConnectScript) (w : World) : Sys :=
  let s := connect_call wallet faucetUrl script (boot w) in
  let s := run s (replicate 6 (Advance 0)) in
  resume 0 s.

End Builtin.

(** The number of [faucet.claimChain] requests in a trace. *)
Definition is_claim (e : event) : bool :=
  match e with
  | EClaimChain _ _ _ => true
  | _ => false
  end.

Definition claims (w : World) : nat := length (filter (fun e => is_claim e = true) (trace w)).

End Adapter.

(** ** [lineraAdapter.ts]: the connection without a wallet *)
Module PrivateKey.
Import Adapter.

(** The remote side of one [performConnectWithPrivateKey]: the outcome of
    [ensureWasmInitialized], of the module load, of [faucet.createWallet],
    of the fresh key and its address, of [faucet.claimChain], of
    [new Client] and of [client.chain]. *)
Record KeyScript := {
  k_wasm : result unit;
  k_load : result unit;
  k_wallet : result nat;
  k_signer : result string;
  k_claim : result string;
  k_client : result unit;
  k_chain : result unit;
}.

(** [try { ... } finally { f }] for a block [f] that does not throw. *)
Definition finally {A} (m : M A) (f : World -> World) : M A :=
  fun w => let '(r, w') := m w in (r, f w').

(** [performConnectWithPrivateKey(faucetUrl)], run from its call to its
    settlement. *)
Definition performConnectWithPrivateKey (faucetUrl : string) (s : KeyScript)
  : M LineraConnection :=
  try_catch
    (let* _ := await (k_wasm s) in
     let* _ := await (k_load s) in
     let* _ := emit (ECreateWallet faucetUrl) in
     let* wallet := await (k_wallet s) in
     let* userAddress := await (k_signer s) in
     let* _ := emit (EClaimChain faucetUrl wallet userAddress) in
     let* chain := await (k_claim s) in
     let* _ := emit (ENewClient wallet userAddress) in
     let* _ := await (k_client s) in
     let client := {| client_wallet := wallet; client_signer := userAddress |} in
     let* _ := emit (EChain client chain) in
     let* _ := await (k_chain s) in
     let c := {| client := client;
                 conn_wallet := wallet;
                 faucet := faucetUrl;
                 chainId := chain;
                 conn_address := userAddress;
                 autoSignerAddress := userAddress |} in
     let* _ := modify (set_connection (Some c)) in
     let* _ := modify (setItem "chaincycles_chain_id" chain) in
     let* _ := modify (setItem "chaincycles_user_address" userAddress) in
     ret c)
    (fun error =>
       let* _ := modify (set_connection None) in
       throw error).

(** [connectWithPrivateKey(faucetUrl)].  [p] names the promise of the
    attempt the call starts; [inflight] is the rest of an attempt found
    in flight, run to its settlement by [await this.connectPromise]. *)
Definition connectWithPrivateKey (faucetUrl : string) (s : KeyScript)
    (p : nat) (inflight : M unit) : M ConnectionState :=
  let* w := get in
  match connection w with
  | Some _ => ret (getState w)
  | None =>
      match connectPromise w with
      | Some _ =>
          let* _ := inflight in
          let* w' := get in
          ret (getState w')
      | None =>
          let* _ := modify (set_connectPromise (Some p)) in
          finally
            (let* _ := performConnectWithPrivateKey faucetUrl s in
             let* w' := get in
             ret (getState w'))
            (set_connectPromise None)
      end
  end.

End PrivateKey.

(** ** [lineraAdapter.ts]: [connectApplication], one step per [await] *)
Module Bind.
Import Adapter.

(** Where a suspended [connectApplication] waits, with the locals it
    holds: the id, and the client and the partition read from
    [this.connection] when the call was made. *)
Inductive bind_pc : Type :=
| AwaitChainObject (applicationId : string) (cl : Client) (chain : string)
| AwaitApplication (applicationId : string) (cl : Client) (chain : string).

(** The promise [connectApplication] returned. *)
Inductive binding : Type :=
| Binding (p : bind_pc)
| Bound (a : ApplicationConnection)
| Unbound (e : exn).

(** The call after the cache check, up to
    [await this.connection.client.chain(this.connection.chainId)]. *)
Definition bind_start (applicationId : string) (c : LineraConnection)
    (w : World) : binding * World :=
  if String.eqb applicationId "" then
    (Unbound (Error "Application ID is not configured"), w)
  else
    (Binding (AwaitChainObject applicationId (client c) (chainId c)),
     log (EChain (client c) (chainId c)) w).

(** [connectApplication(applicationId)] from its call to its first
    [await], its [return] or its [throw]. *)
Definition connectApplication_call (applicationId : string) (w : World)
  : binding * World :=
  match connection w with
  | None =>
      (Unbound (Error "Must connect wallet before connecting to application"), w)
  | Some c =>
      match appConnection w with
      | Some a =>
          if String.eqb (Adapter.applicationId a) applicationId then (Bound a, w)
          else bind_start applicationId c w
      | None => bind_start applicationId c w
      end
  end.

(** The continuation of a suspended [connectApplication], the round trip
    it waited for having returned [r]: [await chain.application(id)]
    after the first, [this.appConnection = { application, applicationId }]
    after the second, whatever [this.connection] is by then. *)
Definition connectApplication_resume (r : result unit) (p : bind_pc) (w : World)
  : binding * World :=
  match r with
  | Throw e => (Unbound e, w)
  | Ok _ =>
      match p with
      | AwaitChainObject applicationId cl chain =>
          (Binding (AwaitApplication applicationId cl chain),
           log (EApplication cl chain applicationId) w)
      | AwaitApplication applicationId cl chain =>
          let a := {| application := {| app_client := cl; app_chain := chain;
                                        app_id := applicationId |};
                      applicationId := applicationId |} in
          (Bound a, set_appConnection (Some a) w)
      end
  end.

(** One turn of the event loop for this call: the round trip it waits
    for returns [r]. *)
Definition bind_step (bw : binding * World) (r : result unit) : binding * World :=
  match fst bw with
  | Binding p => connectApplication_resume r p (snd bw)
  | _ => bw
  end.

(** The call and its continuations run with nothing in between, the round
    trips returning [chain_r] and [app_r]. *)
Definition connectApplication_alone (applicationId : string)
    (chain_r app_r : result unit) (w : World) : binding * World :=
  fold_left bind_step [chain_r; app_r] (connectApplication_call applicationId w).

(** The settled promise of a call that returned or threw. *)
Definition settled (r : result ApplicationConnection) : binding :=
  match r with
  | Ok a => Bound a
  | Throw e => Unbound e
  end.

End Bind.

(** ** [gameApi.ts] *)
Module GameApi.
Import Adapter.

(** The GraphQL documents.  Only their operation is kept: the selection
    sets play no part in what this layer does with them. *)
Definition GET_ROOM : string := "query GetRoom { room { ... } }".
Definition CREATE_ROOM : string :=
  "mutation CreateRoom($gameType: GameType!) { createRoom(gameType: $gameType) }".
Definition JOIN_ROOM : string :=
  "mutation JoinRoom($hostChainId: String!) { joinRoom(hostChainId: $hostChainId) }".
Definition LEAVE_ROOM : string := "mutation LeaveRoom { leaveRoom }".
Definition MAKE_MOVE : string :=
  "mutation MakeMove($primary: Int!, $secondary: String) { makeMove(primary: $primary, secondary: $secondary) }".

Record MoveData := {
  primary : Z;
  secondary : option string;
}.

(** The remote side of a [mutate] and of a [queryWithSync]. *)
Record MutateEnv := {
  m_remote : Remote;
  m_attempts : nat -> Attempt;
}.

Record SyncEnv := {
  sq_sync : result unit;
  sq_remote : Remote;
}.

(** [result.name] on what [query] returned: a [TypeError] when the
    envelope had no [data]. *)
Definition member (name : string) (v : value) : M value :=
  match v with
  | None => throw (Error ("Cannot read properties of undefined (reading '"
                          +:+ name +:+ "')"))
  | Some j => field name j
  end.

(** The update of the recent-room list in [joinRoom]:
    [if (!recent.includes(h)) { recent.unshift(h); if (recent.length > 10) recent.pop(); setItem(...) }]
    on [recent = JSON.parse(getItem(...) || '[]')]. *)
Definition remember_room (hostChainId : string) (stored : option (list string))
  : option (list string) :=
  let recent := default [] stored in
  if bool_decide (hostChainId ∈ recent) then stored
  else
    let recent := hostChainId :: recent in
    let recent := if (10 <? length recent)%nat then removelast recent else recent in
    Some recent.

(** [getRecentRooms()]. *)
Definition getRecentRooms (w : World) : list string := default [] (recentRooms w).

Section Config.

Variable APPLICATION_ID : string.

Definition createRoom (gameType : string) (env : MutateEnv) : M string :=
  let* _ := mutate APPLICATION_ID CREATE_ROOM
              (Some (JObj [("gameType", JStr gameType)]))
              (m_remote env) (m_attempts env) in
  getChainId.

Definition joinRoom (hostChainId : string) (env : MutateEnv) : M unit :=
  let* _ := mutate APPLICATION_ID JOIN_ROOM
              (Some (JObj [("hostChainId", JStr hostChainId)]))
              (m_remote env) (m_attempts env) in
  modify (fun w => set_recentRooms (remember_room hostChainId (recentRooms w)) w).

Definition leaveRoom (env : MutateEnv) : M unit :=
  let* _ := mutate APPLICATION_ID LEAVE_ROOM None
              (m_remote env) (m_attempts env) in
  ret tt.

Definition getRoom (env : Remote) : M value :=
  let* result := query APPLICATION_ID GET_ROOM None env in
  member "room" result.

Definition getRoomSynced (env : SyncEnv) : M value :=
  let* result := queryWithSync APPLICATION_ID GET_ROOM None
                   (sq_sync env) (sq_remote env) in
  member "room" result.

Definition makeMove (moveData : MoveData) (env : MutateEnv) : M unit :=
  let* _ := mutate APPLICATION_ID MAKE_MOVE
              (Some (JObj [("primary", JNum (primary moveData));
                           ("secondary", match secondary moveData with
                                         | Some s => JStr s
                                         | None => JNull
                                         end)]))
              (m_remote env) (m_attempts env) in
  ret tt.

End Config.

(** *** [pollRoomUpdates(callback, interval, maxInterval, maxPolls)]

    The closure variables of one poll loop, what it has pending, and a
    record of the timers it set and the fetches it started.  The callback
    acts on a caller's state [S].  [JSON.stringify], a built-in, is a
    parameter: it gives a string, or [undefined] ([None]).  Intervals are
    rationals: the doubles of the source are exact on the millisecond
    values and the factor 1.5 used here. *)
Inductive phase : Type :=
| Scheduled
| InFlight
| Halted.

Record Poll := {
  currentInterval : Q;
  lastRoom : option (option string);
  running : bool;
  pollCount : Z;
  pending : phase;
  timers : list Q;
  fetches : nat;
}.

Inductive poll_event : Type :=
| Tick
| Fetched (r : result value)
| Cancel.

Section Poll.

Context {S : Type}.
Variable stringify : value -> option string.
Variable callback : value -> S -> S.
Variables interval maxInterval : Q.
Variable maxPolls : Z.

(** [poll] from its call to [await getRoomSynced()]. *)
Definition poll_head (p : Poll) : Poll :=
  if negb (running p) then
    {| currentInterval := currentInterval p; lastRoom := lastRoom p;
       running := running p; pollCount := pollCount p;
       pending := Halted; timers := timers p; fetches := fetches p |}
  else
    let pollCount' := pollCount p + 1 in
    if maxPolls <? pollCount' then
      {| currentInterval := currentInterval p; lastRoom := lastRoom p;
         running := false; pollCount := pollCount';
         pending := Halted; timers := timers p; fetches := fetches p |}
    else
      {| currentInterval := currentInterval p; lastRoom := lastRoom p;
         running := running p; pollCount := pollCount';
         pending := InFlight; timers := timers p; fetches := Datatypes.S (fetches p) |}.

(** The rest of the [try] block, for a fetched [room]. *)
Definition compare (room : value) (ps : Poll * S) : Poll * S :=
  let '(p, s) := ps in
  let roomStr := stringify room in
  if bool_decide (Some roomStr <> lastRoom p) then
    ({| currentInterval := interval; lastRoom := Some roomStr;
        running := running p; pollCount := pollCount p;
        pending := pending p; timers := timers p; fetches := fetches p |},
     callback room s)
  else
    ({| currentInterval := Qmin (currentInterval p * (3 # 2)) maxInterval;
        lastRoom := lastRoom p;
        running := running p; pollCount := pollCount p;
        pending := pending p; timers := timers p; fetches := fetches p |},
     s).

(** [if (running) setTimeout(poll, currentInterval)]. *)
Definition reschedule (p : Poll) : Poll :=
  if running p then
    {| currentInterval := currentInterval p; lastRoom := lastRoom p;
       running := running p; pollCount := pollCount p;
       pending := Scheduled; timers := timers p ++ [currentInterval p];
       fetches := fetches p |}
  else
    {| currentInterval := currentInterval p; lastRoom := lastRoom p;
       running := running p; pollCount := pollCount p;
       pending := Halted; timers := timers p; fetches := fetches p |}.

(** [poll] from the settlement of [getRoomSynced()] to its end; a
    rejection is caught and logged. *)
Definition poll_tail (r : result value) (ps : Poll * S) : Poll * S :=
  let '(p, s) := match r with
                 | Ok room => compare room ps
                 | Throw _ => ps
                 end in
  (reschedule p, s).

(** The function [pollRoomUpdates] returns: [running = false]. *)
Definition cancel (p : Poll) : Poll :=
  {| currentInterval := currentInterval p; lastRoom := lastRoom p;
     running := false; pollCount := pollCount p;
     pending := pending p; timers := timers p; fetches := fetches p |}.

(** [pollRoomUpdates]: the closure variables and the first, direct call
    of [poll]. *)
Definition pollRoomUpdates : Poll :=
  poll_head {| currentInterval := interval; lastRoom := None;
               running := true; pollCount := 0;
               pending := Halted; timers := []; fetches := 0 |}.

(** One turn of the event loop for this poll loop: its timer fires, its
    fetch settles, or its cancel function is called. *)
Definition poll_step (ps : Poll * S) (ev : poll_event) : Poll * S :=
  match ev, pending (fst ps) with
  | Tick, Scheduled => (poll_head (fst ps), snd ps)
  | Fetched r, InFlight => poll_tail r ps
  | Cancel, _ => (cancel (fst ps), snd ps)
  | _, _ => ps
  end.

Definition poll_run (ps : Poll * S) (evs : list poll_event) : Poll * S :=
  fold_left poll_step evs ps.

(** The loop driven over a sequence of fetched snapshots: the fetch in
    flight settles with the first; for each later one the timer fires and
    the fetch it starts settles with it. *)
Definition feed (rooms : list value) : list poll_event :=
  match rooms with
  | [] => []
  | room :: rest =>
      Fetched (Ok room) :: flat_map (fun r => [Tick; Fetched (Ok r)]) rest
  end.

End Poll.

End GameApi.

(** ** The game store, [useGameStore] *)
Module Store.
Import Adapter GameApi.

(** The store's data fields.  [pollCanceller] names the poll loop whose
    cancel function it holds. *)
Record GameState := {
  room : value;
  isLoading : bool;
  error : option string;
  pollCanceller : option nat;
}.

Definition initial_state : GameState :=
  {| room := Some JNull; isLoading := false; error := None;
     pollCanceller := None |}.

(** The store, the adapter it talks to, the poll loops it has started
    and the [.then] callbacks of [startPolling] that have not run yet. *)
Record App := {
  store : GameState;
  world : World;
  pollers : list Poll;
  installs : list nat;
}.

Definition set_store (f : GameState -> GameState) (a : App) : App :=
  {| store := f (store a); world := world a;
     pollers := pollers a; installs := installs a |}.

Definition set_room (r : value) (g : GameState) : GameState :=
  {| room := r; isLoading := isLoading g; error := error g;
     pollCanceller := pollCanceller g |}.

Definition set_isLoading (b : bool) (g : GameState) : GameState :=
  {| room := room g; isLoading := b; error := error g;
     pollCanceller := pollCanceller g |}.

Definition set_error (e : option string) (g : GameState) : GameState :=
  {| room := room g; isLoading := isLoading g; error := e;
     pollCanceller := pollCanceller g |}.

Definition set_pollCanceller (c : option nat) (g : GameState) : GameState :=
  {| room := room g; isLoading := isLoading g; error := error g;
     pollCanceller := c |}.

(** A call into [gameApi] runs on the adapter's part of the state. *)
Definition lift {A} (m : M A) : st App A :=
  fun a => let '(r, w) := m (world a) in
           (r, {| store := store a; world := w;
                  pollers := pollers a; installs := installs a |}).

(** [err instanceof Error ? err.message : fallback]. *)
Definition message_or (fallback : string) (err : exn) : string :=
  match err with
  | Error m => m
  | Thrown _ => fallback
  end.

(** [set({ isLoading: true, error: null })]. *)
Definition begin : st App unit :=
  modify (set_store (fun g => set_error None (set_isLoading true g))).

(** [set({ isLoading: false, error: ... })] of the [catch] blocks. *)
Definition failed (fallback : string) (err : exn) : st App unit :=
  modify (set_store (fun g =>
    set_error (Some (message_or fallback err)) (set_isLoading false g))).

Section Config.

Variable APPLICATION_ID : string.
Variable stringify : value -> option string.

(** [stopPolling()]. *)
Definition stopPolling : st App unit :=
  let* a := get in
  match pollCanceller (store a) with
  | Some n =>
      modify (fun a =>
        {| store := set_pollCanceller None (store a); world := world a;
           pollers := alter cancel n (pollers a); installs := installs a |})
  | None => ret tt
  end.

(** [startPolling()]: the new loop runs with the default intervals and
    the callback [(room) => set({ room })]; the promise of its cancel
    function is handed to [.then]. *)
Definition startPolling : st App unit :=
  let* _ := stopPolling in
  modify (fun a =>
    {| store := store a; world := world a;
       pollers := pollers a ++ [pollRoomUpdates (2000 # 1) 100];
       installs := installs a ++ [length (pollers a)] |}).

(** The [.then] callbacks, run once the synchronous code that called
    [startPolling] has finished: [set({ pollCanceller: canceller })]. *)
Definition run_installs (a : App) : App :=
  {| store := fold_left (fun g n => set_pollCanceller (Some n) g)
                        (installs a) (store a);
     world := world a; pollers := pollers a; installs := [] |}.

(** One turn of the event loop for poll loop [n] of the store. *)
Definition poller_step (n : nat) (ev : poll_event) (a : App) : App :=
  match pollers a !! n with
  | Some p =>
      let '(p', g) := poll_step stringify set_room (2000 # 1) (5000 # 1) 100
                                (p, store a) ev in
      {| store := g; world := world a;
         pollers := <[n := p']> (pollers a); installs := installs a |}
  | None => a
  end.

(** [syncRoom()]. *)
Definition syncRoom (env : SyncEnv) : st App unit :=
  try_catch
    (let* r := lift (getRoomSynced APPLICATION_ID env) in
     modify (set_store (set_room r)))
    (fun err => ret tt).

(** [createNewRoom(gameType)]. *)
Definition createNewRoom (gameType : string) (create : MutateEnv)
    (read : Remote) : st App string :=
  let* _ := begin in
  try_catch
    (let* hostChainId := lift (createRoom APPLICATION_ID gameType create) in
     let* r := lift (getRoom APPLICATION_ID read) in
     let* _ := modify (set_store (fun g => set_isLoading false (set_room r g))) in
     ret hostChainId)
    (fun err =>
       let* _ := failed "Failed to create room" err in
       throw err).

(** [joinExistingRoom(hostChainId)]. *)
Definition joinExistingRoom (hostChainId : string) (join : MutateEnv)
  : st App unit :=
  let* _ := begin in
  try_catch
    (let* _ := lift (joinRoom APPLICATION_ID hostChainId join) in
     let* _ := startPolling in
     modify (set_store (set_isLoading false)))
    (fun err =>
       let* _ := failed "Failed to join room" err in
       throw err).

(** [leaveCurrentRoom()]. *)
Definition leaveCurrentRoom (leave : MutateEnv) : st App unit :=
  let* _ := begin in
  try_catch
    (let* _ := stopPolling in
     let* _ := lift (leaveRoom APPLICATION_ID leave) in
     modify (set_store (fun g => set_isLoading false (set_room (Some JNull) g))))
    (fun err => failed "Failed to leave room" err).

(** [submitMove(moveData)]. *)
Definition submitMove (moveData : MoveData) (move : MutateEnv)
    (sync : SyncEnv) : st App unit :=
  let* _ := begin in
  try_catch
    (let* _ := lift (makeMove APPLICATION_ID moveData move) in
     let* _ := syncRoom sync in
     modify (set_store (set_isLoading false)))
    (fun err =>
       let* _ := failed "Failed to make move" err in
       throw err).

End Config.

End Store.

(** ** [gameApi.ts]: player operations *)
Module Players.
Import Adapter GameApi.

Definition GET_PLAYER : string :=
  "query GetPlayer($wallet: String!) { player(wallet: $wallet) { ... } }".
Definition REGISTER : string :=
  "mutation Register($username: String!) { register(username: $username) }".

Section Config.

Variable APPLICATION_ID : string.

Definition registerPlayer (username : string) (env : MutateEnv) : M unit :=
  let* _ := mutate APPLICATION_ID REGISTER
              (Some (JObj [("username", JStr username)]))
              (m_remote env) (m_attempts env) in
  ret tt.

Definition getPlayerProfile (wallet : string) (env : Remote) : M value :=
  let* result := query APPLICATION_ID GET_PLAYER
                   (Some (JObj [("wallet", JStr wallet)])) env in
  member "player" result.

(** [getWalletAddress()] is [lineraAdapter.getUserAddress()]. *)
Definition getCurrentPlayerProfile (env : Remote) : M value :=
  let* wallet := getUserAddress in
  getPlayerProfile wallet env.

End Config.

End Players.

(** ** [wasmInit.ts] *)
Module WasmInit.

(** The promise a call of [initWasm()] returned. *)
Inductive init_promise : Type :=
| InitPending
| InitFulfilled
| InitRejected (e : exn).

(** A call of [ensureWasmInitialized]: suspended at
    [await wasmInitPromise] in the branch that started [initWasm]
    ([own = true]), or following the promise it returned
    ([return wasmInitPromise]); or settled. *)
Inductive caller : Type :=
| Waiting (own : bool) (p : nat)
| Done (r : result unit).

(** The two module variables, the [initWasm] promises made so far and
    the calls made so far. *)
Record Wasm := {
  wasmInitialized : bool;
  wasmInitPromise : option nat;
  inits : list init_promise;
  callers : list caller;
}.

Definition boot : Wasm :=
  {| wasmInitialized := false; wasmInitPromise := None; inits := []; callers := [] |}.

(** What the event loop runs next: a new call up to its first [await] or
    its [return]; the settlement of [initWasm] behind promise [p] with
    outcome [r]; the continuation of the suspended call [k]. *)
Inductive sched : Type :=
| Call
| Settle (p : nat) (r : result unit)
| Resume (k : nat).

(** [ensureWasmInitialized()] from its call to its first [await] or its
    [return]. *)
Definition ensureWasmInitialized (s : Wasm) : Wasm :=
  if wasmInitialized s then
    {| wasmInitialized := wasmInitialized s; wasmInitPromise := wasmInitPromise s;
       inits := inits s; callers := callers s ++ [Done (Ok tt)] |}
  else
    match wasmInitPromise s with
    | Some p =>
        {| wasmInitialized := wasmInitialized s; wasmInitPromise := wasmInitPromise s;
           inits := inits s; callers := callers s ++ [Waiting false p] |}
    | None =>
        let p := length (inits s) in
        {| wasmInitialized := wasmInitialized s; wasmInitPromise := Some p;
           inits := inits s ++ [InitPending];
           callers := callers s ++ [Waiting true p] |}
    end.

(** [initWasm] behind promise [p] returns or throws. *)
Definition settle (p : nat) (r : result unit) (s : Wasm) : Wasm :=
  match inits s !! p with
  | Some InitPending =>
      {| wasmInitialized := wasmInitialized s; wasmInitPromise := wasmInitPromise s;
         inits := <[p := match r with
                         | Ok _ => InitFulfilled
                         | Throw e => InitRejected e
                         end]> (inits s);
         callers := callers s |}
  | _ => s
  end.

(** The continuation of a suspended call: in the branch that started
    [initWasm], [wasmInitialized = true] after the [await], or
    [wasmInitPromise = null; throw error] in the [catch]. *)
Definition resume (k : nat) (s : Wasm) : Wasm :=
  match callers s !! k with
  | Some (Waiting own p) =>
      match inits s !! p with
      | Some InitFulfilled =>
          {| wasmInitialized := if own then true else wasmInitialized s;
             wasmInitPromise := wasmInitPromise s;
             inits := inits s;
             callers := <[k := Done (Ok tt)]> (callers s) |}
      | Some (InitRejected e) =>
          {| wasmInitialized := wasmInitialized s;
             wasmInitPromise := if own then None else wasmInitPromise s;
             inits := inits s;
             callers := <[k := Done (Throw e)]> (callers s) |}
      | _ => s
      end
  | _ => s
  end.

Definition step (s : Wasm) (ev : sched) : Wasm :=
  match ev with
  | Call => ensureWasmInitialized s
  | Settle p r => settle p r s
  | Resume k => resume k s
  end.

Definition run (s : Wasm) (evs : list sched) : Wasm := fold_left step evs s.

(** [isWasmReady()]. *)
Definition isWasmReady (s : Wasm) : bool := wasmInitialized s.

End WasmInit.

(** ** The connection store, [useLineraStore] *)
Module LineraStore.
Import GameApi Players.

Record LineraState := {
  isConnecting : bool;
  isConnected : bool;
  error : option string;
  chainId : option string;
  userAddress : option string;
  autoSignerAddress : option string;
  profile : value;
}.

Definition initial_state : LineraState :=
  {| isConnecting := false; isConnected := false; error := None;
     chainId := None; userAddress := None; autoSignerAddress := None;
     profile := Some JNull |}.

(** The store and the adapter it talks to. *)
Record Session := {
  store : LineraState;
  world : Adapter.World;
}.

Definition set_store (f : LineraState -> LineraState) (a : Session) : Session :=
  {| store := f (store a); world := world a |}.

(** A call into the adapter or [gameApi] runs on the adapter's part of
    the state. *)
Definition lift {A} (m : Adapter.M A) : st Session A :=
  fun a => let '(r, w) := m (world a) in (r, {| store := store a; world := w |}).

(** [err instanceof Error ? err.message : 'Failed to connect']. *)
Definition message_or (fallback : string) (err : exn) : string :=
  match err with
  | Error m => m
  | Thrown _ => fallback
  end.

(** [a?.slice(from, to) || fallback], for [from <= to].  The addresses
    are ASCII text, on which the code units [slice] counts are the
    characters. *)
Definition slice_or (a : option string) (from to : nat) (fallback : string)
  : string :=
  match a with
  | Some s =>
      let t := String.substring from (to - from) s in
      if String.eqb t "" then fallback else t
  | None => fallback
  end.

(** [set({ isConnecting: true, error: null })]. *)
Definition begin (g : LineraState) : LineraState :=
  {| isConnecting := true; isConnected := isConnected g; error := None;
     chainId := chainId g; userAddress := userAddress g;
     autoSignerAddress := autoSignerAddress g; profile := profile g |}.

(** [set({ isConnecting: false, isConnected: true, chainId: state.chainId, ... })]. *)
Definition connected (state : Adapter.ConnectionState) (g : LineraState)
  : LineraState :=
  {| isConnecting := false; isConnected := true; error := error g;
     chainId := Adapter.st_chainId state;
     userAddress := Adapter.st_userAddress state;
     autoSignerAddress := Adapter.st_autoSignerAddress state;
     profile := profile g |}.

(** [set({ isConnecting: false, error: ... })]. *)
Definition failed (err : exn) (g : LineraState) : LineraState :=
  {| isConnecting := false; isConnected := isConnected g;
     error := Some (message_or "Failed to connect" err);
     chainId := chainId g; userAddress := userAddress g;
     autoSignerAddress := autoSignerAddress g; profile := profile g |}.

Definition set_profile (p : value) (g : LineraState) : LineraState :=
  {| isConnecting := isConnecting g; isConnected := isConnected g;
     error := error g; chainId := chainId g; userAddress := userAddress g;
     autoSignerAddress := autoSignerAddress g; profile := p |}.

(** The remote side of the profile block of a connect: the first read of
    the profile, the registration, the second read. *)
Record ProfileEnv := {
  p_first : Adapter.Remote;
  p_register : MutateEnv;
  p_second : Adapter.Remote;
}.

Section Config.

Variable APPLICATION_ID : string.
Variable DEFAULT_FAUCET_URL : string.

(** The inner [try] block of the two connect actions: load the profile,
    register under [defaultUsername] if there is none, store it; errors
    are logged and dropped. *)
Definition load_profile (defaultUsername : string) (env : ProfileEnv)
  : st Session unit :=
  try_catch
    (let* first := lift (getCurrentPlayerProfile APPLICATION_ID (p_first env)) in
     let* profile :=
       if negb (truthy first) then
         let* _ := lift (registerPlayer APPLICATION_ID defaultUsername
                           (p_register env)) in
         lift (getCurrentPlayerProfile APPLICATION_ID (p_second env))
       else ret first in
     modify (set_store (set_profile profile)))
    (fun regErr => ret tt).

(** [connectWithPrivateKey()]. *)
Definition connectWithPrivateKey (s : PrivateKey.KeyScript) (p : nat)
    (inflight : Adapter.M unit) (env : ProfileEnv) : st Session unit :=
  let* a := get in
  if isConnecting (store a) then ret tt
  else
    let* _ := modify (set_store begin) in
    try_catch
      (let* state := lift (PrivateKey.connectWithPrivateKey DEFAULT_FAUCET_URL
                             s p inflight) in
       let* _ := modify (set_store (connected state)) in
       let shortAddr := slice_or (Adapter.st_autoSignerAddress state) 2 10 "Anon" in
       load_profile ("Player_" +:+ shortAddr) env)
      (fun err =>
         let* _ := modify (set_store (failed err)) in
         throw err).

(** [disconnect()]. *)
Definition disconnect (a : Session) : Session :=
  {| store := {| isConnecting := isConnecting (store a); isConnected := false;
                 error := None; chainId := None; userAddress := None;
                 autoSignerAddress := None; profile := Some JNull |};
     world := Adapter.disconnect (world a) |}.

(** [refreshProfile()]. *)
Definition refreshProfile (env : Adapter.Remote) : st Session unit :=
  try_catch
    (let* profile := lift (getCurrentPlayerProfile APPLICATION_ID env) in
     modify (set_store (set_profile profile)))
    (fun _ => ret tt).

(** [register(username)]. *)
Definition register (username : string) (reg : MutateEnv)
    (env : Adapter.Remote) : st Session unit :=
  let* _ := lift (registerPlayer APPLICATION_ID username reg) in
  refreshProfile env.

(** [updateFromState(state)]. *)
Definition updateFromState (state : Adapter.ConnectionState) (a : Session)
  : Session :=
  set_store (fun g =>
    {| isConnecting := isConnecting g;
       isConnected := Adapter.isConnected state; error := error g;
       chainId := Adapter.st_chainId state;
       userAddress := Adapter.st_userAddress state;
       autoSignerAddress := Adapter.st_autoSignerAddress state;
       profile := profile g |}) a.

End Config.

End LineraStore.

(** ** Vocabulary of the properties *)

(** *** The trace of a mutation *)

(** What one round of the wait after a mutation leaves in the trace, by
    the outcome of its two remote calls. *)
Definition attempt_events (c : Adapter.LineraConnection) (a : Adapter.Attempt)
  : list Adapter.event :=
  [Adapter.ESleep 1000; Adapter.EChain (Adapter.client c) (Adapter.chainId c)] ++
  match Adapter.a_chain a with
  | Throw e => [Adapter.EWarn e]
  | Ok false => []
  | Ok true =>
      Adapter.EProcessInbox (Adapter.client c) (Adapter.chainId c) ::
      match Adapter.a_inbox a with
      | Throw e => [Adapter.EWarn e]
      | Ok _ => []
      end
  end.

(** The number of sleeps in a trace. *)
Definition is_sleep (e : Adapter.event) : bool :=
  match e with
  | Adapter.ESleep _ => true
  | _ => false
  end.

Definition sleeps (w : Adapter.World) : nat :=
  length (filter (fun e => is_sleep e = true) (Adapter.trace w)).

(** A world with more events in its trace. *)
Definition logs (evs : list Adapter.event) (w : Adapter.World) : Adapter.World :=
  {| Adapter.connection := Adapter.connection w;
     Adapter.appConnection := Adapter.appConnection w;
     Adapter.connectPromise := Adapter.connectPromise w;
     Adapter.localStorage := Adapter.localStorage w;
     Adapter.recentRooms := Adapter.recentRooms w;
     Adapter.trace := Adapter.trace w ++ evs |}.

(** *** The single flight of [connect] *)

(** [getState()] when the connection is [c]. *)
Definition conn_state (c : Adapter.LineraConnection) : Adapter.ConnectionState :=
  {| Adapter.isConnected := true;
     Adapter.st_chainId := Some (Adapter.chainId c);
     Adapter.st_userAddress := Some (Adapter.conn_address c);
     Adapter.st_autoSignerAddress := Some (Adapter.autoSignerAddress c) |}.

(** What a [connect] call that awaited the promise settles with. *)
Definition outcome (q : Adapter.promise) : option (result Adapter.ConnectionState) :=
  match q with
  | Adapter.Pending _ => None
  | Adapter.Fulfilled c => Some (Ok (conn_state c))
  | Adapter.Rejected e => Some (Throw e)
  end.

(** Whether a suspended [performConnect] has already asked for a partition. *)
Definition claimed (p : Adapter.pc) : nat :=
  match p with
  | Adapter.AwaitLoad | Adapter.AwaitWallet => 0
  | _ => 1
  end.

(** The number of continuations a suspended [performConnect] still needs
    at most. *)
Definition steps_left (p : Adapter.pc) : nat :=
  match p with
  | Adapter.AwaitLoad => 6
  | Adapter.AwaitWallet => 5
  | Adapter.AwaitClaim _ _ => 4
  | Adapter.AwaitSetOwner _ _ _ => 3
  | Adapter.AwaitClient _ _ _ => 2
  | Adapter.AwaitChain _ _ _ => 1
  end.

(** A wallet that has an address, which is not that of the session of
    [w0], if [w0] has one: the two tests of [connect], made as it makes
    them, on the address lowercased by the built-in. *)
Definition newcomer (lowercase : string -> string) (w0 : Adapter.World)
    (wallet : Signer.DynamicWallet) : bool :=
  match Signer.address wallet with
  | Some a =>
      Signer.nonempty (Some (lowercase a))
      && negb (Adapter.same_address w0 (lowercase a))
  | None => false
  end.

(** Events of the first stretch of a schedule that starts in [w0], in
    which [connect] calls (with a wallet that has an address, other than
    that of the session of [w0]) are issued and the attempt may advance,
    but no call is resumed; and of the second, in which the attempt
    advances and calls are resumed, but none is issued. *)
Definition issuing (lowercase : string -> string) (w0 : Adapter.World)
    (ev : Adapter.sched) : bool :=
  match ev with
  | Adapter.Call wallet _ _ => newcomer lowercase w0 wallet
  | Adapter.Advance _ => true
  | Adapter.Resume _ => false
  end.

Definition settling (ev : Adapter.sched) : bool :=
  match ev with
  | Adapter.Call _ _ _ => false
  | _ => true
  end.

(** The world agrees with the promise of the one attempt; [c0] is the
    session there was before, if any, and [n0] the number of claims made
    before. *)
Definition world_ok (c0 : option Adapter.LineraConnection) (n0 : nat)
    (q : Adapter.promise) (w : Adapter.World) : Prop :=
  match q with
  | Adapter.Pending t =>
      Adapter.connection w = c0
      /\ Adapter.claims w = (n0 + claimed (Adapter.t_pc t))%nat
  | Adapter.Fulfilled c =>
      Adapter.connection w = Some c /\ Adapter.claims w = (n0 + 1)%nat
  | Adapter.Rejected _ =>
      Adapter.connection w = None /\ (Adapter.claims w <= n0 + 1)%nat
  end.

(** The call that started the attempt still waits and the promise is still
    memoized, or it has settled with the attempt's outcome and has cleared
    [connectPromise]. *)
Definition owner_ok (q : Adapter.promise) (w : Adapter.World) (c : Adapter.call) : Prop :=
  (c = Adapter.Waiting true 0 /\ Adapter.connectPromise w = Some 0%nat)
  \/ (exists r, outcome q = Some r /\ c = Adapter.Done r
                /\ Adapter.connectPromise w = None).

(** A later call waits on the same promise or has settled with its outcome. *)
Definition joiner_ok (q : Adapter.promise) (c : Adapter.call) : Prop :=
  c = Adapter.Waiting false 0 \/ (exists r, outcome q = Some r /\ c = Adapter.Done r).

(** The invariant of the schedules considered: nothing has happened yet,
    or there is exactly one attempt, started by the first call. *)
Definition single_flight (c0 : option Adapter.LineraConnection) (n0 : nat)
    (s : Adapter.Sys) : Prop :=
  (Adapter.promises s = [] /\ Adapter.calls s = []
   /\ Adapter.connection (Adapter.world s) = c0
   /\ Adapter.connectPromise (Adapter.world s) = None
   /\ Adapter.claims (Adapter.world s) = n0)
  \/ (exists q first rest,
        Adapter.promises s = [q] /\ Adapter.calls s = first :: rest
        /\ owner_ok q (Adapter.world s) first
        /\ Forall (joiner_ok q) rest
        /\ world_ok c0 n0 q (Adapter.world s)).

(** While calls are being issued, the promise stays memoized. *)
Definition still_memoized (s : Adapter.Sys) : Prop :=
  Adapter.promises s <> [] -> Adapter.connectPromise (Adapter.world s) = Some 0%nat.

(** *** The poll loop *)

(** A callback that records the snapshots it is given. *)
Definition record (room : value) (seen : list value) : list value := seen ++ [room].

(** ** Sample inputs, used to run the definitions *)

(** A wallet whose address has capitals and which signs anything. *)
Definition demo_wallet : Signer.DynamicWallet :=
  {| Signer.address := Some "0xABC";
     Signer.signMessage := fun m => Ok ("signed:" +:+ m) |}.

Definition other_wallet : Signer.DynamicWallet :=
  {| Signer.address := Some "0xDEF";
     Signer.signMessage := fun m => Ok ("signed:" +:+ m) |}.

(** A session for "0xabc" on partition "chain-1", bound to application "app". *)
Definition demo_client : Adapter.Client :=
  {| Adapter.client_wallet := 7; Adapter.client_signer := "0xsigner" |}.

Definition demo_connection : Adapter.LineraConnection :=
  {| Adapter.client := demo_client; Adapter.conn_wallet := 7;
     Adapter.faucet := "https://faucet"; Adapter.chainId := "chain-1";
     Adapter.conn_address := "0xabc"; Adapter.autoSignerAddress := "0xsigner" |}.

Definition demo_binding : Adapter.ApplicationConnection :=
  {| Adapter.application :=
       {| Adapter.app_client := demo_client; Adapter.app_chain := "chain-1";
          Adapter.app_id := "app" |};
     Adapter.applicationId := "app" |}.

Definition demo_world : Adapter.World :=
  {| Adapter.connection := Some demo_connection;
     Adapter.appConnection := Some demo_binding;
     Adapter.connectPromise := None;
     Adapter.localStorage := ∅;
     Adapter.recentRooms := None;
     Adapter.trace := [] |}.

(** The session of [demo_world] before any application is bound, and a
    second wallet. *)
Definition demo_unbound : Adapter.World :=
  {| Adapter.connection := Some demo_connection;
     Adapter.appConnection := None;
     Adapter.connectPromise := None;
     Adapter.localStorage := ∅;
     Adapter.recentRooms := None;
     Adapter.trace := [] |}.

(** A remote side that answers [parsed]. *)
Definition answering (parsed : json) : Adapter.Remote :=
  {| Adapter.r_chain := Ok tt; Adapter.r_application := Ok tt;
     Adapter.r_reply := Adapter.Reply parsed |}.

(** Attempts that all fail, and attempts that all succeed. *)
Definition failing_attempts (i : nat) : Adapter.Attempt :=
  {| Adapter.a_chain := Throw (Error "offline"); Adapter.a_inbox := Ok tt |}.

Definition passing_attempts (i : nat) : Adapter.Attempt :=
  {| Adapter.a_chain := Ok true; Adapter.a_inbox := Ok tt |}.

(** Envelopes: data only; data and an empty [errors]; one error. *)
Definition envelope_data : json := JObj [("data", JObj [("room", JNull)])].
Definition envelope_empty_errors : json :=
  JObj [("data", JObj [("room", JNull)]); ("errors", JArr [])].
Definition envelope_one_error : json :=
  JObj [("data", JNull); ("errors", JArr [JObj [("message", JStr "Room is full")]])].

(** A faucet and network on which every step of a connection succeeds,
    giving wallet container [wl], signer address [sg] and partition [ch]. *)
Definition ok_script (wl : nat) (sg ch : string) : Adapter.ConnectScript :=
  {| Adapter.s_load := Ok tt; Adapter.s_wallet := Ok wl;
     Adapter.s_signer := Ok sg; Adapter.s_claim := Ok ch;
     Adapter.s_setOwner := Ok tt; Adapter.s_client := Ok tt;
     Adapter.s_chain := Ok tt |}.

Definition good_script : Adapter.ConnectScript := ok_script 7 "0xsigner" "chain-1".

(** One on which the client module does not load. *)
Definition no_module_script : Adapter.ConnectScript :=
  {| Adapter.s_load := Throw (Error "Failed to fetch module");
     Adapter.s_wallet := Ok 7%nat;
     Adapter.s_signer := Ok "0xsigner"; Adapter.s_claim := Ok "chain-1";
     Adapter.s_setOwner := Ok tt; Adapter.s_client := Ok tt;
     Adapter.s_chain := Ok tt |}.

(** A stand-in for [JSON.stringify] on the sample snapshots. *)
Definition demo_stringify (v : value) : option string :=
  match v with
  | Some j => Some (to_string j)
  | None => None
  end.

Definition room_A : value := Some (JStr "waiting").
Definition room_B : value := Some (JStr "in progress").

(** A remote side on which a mutation goes through. *)
Definition accepting : GameApi.MutateEnv :=
  {| GameApi.m_remote := answering envelope_data;
     GameApi.m_attempts := passing_attempts |}.

(** One on which it is refused. *)
Definition refusing : GameApi.MutateEnv :=
  {| GameApi.m_remote := answering envelope_one_error;
     GameApi.m_attempts := passing_attempts |}.

(** A synchronized read that fails, and one that answers. *)
Definition sync_refusing : GameApi.SyncEnv :=
  {| GameApi.sq_sync := Ok tt; GameApi.sq_remote := answering envelope_one_error |}.

Definition sync_answering : GameApi.SyncEnv :=
  {| GameApi.sq_sync := Ok tt; GameApi.sq_remote := answering envelope_data |}.

(** The store of a player connected as in [demo_world], in a room. *)
Definition demo_app : Store.App :=
  {| Store.store := {| Store.room := room_A; Store.isLoading := false;
                       Store.error := None; Store.pollCanceller := None |};
     Store.world := demo_world;
     Store.pollers := [];
     Store.installs := [] |}.

(** ** Vocabulary for further properties *)

(** *** Reading hexadecimal text back *)

(** The value of a digit written by [hex_digit]. *)
Definition unhex_digit (c : ascii) : N :=
  let v := N_of_ascii c in
  if (v <? 58)%N then (v - 48)%N else (v - 87)%N.

Definition unhex_pair (h l : ascii) : option Byte.byte :=
  Byte.of_N (16 * unhex_digit h + unhex_digit l)%N.

(** The bytes of a text made of pairs of digits. *)
Fixpoint unhex (s : string) : list Byte.byte :=
  match s with
  | String h (String l rest) =>
      match unhex_pair h l with
      | Some b => b :: unhex rest
      | None => []
      end
  | _ => []
  end.

(** *** Outcomes of a connection attempt *)


(** The binding [connectApplication(appId)] caches under connection [c]. *)
Definition binding_under (c : Adapter.LineraConnection) (appId : string)
  : Adapter.ApplicationConnection :=
  {| Adapter.application :=
       {| Adapter.app_client := Adapter.client c;
          Adapter.app_chain := Adapter.chainId c;
          Adapter.app_id := appId |};
     Adapter.applicationId := appId |}.

(** The connection a successful attempt stores. *)
Definition established (faucetUrl userAddress : string) (wl : nat) (sg ch : string)
  : Adapter.LineraConnection :=
  {| Adapter.client := {| Adapter.client_wallet := wl; Adapter.client_signer := sg |};
     Adapter.conn_wallet := wl;
     Adapter.faucet := faucetUrl;
     Adapter.chainId := ch;
     Adapter.conn_address := userAddress;
     Adapter.autoSignerAddress := sg |}.


(** A wallet that has the address of [demo_wallet] in lower case, and one
    that has none. *)
Definition demo_wallet_lower : Signer.DynamicWallet :=
  {| Signer.address := Some "0xabc";
     Signer.signMessage := fun m => Ok ("signed:" +:+ m) |}.

Definition anonymous_wallet : Signer.DynamicWallet :=
  {| Signer.address := None;
     Signer.signMessage := fun m => Ok ("signed:" +:+ m) |}.

(** The world [w] with the events [evs] spliced into its trace after the
    first [n] events. *)
Definition splice (n : nat) (evs : list Adapter.event) (w : Adapter.World)
  : Adapter.World :=
  {| Adapter.connection := Adapter.connection w;
     Adapter.appConnection := Adapter.appConnection w;
     Adapter.connectPromise := Adapter.connectPromise w;
     Adapter.localStorage := Adapter.localStorage w;
     Adapter.recentRooms := Adapter.recentRooms w;
     Adapter.trace := take n (Adapter.trace w) ++ evs ++ drop n (Adapter.trace w) |}.

(** What the guarded chain sync of [queryWithSync] leaves in the trace. *)
Definition presync_events (c : Adapter.LineraConnection) (sync_r : result unit)
  : list Adapter.event :=
  Adapter.EChain (Adapter.client c) (Adapter.chainId c)
  :: match sync_r with
     | Ok _ => []
     | Throw e => [Adapter.EWarn e]
     end.

(** *** Outcomes of a connection without a wallet *)

(** The error of the first step of [performConnectWithPrivateKey] that
    fails, if any. *)
Definition key_failure (s : PrivateKey.KeyScript) : option exn :=
  match PrivateKey.k_wasm s with
  | Throw e => Some e
  | Ok _ =>
  match PrivateKey.k_load s with
  | Throw e => Some e
  | Ok _ =>
  match PrivateKey.k_wallet s with
  | Throw e => Some e
  | Ok _ =>
  match PrivateKey.k_signer s with
  | Throw e => Some e
  | Ok _ =>
  match PrivateKey.k_claim s with
  | Throw e => Some e
  | Ok _ =>
  match PrivateKey.k_client s with
  | Throw e => Some e
  | Ok _ =>
  match PrivateKey.k_chain s with
  | Throw e => Some e
  | Ok _ => None
  end end end end end end end.

(** A script of a connection without a wallet in which every step
    succeeds, and one whose claim is refused. *)
Definition good_key_script : PrivateKey.KeyScript :=
  {| PrivateKey.k_wasm := Ok tt; PrivateKey.k_load := Ok tt;
     PrivateKey.k_wallet := Ok 9%nat; PrivateKey.k_signer := Ok "0xkey";
     PrivateKey.k_claim := Ok "chain-k"; PrivateKey.k_client := Ok tt;
     PrivateKey.k_chain := Ok tt |}.

Definition refused_key_script : PrivateKey.KeyScript :=
  {| PrivateKey.k_wasm := Ok tt; PrivateKey.k_load := Ok tt;
     PrivateKey.k_wallet := Ok 9%nat; PrivateKey.k_signer := Ok "0xkey";
     PrivateKey.k_claim := Throw (Error "faucet is dry");
     PrivateKey.k_client := Ok tt; PrivateKey.k_chain := Ok tt |}.

(** The world a successful connection without a wallet leaves: four
    requests in the trace, the connection stored, two entries written. *)
Definition key_connected (faucetUrl : string) (wl : nat) (sg ch : string)
    (w : Adapter.World) : Adapter.World :=
  let c := established faucetUrl sg wl sg ch in
  Adapter.setItem "chaincycles_user_address" sg
    (Adapter.setItem "chaincycles_chain_id" ch
       (Adapter.set_connection (Some c)
          (logs [Adapter.ECreateWallet faucetUrl;
                 Adapter.EClaimChain faucetUrl wl sg;
                 Adapter.ENewClient wl sg;
                 Adapter.EChain (Adapter.client c) ch] w))).

(** *** Invariants of the poll loop *)

(** The fetches started stay within the budget [maxPolls], and a running
    loop has counted exactly the fetches it started. *)
Definition on_budget (maxPolls : Z) (p : GameApi.Poll) : Prop :=
  (GameApi.running p = true -> Z.of_nat (GameApi.fetches p) = GameApi.pollCount p)
  /\ Z.of_nat (GameApi.fetches p) <= Z.max 0 maxPolls.

(** Timers and fetches alternate: a timer is set only after a fetch has
    settled, a fetch is started only by the first call or by a timer. *)
Definition in_step (p : GameApi.Poll) : Prop :=
  match GameApi.pending p with
  | GameApi.Scheduled => length (GameApi.timers p) = GameApi.fetches p
  | GameApi.InFlight => GameApi.fetches p = S (length (GameApi.timers p))
  | GameApi.Halted =>
      (length (GameApi.timers p) <= GameApi.fetches p <= S (length (GameApi.timers p)))%nat
  end.

(** The current delay and every delay used so far lie between [interval]
    and [maxInterval]. *)
Definition delays_within (interval maxInterval : Q) (p : GameApi.Poll) : Prop :=
  (interval <= GameApi.currentInterval p <= maxInterval)%Q
  /\ Forall (fun d => (interval <= d <= maxInterval)%Q) (GameApi.timers p).

(** No two neighbours of a list are equal. *)
Fixpoint no_repeat {A : Type} (l : list A) : Prop :=
  match l with
  | a :: t => match t with
              | b :: _ => a <> b
              | [] => True
              end /\ no_repeat t
  | [] => True
  end.

(** The loop remembers the fingerprint of the last snapshot it passed to
    the callback, and never passed two snapshots with the same fingerprint
    in a row. *)
Definition notified_once (stringify : value -> option string)
    (ps : GameApi.Poll * list value) : Prop :=
  GameApi.lastRoom (fst ps) = stringify <$> last (snd ps)
  /\ no_repeat (map stringify (snd ps)).

(** What [getRoom] makes of an envelope without errors: the [room]
    member of its [data], or the [TypeError] of reading [room] on a
    [data] that is absent or [null]. *)
Definition room_of_envelope (fields : list (string * json)) : result value :=
  match assoc "data" fields with
  | None => Throw (Error "Cannot read properties of undefined (reading 'room')")
  | Some JNull => Throw (Error "Cannot read properties of null (reading 'room')")
  | Some d => Ok (prop "room" d)
  end.

(** An envelope with neither [data] nor [errors]. *)
Definition envelope_bare : json := JObj [].

(** *** The connection store and the adapter *)

(** The store shows the session the adapter has. *)
Definition mirrors (a : LineraStore.Session) : Prop :=
  let g := LineraStore.store a in
  let state := Adapter.getState (LineraStore.world a) in
  LineraStore.isConnected g = Adapter.isConnected state
  /\ LineraStore.chainId g = Adapter.st_chainId state
  /\ LineraStore.userAddress g = Adapter.st_userAddress state
  /\ LineraStore.autoSignerAddress g = Adapter.st_autoSignerAddress state.

(** Two states of the store that differ in the profile at most. *)
Definition same_but_profile (g g' : LineraStore.LineraState) : Prop :=
  LineraStore.isConnecting g' = LineraStore.isConnecting g
  /\ LineraStore.isConnected g' = LineraStore.isConnected g
  /\ LineraStore.error g' = LineraStore.error g
  /\ LineraStore.chainId g' = LineraStore.chainId g
  /\ LineraStore.userAddress g' = LineraStore.userAddress g
  /\ LineraStore.autoSignerAddress g' = LineraStore.autoSignerAddress g.

(** A profile block in which every remote call is refused, and a fresh
    store on a fresh adapter. *)
Definition profile_refused : LineraStore.ProfileEnv :=
  {| LineraStore.p_first := answering envelope_one_error;
     LineraStore.p_register := refusing;
     LineraStore.p_second := answering envelope_one_error |}.

Definition fresh_session : LineraStore.Session :=
  {| LineraStore.store := LineraStore.initial_state;
     LineraStore.world := Adapter.initial |}.

(** *** Invariants of the WASM initialization *)

Definition init_rejected (q : WasmInit.init_promise) : Prop :=
  match q with
  | WasmInit.InitRejected _ => True
  | _ => False
  end.

(** Every [initWasm] but the last has failed; the memoized promise is the
    last one; the flag is set only once the last has succeeded; and the
    call that started the last one, while it waits, is the only such call. *)
Definition wasm_ok (s : WasmInit.Wasm) : Prop :=
  match WasmInit.wasmInitPromise s with
  | None => WasmInit.wasmInitialized s = false
            /\ Forall init_rejected (WasmInit.inits s)
  | Some p =>
      exists pre x,
        WasmInit.inits s = pre ++ [x] /\ length pre = p
        /\ Forall init_rejected pre
        /\ (WasmInit.wasmInitialized s = true -> x = WasmInit.InitFulfilled)
  end
  /\ (forall k q, WasmInit.callers s !! k = Some (WasmInit.Waiting true q) ->
        WasmInit.wasmInitPromise s = Some q /\ WasmInit.wasmInitialized s = false)
  /\ (forall k k' q q',
        WasmInit.callers s !! k = Some (WasmInit.Waiting true q) ->
        WasmInit.callers s !! k' = Some (WasmInit.Waiting true q') -> k = k').

(* ===================================================================== *)
(** * Part II: properties *)
(* ===================================================================== *)

(** ** The signer *)
Section SignerFacts.
Import Signer.

Example toLowerCase_address : toLowerCase "0xAbC9" = "0xabc9".
Proof. reflexivity. Qed.

Example uint8ArrayToHex_bytes :
  uint8ArrayToHex [Byte.x00; Byte.x0f; Byte.xa5; Byte.xff] = "000fa5ff".
Proof. reflexivity. Qed.

Lemma lower_ascii_idem c : lower_ascii (lower_ascii c) = lower_ascii c.
Proof.
  destruct c as [[] [] [] [] [] [] [] []]; reflexivity.
Qed.

Lemma toLowerCase_idem s : toLowerCase (toLowerCase s) = toLowerCase s.
Proof.
  induction s as [|c s IH]; simpl; [reflexivity|].
  now rewrite lower_ascii_idem, IH.
Qed.

Lemma toLowerCase_nonempty s : s <> "" -> toLowerCase s <> "".
Proof. destruct s; simpl; congruence. Qed.

Lemma byte_hex_app_length b rest :
  String.length (byte_hex b +:+ rest) = S (S (String.length rest)).
Proof. reflexivity. Qed.

Lemma uint8ArrayToHex_length bytes :
  String.length (uint8ArrayToHex bytes) = (2 * length bytes)%nat.
Proof.
  unfold uint8ArrayToHex.
  induction bytes as [|b bytes IH]; [reflexivity|].
  cbn [fold_right length]. rewrite byte_hex_app_length, IH. lia.
Qed.

(** [address()] never touches the wallet. *)
Lemma signer_address_wallet lowercase s r s' :
  signer_address lowercase s = (r, s') -> wallet s' = wallet s.
Proof.
  unfold signer_address, resolve_address.
  destruct (cachedAddress s) as [a|]; [destruct (nonempty (Some a))|];
    try (intros [= <- <-]; reflexivity);
    destruct (address (wallet s)) as [w|];
    try destruct (nonempty (Some w));
    intros [= <- <-]; reflexivity.
Qed.

(** On a new signer, [address()] is the wallet's address lowercased. *)
Lemma signer_address_fresh lowercase w a :
  address w = Some a -> a <> "" ->
  fst (signer_address lowercase (createDynamicSigner w)) = Ok (lowercase a).
Proof.
  intros Ha Hne. unfold signer_address, resolve_address. simpl.
  rewrite Ha. simpl.
  destruct (String.eqb_spec a ""); [contradiction|reflexivity].
Qed.

(** [address()] is stable: a second call gives the first call's answer. *)
Lemma signer_address_stable s my s' :
  signer_address toLowerCase s = (Ok my, s') ->
  signer_address toLowerCase s' = (Ok my, s').
Proof.
  unfold signer_address, resolve_address.
  destruct (cachedAddress s) as [a|] eqn:Hc.
  - destruct (nonempty (Some a)) eqn:Hn.
    + intros [= <- <-]. now rewrite Hc, Hn.
    + destruct (address (wallet s)) as [w|]; [|discriminate].
      destruct (nonempty (Some w)) eqn:Hw; [|discriminate].
      intros [= <- <-]. simpl.
      destruct (String.eqb_spec (toLowerCase w) ""); [|reflexivity].
      exfalso. simpl in Hw. destruct (String.eqb_spec w ""); [discriminate|].
      now apply (toLowerCase_nonempty w).
  - destruct (address (wallet s)) as [w|]; [|discriminate].
    destruct (nonempty (Some w)) eqn:Hw; [|discriminate].
    intros [= <- <-]. simpl.
    destruct (String.eqb_spec (toLowerCase w) ""); [|reflexivity].
    exfalso. simpl in Hw. destruct (String.eqb_spec w ""); [discriminate|].
    now apply (toLowerCase_nonempty w).
Qed.

End SignerFacts.

(** C8, as the code has it.  Whatever the built-in
    [String.prototype.toLowerCase] does ([lowercase]), for every owner
    string and for a signer whose [address()] is [my],
    [sign(owner, value)] fails with the owner-mismatch error exactly when
    [owner.toLowerCase()] differs from [my]; when it matches, the call
    hands the wallet the text "0x" followed by the hexadecimal digits of
    the bytes and returns the wallet's signature (a failure of the wallet is
    rethrown as a signing error). *)
Theorem sign_checks_lowercased_owner :
  forall (lowercase : string -> string) (s s' : Signer.DynamicSigner)
         (owner my : string) (value : list Byte.byte),
    Signer.signer_address lowercase s = (Ok my, s') ->
    (fst (Signer.sign lowercase s owner value)
       = Throw (Signer.owner_mismatch owner my)
       <-> lowercase owner <> my)
    /\ (lowercase owner = my ->
        fst (Signer.sign lowercase s owner value) =
          match Signer.signMessage (Signer.wallet s)
                  ("0x" +:+ Signer.uint8ArrayToHex value) with
          | Ok signature => Ok signature
          | Throw e => Throw (Error ("Failed to sign with Dynamic wallet: "
                                     +:+ message_of e))
          end).
Proof.
  intros lowercase s s' owner my value Haddr.
  pose proof (signer_address_wallet _ _ _ _ Haddr) as Hw.
  unfold Signer.sign. rewrite Haddr.
  destruct (String.eqb_spec (lowercase owner) my) as [Heq|Hne]; simpl.
  - rewrite Hw. split.
    + split; [|intros H; contradiction].
      destruct (Signer.signMessage _ _); simpl; intros H; [discriminate|].
      unfold Signer.owner_mismatch in H. simpl in H. discriminate.
    + intros _. now destruct (Signer.signMessage _ _).
  - split; [|intros H; contradiction].
    split; [intros _; assumption|reflexivity].
Qed.

Lemma sign_checks_lowercased_owner_witness :
  (fst (Signer.sign Signer.toLowerCase (Signer.createDynamicSigner demo_wallet)
          "0xabd" [Byte.x01])
     = Throw (Signer.owner_mismatch "0xabd" "0xabc")
     <-> Signer.toLowerCase "0xabd" <> "0xabc")
  /\ (Signer.toLowerCase "0xabd" = "0xabc" ->
      fst (Signer.sign Signer.toLowerCase (Signer.createDynamicSigner demo_wallet)
             "0xabd" [Byte.x01]) =
        match Signer.signMessage (Signer.wallet (Signer.createDynamicSigner demo_wallet))
                ("0x" +:+ Signer.uint8ArrayToHex [Byte.x01]) with
        | Ok signature => Ok signature
        | Throw e => Throw (Error ("Failed to sign with Dynamic wallet: "
                                   +:+ message_of e))
        end).
Proof.
  apply (sign_checks_lowercased_owner Signer.toLowerCase
           (Signer.createDynamicSigner demo_wallet)
           {| Signer.wallet := demo_wallet; Signer.cachedAddress := Some "0xabc" |}
           "0xabd" "0xabc" [Byte.x01]).
  reflexivity.
Defined.

(** C8 as stated fails: the owner "0xABC" is not equal to the signer's
    [address()], "0xabc", and yet [sign] does not fail; it returns the
    wallet's signature.  (On these ASCII strings the built-in is
    [Signer.toLowerCase].) *)
Lemma sign_owner_case_counterexample :
  fst (Signer.signer_address Signer.toLowerCase
         (Signer.createDynamicSigner demo_wallet)) = Ok "0xabc"
  /\ "0xABC" <> "0xabc"
  /\ fst (Signer.sign Signer.toLowerCase (Signer.createDynamicSigner demo_wallet)
            "0xABC" [Byte.x01])
     = Ok "signed:0x01".
Proof.
  split; [reflexivity|]. split; [discriminate|reflexivity].
Qed.

(** ** The remote call gateway: [query] and [mutate] *)
Section GatewayFacts.
Import Adapter.

Variable APPLICATION_ID : string.

Ltac run_st :=
  unfold bind, get, ret, throw, modify, await, emit, try_catch in *; simpl in *.

Example query_data_only :
  fst (query "app" "q" None (answering envelope_data) demo_world)
  = Ok (Some (JObj [("room", JNull)])).
Proof. reflexivity. Qed.

Example query_one_error :
  fst (query "app" "q" None (answering envelope_one_error) demo_world)
  = Throw (Error "Room is full").
Proof. reflexivity. Qed.

Example mutate_one_error_no_wait :
  mutate "app" "m" None (answering envelope_one_error) passing_attempts demo_world
  = (Throw (Error "Room is full"),
     log (EAppQuery (application demo_binding)
            {| pl_query := "m"; pl_variables := JObj [] |}) demo_world).
Proof. reflexivity. Qed.

Example mutate_all_attempts_fail :
  fst (mutate "app" "m" None (answering envelope_data) failing_attempts demo_world)
  = Ok (Some (JObj [("room", JNull)])).
Proof. reflexivity. Qed.

(** [connectApplication] writes [appConnection] and the trace only. *)
Lemma resolve_application_frame appId chain_r app_r c w r w' :
  resolve_application appId chain_r app_r c w = (r, w') ->
  connection w' = connection w /\ connectPromise w' = connectPromise w
  /\ localStorage w' = localStorage w /\ recentRooms w' = recentRooms w
  /\ filter (fun e => is_sleep e = true) (trace w')
     = filter (fun e => is_sleep e = true) (trace w).
Proof.
  unfold resolve_application.
  destruct (String.eqb appId ""); run_st.
  - intros [= <- <-]. auto.
  - destruct chain_r; run_st.
    + destruct app_r; run_st; intros [= <- <-]; simpl;
        rewrite !filter_app; simpl; rewrite ?app_nil_r; auto.
    + intros [= <- <-]; simpl. rewrite !filter_app; simpl; rewrite ?app_nil_r; auto.
Qed.

Lemma connectApplication_frame appId chain_r app_r w r w' :
  connectApplication appId chain_r app_r w = (r, w') ->
  connection w' = connection w /\ connectPromise w' = connectPromise w
  /\ localStorage w' = localStorage w /\ recentRooms w' = recentRooms w
  /\ filter (fun e => is_sleep e = true) (trace w')
     = filter (fun e => is_sleep e = true) (trace w).
Proof.
  unfold connectApplication. unfold bind at 1. unfold get. intros H.
  destruct (connection w) as [c|] in H.
  - destruct (appConnection w) as [a|] in H.
    + destruct (cached_for appId (Some a)) in H.
      * injection H as <- <-. auto.
      * eapply resolve_application_frame, H.
    + eapply resolve_application_frame, H.
  - injection H as <- <-. auto.
Qed.

(** [send] writes [appConnection] and the trace only, and never sleeps. *)
Lemma send_frame msg doc vars env w r w1 :
  send APPLICATION_ID msg doc vars env w = (r, w1) ->
  connection w1 = connection w /\ connectPromise w1 = connectPromise w
  /\ localStorage w1 = localStorage w /\ recentRooms w1 = recentRooms w
  /\ filter (fun e => is_sleep e = true) (trace w1)
     = filter (fun e => is_sleep e = true) (trace w).
Proof.
  unfold send. unfold bind at 1. unfold get. intros H.
  destruct (connection w) as [c|] in H; [|injection H as <- <-; auto].
  unfold bind at 1 in H.
  destruct (appConnection w) as [a|] eqn:Ha in H.
  - run_st. rewrite Ha in H. injection H as <- <-. simpl.
    rewrite filter_app. simpl. rewrite app_nil_r. auto.
  - unfold bind at 1 in H.
    destruct (connectApplication _ _ _ w) as [[b|e] w0] eqn:Hb in H.
    + apply connectApplication_frame in Hb as (E1 & E2 & E3 & E4 & E5).
      rewrite <- E1, <- E2, <- E3, <- E4, <- E5.
      run_st. destruct (appConnection w0); injection H as <- <-; simpl;
        rewrite ?filter_app; simpl; rewrite ?app_nil_r; auto.
    + apply connectApplication_frame in Hb as (E1 & E2 & E3 & E4 & E5).
      injection H as <- <-. auto.
Qed.

(** The only difference between the [send] of [query] and that of
    [mutate] is the message of the not-connected error. *)
Lemma send_ok_any_message msg msg' doc vars env w parsed w1 :
  send APPLICATION_ID msg doc vars env w = (Ok parsed, w1) ->
  send APPLICATION_ID msg' doc vars env w = (Ok parsed, w1).
Proof.
  intros H. unfold send in *.
  unfold bind at 1 in H. unfold bind at 1. unfold get in *.
  destruct (connection w) as [c|]; [exact H|discriminate].
Qed.

Lemma send_ok_connected msg doc vars env w parsed w1 :
  send APPLICATION_ID msg doc vars env w = (Ok parsed, w1) ->
  exists c, connection w1 = Some c.
Proof.
  intros H. pose proof (send_frame _ _ _ _ _ _ _ H) as (Hc & _).
  unfold send in H. unfold bind at 1 in H. unfold get in H.
  destruct (connection w) as [c|]; [|discriminate]. eauto.
Qed.

(** [check_errors] on an envelope that is an object. *)
Lemma check_errors_object fallback fields (w : World) :
  check_errors fallback (JObj fields) w =
    match assoc "errors" fields with
    | Some e =>
        if truthy (Some e)
        then (Throw (error_or (opt_prop "message" (index0 e)) fallback), w)
        else (Ok tt, w)
    | None => (Ok tt, w)
    end.
Proof.
  unfold check_errors, field, bind, ret, throw, prop.
  destruct (assoc "errors" fields) as [e|]; [|reflexivity].
  destruct (truthy (Some e)); reflexivity.
Qed.

Lemma log_logs e evs w : log e (logs evs w) = logs (evs ++ [e]) w.
Proof. unfold log, logs. simpl. now rewrite app_assoc. Qed.

Lemma logs_logs evs evs' w : logs evs' (logs evs w) = logs (evs ++ evs') w.
Proof. unfold logs. simpl. now rewrite app_assoc. Qed.

Lemma logs_nil w : logs [] w = w.
Proof. destruct w. unfold logs. simpl. now rewrite app_nil_r. Qed.

Lemma log_as_logs e w : log e w = logs [e] w.
Proof. reflexivity. Qed.

(** One guarded attempt never throws; it leaves [attempt_events]. *)
Lemma guarded_attempt c a w :
  connection w = Some c ->
  try_catch (sync_attempt a) (fun syncError => emit (EWarn syncError)) w
  = (Ok tt, logs (attempt_events c a) w).
Proof.
  intros Hc. unfold sync_attempt, attempt_events. run_st. rewrite Hc.
  destruct (a_chain a) as [[|]|e]; simpl.
  - destruct (a_inbox a) as [[]|e]; simpl; unfold modify;
      rewrite !log_as_logs, !logs_logs; reflexivity.
  - rewrite !log_as_logs, !logs_logs; reflexivity.
  - unfold modify. rewrite !log_as_logs, !logs_logs; reflexivity.
Qed.

(** The events of attempts [i], [i+1], ..., [i+n-1]. *)
Lemma sync_loop_total c attempts n : forall i w,
  connection w = Some c ->
  sync_loop n i attempts w
  = (Ok tt, logs (flat_map (fun k => attempt_events c (attempts k)) (seq i n)) w).
Proof.
  induction n as [|n IH]; intros i w Hc.
  - simpl. unfold ret. now rewrite logs_nil.
  - cbn [sync_loop seq flat_map]. unfold bind at 1.
    rewrite (guarded_attempt c _ _ Hc).
    rewrite IH by exact Hc. now rewrite logs_logs.
Qed.

End GatewayFacts.

Lemma check_errors_world fallback parsed (w : Adapter.World) :
  snd (Adapter.check_errors fallback parsed w) = w.
Proof.
  unfold Adapter.check_errors, Adapter.field, bind, ret, throw.
  destruct parsed as [| | | | |fields]; simpl; try reflexivity.
  destruct (assoc "errors" fields) as [e|]; simpl; [|reflexivity].
  destruct e as [|b|n|s| |]; simpl; try reflexivity.
  - now destruct b.
  - now destruct (n =? 0).
  - now destruct (String.eqb s "").
Qed.

(** The check reads the envelope only. *)
Lemma check_errors_any_world fallback parsed (w w' : Adapter.World) :
  fst (Adapter.check_errors fallback parsed w)
  = fst (Adapter.check_errors fallback parsed w').
Proof.
  unfold Adapter.check_errors, Adapter.field, bind, ret, throw.
  destruct parsed as [| | | | |fields]; simpl; try reflexivity.
  destruct (assoc "errors" fields) as [e|]; simpl; [|reflexivity].
  destruct e as [|b|n|s| |]; simpl; try reflexivity.
  - now destruct b.
  - now destruct (n =? 0).
  - now destruct (String.eqb s "").
Qed.

Lemma field_not_null name parsed (w w' : Adapter.World) fallback :
  fst (Adapter.check_errors fallback parsed w) = Ok tt ->
  Adapter.field name parsed w' = (Ok (prop name parsed), w').
Proof.
  destruct parsed; try reflexivity.
  unfold Adapter.check_errors, Adapter.field, bind, throw. simpl. discriminate.
Qed.

(** What [mutate] returns and leaves in the trace once the error check
    has passed. *)
Lemma mutate_after_check
  (APPLICATION_ID doc : string) (vars : value) (env : Adapter.Remote)
  (attempts : nat -> Adapter.Attempt) (w w1 : Adapter.World) (parsed : json) :
    Adapter.send APPLICATION_ID "Must connect wallet before mutating"
                 doc vars env w = (Ok parsed, w1) ->
    fst (Adapter.check_errors "Mutation failed" parsed w1) = Ok tt ->
    exists c,
      Adapter.connection w1 = Some c
      /\ Adapter.mutate APPLICATION_ID doc vars env attempts w
         = (Ok (prop "data" parsed),
            logs (attempt_events c (attempts 0%nat)
                  ++ attempt_events c (attempts 1%nat)
                  ++ attempt_events c (attempts 2%nat)) w1).
Proof.
  intros Hsend Hcheck.
  destruct (send_ok_connected _ _ _ _ _ _ _ _ Hsend) as [c Hc].
  exists c. split; [exact Hc|].
  assert (Hf : forall w', Adapter.field "data" parsed w' = (Ok (prop "data" parsed), w'))
    by (intros w'; exact (field_not_null "data" parsed w1 w' "Mutation failed" Hcheck)).
  unfold Adapter.mutate. unfold bind at 1. rewrite Hsend.
  unfold bind at 1.
  pose proof (check_errors_world "Mutation failed" parsed w1) as Hw.
  destruct (Adapter.check_errors "Mutation failed" parsed w1) as [[[]|e] w2];
    simpl in Hcheck, Hw; [subst w2|discriminate].
  unfold bind at 1. rewrite (sync_loop_total c attempts 3 0 w1 Hc).
  cbn [seq flat_map]. rewrite app_nil_r.
  now rewrite Hf.
Qed.

(** C6.  Once the response of a mutation has passed the error check,
    [mutate] makes three attempts, each a 1000 ms sleep followed by a chain
    resynchronisation request (and, when that gives a chain with a
    [processInbox], a request to process the inbox); what an attempt throws
    is only logged; and whatever the attempts' outcomes, [mutate] returns
    the [data] of the response. *)
Theorem mutate_confirmation_best_effort :
  forall (APPLICATION_ID doc : string) (vars : value) (env : Adapter.Remote)
         (attempts : nat -> Adapter.Attempt) (w w1 : Adapter.World) (parsed : json),
    Adapter.send APPLICATION_ID "Must connect wallet before mutating"
                 doc vars env w = (Ok parsed, w1) ->
    fst (Adapter.check_errors "Mutation failed" parsed w1) = Ok tt ->
    exists c,
      Adapter.connection w1 = Some c
      /\ Adapter.mutate APPLICATION_ID doc vars env attempts w
         = (Ok (prop "data" parsed),
            logs (attempt_events c (attempts 0%nat)
                  ++ attempt_events c (attempts 1%nat)
                  ++ attempt_events c (attempts 2%nat)) w1)
      /\ forall i, exists rest,
           attempt_events c (attempts i)
           = Adapter.ESleep 1000
             :: Adapter.EChain (Adapter.client c) (Adapter.chainId c) :: rest.
Proof.
  intros APP doc vars env attempts w w1 parsed Hsend Hcheck.
  destruct (mutate_after_check APP doc vars env attempts
              w w1 parsed Hsend Hcheck) as (c & Hc & Hm).
  exists c. split; [exact Hc|]. split; [exact Hm|].
  intros i. unfold attempt_events. simpl. eauto.
Qed.

Lemma mutate_confirmation_best_effort_witness :
  Adapter.send "app" "Must connect wallet before mutating" "m" None
               (answering envelope_data) demo_world
  = (Ok envelope_data,
     Adapter.log (Adapter.EAppQuery (Adapter.application demo_binding)
                    {| Adapter.pl_query := "m"; Adapter.pl_variables := JObj [] |})
                 demo_world)
  /\ exists c,
      Adapter.connection
        (Adapter.log (Adapter.EAppQuery (Adapter.application demo_binding)
                        {| Adapter.pl_query := "m"; Adapter.pl_variables := JObj [] |})
                     demo_world) = Some c
      /\ Adapter.mutate "app" "m" None (answering envelope_data) failing_attempts demo_world
         = (Ok (prop "data" envelope_data),
            logs (attempt_events c (failing_attempts 0%nat)
                  ++ attempt_events c (failing_attempts 1%nat)
                  ++ attempt_events c (failing_attempts 2%nat))
                 (Adapter.log (Adapter.EAppQuery (Adapter.application demo_binding)
                                 {| Adapter.pl_query := "m"; Adapter.pl_variables := JObj [] |})
                              demo_world))
      /\ forall i, exists rest,
           attempt_events c (failing_attempts i)
           = Adapter.ESleep 1000
             :: Adapter.EChain (Adapter.client c) (Adapter.chainId c) :: rest.
Proof.
  split; [reflexivity|].
  apply (mutate_confirmation_best_effort "app" "m" None (answering envelope_data)
           failing_attempts demo_world _ envelope_data); reflexivity.
Defined.

Lemma error_or_first_message ffields rest msg fallback :
  assoc "message" ffields = Some (JStr msg) -> msg <> "" ->
  error_or (opt_prop "message" (index0 (JArr (JObj ffields :: rest)))) fallback
  = Error msg.
Proof.
  intros Hm Hne. unfold error_or. simpl. rewrite Hm. simpl.
  destruct (String.eqb_spec msg ""); [contradiction|reflexivity].
Qed.

(** C2, as the code has it.  Let the parsed response be an object.  When
    its [errors] field is truthy, which every array is, the empty one
    included, [query] and [mutate] reject with an [Error] made from the
    first error's [message], or from the fallback text when there is no
    such message, and [mutate] stops there: no sleep is added to the trace.
    When [errors] is absent (or falsy), both return the [data] field. *)
Theorem errors_field_rejects :
  forall (APPLICATION_ID doc : string) (vars : value) (env : Adapter.Remote)
         (attempts : nat -> Adapter.Attempt) (w w1 : Adapter.World)
         (fields : list (string * json)),
    Adapter.send APPLICATION_ID "Must connect wallet before querying"
                 doc vars env w = (Ok (JObj fields), w1) ->
    (forall e, assoc "errors" fields = Some e -> truthy (Some e) = true ->
       Adapter.query APPLICATION_ID doc vars env w
       = (Throw (error_or (opt_prop "message" (index0 e)) "Query failed"), w1)
       /\ Adapter.mutate APPLICATION_ID doc vars env attempts w
          = (Throw (error_or (opt_prop "message" (index0 e)) "Mutation failed"), w1)
       /\ sleeps w1 = sleeps w)
    /\ (forall ffields rest msg,
          assoc "errors" fields = Some (JArr (JObj ffields :: rest)) ->
          assoc "message" ffields = Some (JStr msg) -> msg <> "" ->
          Adapter.query APPLICATION_ID doc vars env w = (Throw (Error msg), w1)
          /\ Adapter.mutate APPLICATION_ID doc vars env attempts w
             = (Throw (Error msg), w1))
    /\ (assoc "errors" fields = Some (JArr []) ->
          Adapter.query APPLICATION_ID doc vars env w
          = (Throw (Error "Query failed"), w1)
          /\ Adapter.mutate APPLICATION_ID doc vars env attempts w
             = (Throw (Error "Mutation failed"), w1))
    /\ (truthy (assoc "errors" fields) = false ->
          Adapter.query APPLICATION_ID doc vars env w = (Ok (assoc "data" fields), w1)
          /\ fst (Adapter.mutate APPLICATION_ID doc vars env attempts w)
             = Ok (assoc "data" fields)).
Proof.
  intros APP doc vars env attempts w w1 fields Hsend.
  pose proof (send_ok_any_message APP _ "Must connect wallet before mutating"
                _ _ _ _ _ _ Hsend) as Hsend'.
  assert (Hgen : forall e, assoc "errors" fields = Some e -> truthy (Some e) = true ->
       Adapter.query APP doc vars env w
       = (Throw (error_or (opt_prop "message" (index0 e)) "Query failed"), w1)
       /\ Adapter.mutate APP doc vars env attempts w
          = (Throw (error_or (opt_prop "message" (index0 e)) "Mutation failed"), w1)
       /\ sleeps w1 = sleeps w).
  { intros e He Ht. split; [|split].
    - unfold Adapter.query. unfold bind at 1. rewrite Hsend.
      unfold bind at 1. cbn [Adapter.field ret].
      unfold bind at 1. rewrite check_errors_object, He, Ht. reflexivity.
    - unfold Adapter.mutate. unfold bind at 1. rewrite Hsend'.
      unfold bind at 1. rewrite check_errors_object, He, Ht. reflexivity.
    - unfold sleeps. now destruct (send_frame _ _ _ _ _ _ _ _ Hsend) as (_ & _ & _ & _ & ->). }
  split; [exact Hgen|]. split; [|split].
  - intros ffields rest msg He Hm Hne.
    destruct (Hgen _ He eq_refl) as (Hq & Hmu & _).
    rewrite Hq, Hmu, !(error_or_first_message _ _ _ _ Hm Hne). auto.
  - intros He. destruct (Hgen _ He eq_refl) as (Hq & Hmu & _).
    rewrite Hq, Hmu. auto.
  - intros Hf. split.
    + unfold Adapter.query. unfold bind at 1. rewrite Hsend.
      unfold bind at 1. cbn [Adapter.field ret].
      unfold bind at 1. rewrite check_errors_object.
      destruct (assoc "errors" fields) as [e|]; [rewrite Hf|]; reflexivity.
    + assert (Hcheck : fst (Adapter.check_errors "Mutation failed" (JObj fields) w1) = Ok tt).
      { rewrite check_errors_object.
        destruct (assoc "errors" fields) as [e|]; [rewrite Hf|]; reflexivity. }
      destruct (mutate_after_check APP doc vars env attempts
                  w w1 (JObj fields) Hsend' Hcheck) as (c & _ & -> ).
      reflexivity.
Qed.

Lemma errors_field_rejects_witness :
  Adapter.send "app" "Must connect wallet before querying" "q" None
               (answering envelope_one_error) demo_world
  = (Ok envelope_one_error,
     Adapter.log (Adapter.EAppQuery (Adapter.application demo_binding)
                    {| Adapter.pl_query := "q"; Adapter.pl_variables := JObj [] |})
                 demo_world)
  /\ Adapter.query "app" "q" None (answering envelope_one_error) demo_world
     = (Throw (Error "Room is full"),
        Adapter.log (Adapter.EAppQuery (Adapter.application demo_binding)
                       {| Adapter.pl_query := "q"; Adapter.pl_variables := JObj [] |})
                    demo_world).
Proof.
  split; [reflexivity|].
  destruct (errors_field_rejects "app" "q" None (answering envelope_one_error)
              passing_attempts demo_world _ _ eq_refl) as (_ & H & _).
  apply (H [("message", JStr "Room is full")] [] "Room is full");
    [reflexivity|reflexivity|discriminate].
Defined.

(** C2 as stated fails on an empty [errors] array: the envelope has a
    [data] field and an empty [errors], and [query] and [mutate] reject
    instead of returning the data. *)
Lemma empty_errors_counterexample :
  prop "errors" envelope_empty_errors = Some (JArr [])
  /\ prop "data" envelope_empty_errors = Some (JObj [("room", JNull)])
  /\ fst (Adapter.query "app" "q" None (answering envelope_empty_errors) demo_world)
     = Throw (Error "Query failed")
  /\ fst (Adapter.mutate "app" "m" None (answering envelope_empty_errors)
            passing_attempts demo_world)
     = Throw (Error "Mutation failed").
Proof. repeat split. Qed.

(** ** The session manager: [connect] and [disconnect] *)
Section SessionFacts.
Import Adapter.

Example connect_alone_succeeds :
  calls (connect_alone Signer.toLowerCase demo_wallet "https://faucet" good_script initial)
  = [Done (Ok {| isConnected := true; st_chainId := Some "chain-1";
                 st_userAddress := Some "0xabc";
                 st_autoSignerAddress := Some "0xsigner" |})].
Proof. reflexivity. Qed.

Example connect_alone_claims_once :
  claims (world (connect_alone Signer.toLowerCase demo_wallet "https://faucet" good_script initial)) = 1%nat.
Proof. reflexivity. Qed.

Lemma disconnect_connection w : connection (disconnect w) = None.
Proof. reflexivity. Qed.

Lemma disconnect_appConnection w : appConnection (disconnect w) = None.
Proof. reflexivity. Qed.

(** What [disconnect] leaves in [localStorage]. *)
Lemma disconnect_lookup w k :
  localStorage (disconnect w) !! k =
    if bool_decide (k = "chaincycles_chain_id") then None
    else if bool_decide (k = "chaincycles_user_address") then None
    else if mnemonic_key k then None
    else localStorage w !! k.
Proof.
  unfold disconnect, drop_mnemonics. simpl.
  repeat case_bool_decide; subst.
  - apply map_lookup_filter_None. left.
    rewrite lookup_delete_ne by discriminate. apply lookup_delete_eq.
  - apply map_lookup_filter_None. left. apply lookup_delete_eq.
  - destruct (mnemonic_key k) eqn:Hk.
    + apply map_lookup_filter_None. right. intros x _. simpl. congruence.
    + destruct (localStorage w !! k) as [v|] eqn:Hv.
      * apply map_lookup_filter_Some. split; [|exact Hk].
        now rewrite !lookup_delete_ne by congruence.
      * apply map_lookup_filter_None. left.
        now rewrite !lookup_delete_ne by congruence.
Qed.

End SessionFacts.

(** C3: the code at the failing input.  After a successful [connect] and
    a [disconnect], the connection and the application binding are null
    and the partition id and the user address are gone from
    [localStorage], but the entry ['chaincycles_auto_signer'] that
    [performConnect] wrote is still there. *)
Theorem disconnect_leaves_auto_signer :
  forall (t : Adapter.Task) (wallet : nat) (autoSigner chain : string)
         (w : Adapter.World),
    let w1 := snd (Adapter.connect_done t wallet autoSigner chain w) in
    let w2 := Adapter.disconnect w1 in
    Adapter.localStorage w1 !! "chaincycles_chain_id" = Some chain
    /\ Adapter.localStorage w1 !! "chaincycles_user_address"
       = Some (Adapter.t_userAddress t)
    /\ Adapter.localStorage w1 !! "chaincycles_auto_signer" = Some autoSigner
    /\ Adapter.connection w2 = None
    /\ Adapter.appConnection w2 = None
    /\ Adapter.localStorage w2 !! "chaincycles_chain_id" = None
    /\ Adapter.localStorage w2 !! "chaincycles_user_address" = None
    /\ Adapter.localStorage w2 !! "chaincycles_auto_signer" = Some autoSigner.
Proof.
  intros t wallet autoSigner chain w w1 w2. subst w2.
  rewrite !disconnect_lookup. subst w1. simpl.
  repeat split.
  - rewrite !lookup_insert_ne by discriminate. apply lookup_insert_eq.
  - rewrite lookup_insert_ne by discriminate. apply lookup_insert_eq.
  - apply lookup_insert_eq.
  - apply lookup_insert_eq.
Qed.

Example disconnect_after_connect :
  let s := Adapter.connect_alone Signer.toLowerCase demo_wallet "https://faucet" good_script Adapter.initial in
  Adapter.localStorage (Adapter.disconnect (Adapter.world s)) !! "chaincycles_auto_signer"
  = Some "0xsigner".
Proof.
  intros s. rewrite disconnect_lookup. simpl.
  apply lookup_insert_eq.
Qed.

(** ** The application binding across a re-connect *)
Section BindingFacts.
Import Adapter.

Variable APPLICATION_ID : string.

(** [performConnect] never writes [appConnection]. *)
Lemma perform_step_appConnection t w :
  appConnection (snd (perform_step t w)) = appConnection w.
Proof.
  unfold perform_step, connect_failed, connect_done.
  destruct (t_pc t); simpl;
    repeat match goal with
           | |- context [match ?x with _ => _ end] => destruct x; simpl
           end; reflexivity.
Qed.

(** No turn of the event loop spent on [connect] writes it either. *)
Lemma step_appConnection s ev :
  appConnection (world (step Signer.toLowerCase s ev)) = appConnection (world s).
Proof.
  destruct ev as [wallet url script|p|k]; simpl.
  - unfold connect_call.
    destruct (Signer.toLowerCase <$> Signer.address wallet) as [u|]; [|reflexivity].
    destruct (negb (Signer.nonempty (Some u))); [reflexivity|].
    destruct (same_address (world s) u); [reflexivity|].
    destruct (connectPromise (world s)); reflexivity.
  - unfold advance. destruct (promises s !! p) as [[t| |]|]; try reflexivity.
    pose proof (perform_step_appConnection t (world s)) as H.
    destruct (perform_step t (world s)) as [q w']. exact H.
  - unfold resume. destruct (calls s !! k) as [[own p|]|]; try reflexivity.
    destruct (promises s !! p) as [[| |]|]; try reflexivity;
      destruct own; reflexivity.
Qed.

Lemma run_appConnection evs : forall s,
  appConnection (world (run Signer.toLowerCase s evs)) = appConnection (world s).
Proof.
  induction evs as [|ev evs IH]; intros s; [reflexivity|].
  unfold run in *. simpl. rewrite IH. apply step_appConnection.
Qed.

(** [connectApplication] with the cached id returns the cache. *)
Lemma connectApplication_cached a c chain_r app_r w :
  connection w = Some c -> appConnection w = Some a ->
  connectApplication (applicationId a) chain_r app_r w = (Ok a, w).
Proof.
  intros Hc Ha. unfold connectApplication, bind, get. rewrite Hc, Ha.
  unfold cached_for. now rewrite String.eqb_refl.
Qed.

(** With a binding in the cache, [send] asks the cached handle. *)
Lemma send_cached msg doc vars env c a w :
  connection w = Some c -> appConnection w = Some a ->
  send APPLICATION_ID msg doc vars env w
  = (parse_reply (r_reply env),
     log (EAppQuery (application a)
            {| pl_query := doc; pl_variables := variables_or_empty vars |}) w).
Proof.
  intros Hc Ha. unfold send, bind, get, ret, emit, modify, await.
  rewrite Hc, Ha. simpl. now rewrite Ha.
Qed.

End BindingFacts.

Lemma field_world name parsed (w : Adapter.World) :
  snd (Adapter.field name parsed w) = w.
Proof. now destruct parsed. Qed.

(** After its [send], [query] leaves the world alone. *)
Lemma query_after_send APPLICATION_ID doc vars env (w w1 : Adapter.World) r :
  Adapter.send APPLICATION_ID "Must connect wallet before querying" doc vars env w
  = (r, w1) ->
  snd (Adapter.query APPLICATION_ID doc vars env w) = w1.
Proof.
  intros H. unfold Adapter.query. unfold bind at 1. rewrite H.
  destruct r as [parsed|e]; [|reflexivity].
  unfold bind.
  pose proof (field_world "data" parsed w1) as H1.
  destruct (Adapter.field "data" parsed w1) as [[v|e] w2]; simpl in H1; subst w2;
    [|reflexivity].
  pose proof (check_errors_world "Query failed" parsed w1) as H2.
  destruct (Adapter.check_errors "Query failed" parsed w1) as [[[]|e] w2];
    simpl in H2; subst w2; [|reflexivity].
  apply field_world.
Qed.



(** ** Single flight of [connect] *)
Section SingleFlight.
Import Adapter.

Variable lowercase : string -> string.
Variable w0 : World.
Local Abbreviation c0 := (connection w0).
Local Abbreviation n0 := (claims w0).

Example two_calls_one_claim :
  let s := run Signer.toLowerCase (boot initial)
               [Call demo_wallet "f" good_script; Call other_wallet "f" good_script;
                Advance 0; Advance 0; Advance 0; Advance 0; Advance 0; Advance 0;
                Resume 1; Resume 0] in
  claims (world s) = 1%nat
  /\ calls s = [Done (Ok {| isConnected := true; st_chainId := Some "chain-1";
                            st_userAddress := Some "0xabc";
                            st_autoSignerAddress := Some "0xsigner" |});
                Done (Ok {| isConnected := true; st_chainId := Some "chain-1";
                            st_userAddress := Some "0xabc";
                            st_autoSignerAddress := Some "0xsigner" |})]
  /\ connectPromise (world s) = None.
Proof. repeat split. Qed.

Lemma getState_connected w c : connection w = Some c -> getState w = conn_state c.
Proof. intros H. unfold getState, conn_state. rewrite H. reflexivity. Qed.

Lemma claims_log e w :
  claims (log e w) = (claims w + (if is_claim e then 1 else 0))%nat.
Proof.
  unfold claims, log. simpl. rewrite filter_app, length_app. f_equal.
  destruct (is_claim e) eqn:He.
  - rewrite filter_cons_True by exact He. reflexivity.
  - rewrite filter_cons_False by congruence. reflexivity.
Qed.

Lemma claims_set_connection c w : claims (set_connection c w) = claims w.
Proof. reflexivity. Qed.

Lemma claims_set_connectPromise p w : claims (set_connectPromise p w) = claims w.
Proof. reflexivity. Qed.

(** One continuation of the attempt keeps the world in step with its promise. *)
Lemma perform_step_world_ok t w :
  world_ok c0 n0 (Pending t) w ->
  world_ok c0 n0 (fst (perform_step t w)) (snd (perform_step t w))
  /\ connectPromise (snd (perform_step t w)) = connectPromise w.
Proof.
  intros [Hc Hn]. unfold perform_step, connect_failed, connect_done.
  destruct (t_pc t) eqn:Hpc; simpl in Hn;
    repeat match goal with
           | |- context [match ?x with _ => _ end] => destruct x
           end;
    simpl; rewrite ?claims_log; simpl;
    unfold claims in *; simpl; repeat split; auto; lia.
Qed.

Lemma joiner_ok_pending_step t q c :
  joiner_ok (Pending t) c -> joiner_ok q c.
Proof.
  intros [->|(r & Hr & _)]; [now left|discriminate].
Qed.

Lemma owner_ok_pending_step t q w w' c :
  connectPromise w' = connectPromise w ->
  owner_ok (Pending t) w c -> owner_ok q w' c.
Proof.
  intros Hp [[-> H]|(r & Hr & _)]; [left; split; congruence|discriminate].
Qed.

(** A new [connect] call, from a wallet with an address that is not the
    one of the session there was at the start. *)
Lemma connect_call_preserves wallet url script s :
  newcomer lowercase w0 wallet = true ->
  single_flight c0 n0 s -> still_memoized s ->
  single_flight c0 n0 (connect_call lowercase wallet url script s)
  /\ still_memoized (connect_call lowercase wallet url script s).
Proof.
  intros Hnew Hinv Hmem. unfold connect_call. unfold newcomer in Hnew.
  destruct (Signer.address wallet) as [a|] eqn:Ha; [|discriminate].
  apply andb_true_iff in Hnew as [Hlow Hother].
  apply negb_true_iff in Hother.
  cbn [fmap option_fmap option_map].
  rewrite Hlow. cbn [negb].
  assert (Hstart : forall w, connection w = c0 ->
                     same_address w (lowercase a) = false).
  { intros w Hw. unfold same_address in *. now rewrite Hw. }
  destruct Hinv as [(Hp & Hcs & Hc & Hm & Hn)|(q & first & rest & Hp & Hcs & Ho & Hj & Hw)].
  - rewrite (Hstart _ Hc), Hm, Hp, Hcs. simpl. split.
    + right. eexists _, _, _. repeat split; try reflexivity.
      * left. split; reflexivity.
      * constructor.
      * simpl. exact Hc.
      * simpl. unfold claims in *. simpl. lia.
    + intros _. reflexivity.
  - assert (Hmem' : connectPromise (world s) = Some 0%nat)
      by (apply Hmem; rewrite Hp; discriminate).
    destruct (same_address (world s) (lowercase a)) eqn:Hsame.
    + split; [|intros _; exact Hmem'].
      right. exists q, first, (rest ++ [Done (Ok (getState (world s)))]).
      rewrite Hcs. repeat split; auto.
      apply Forall_app. split; [exact Hj|]. constructor; [|constructor].
      right.
      assert (Hnot : connection (world s) <> c0).
      { intros Hw1. rewrite (Hstart _ Hw1) in Hsame. discriminate. }
      unfold same_address in Hsame.
      destruct (connection (world s)) as [c|] eqn:Hc; [|discriminate].
      destruct q as [t|c'|e]; simpl in Hw; destruct Hw as [Hw1 Hw2];
        [exfalso; apply Hnot; congruence| |congruence].
      assert (c' = c) by congruence. subst c'.
      exists (Ok (conn_state c)). split; [reflexivity|].
      now rewrite (getState_connected _ _ Hc).
    + rewrite Hmem'. split; [|intros _; exact Hmem'].
      right. exists q, first, (rest ++ [Waiting false 0]).
      rewrite Hcs. repeat split; auto.
      apply Forall_app. split; [exact Hj|]. constructor; [now left|constructor].
Qed.

(** A continuation of the attempt. *)
Lemma advance_preserves p s :
  single_flight c0 n0 s ->
  single_flight c0 n0 (advance p s)
  /\ (still_memoized s -> still_memoized (advance p s)).
Proof.
  intros Hinv. unfold advance.
  destruct (promises s !! p) as [[t| |]|] eqn:Hlook; try (split; auto; fail).
  destruct Hinv as [(Hp & _)|(q & first & rest & Hp & Hcs & Ho & Hj & Hw)].
  - rewrite Hp in Hlook. discriminate.
  - rewrite Hp in Hlook. destruct p as [|p]; [|discriminate].
    simpl in Hlook. injection Hlook as ->.
    destruct (perform_step_world_ok t (world s) Hw) as [Hw' Hcp].
    destruct (perform_step t (world s)) as [q' w'] eqn:Hstep. simpl in Hw', Hcp.
    split.
    + right. exists q', first, rest. rewrite Hp. simpl. repeat split; auto.
      * eapply owner_ok_pending_step; eauto.
      * eapply Forall_impl; [exact Hj|]. intros c. apply joiner_ok_pending_step.
    + intros Hmem _. simpl. rewrite Hcp. apply Hmem. rewrite Hp. discriminate.
Qed.

Lemma world_ok_set_connectPromise q o w :
  world_ok c0 n0 q w -> world_ok c0 n0 q (set_connectPromise o w).
Proof. destruct q; simpl; auto. Qed.

Lemma world_ok_outcome q w r :
  world_ok c0 n0 q w -> outcome q = Some r ->
  match q with
  | Fulfilled _ => r = Ok (getState w)
  | Rejected e => r = Throw e
  | Pending _ => False
  end.
Proof.
  destruct q as [t|c|e]; simpl; intros Hw [= <-]; auto.
  destruct Hw as [Hc _]. now rewrite (getState_connected _ _ Hc).
Qed.

(** The continuation of a suspended call. *)
Lemma resume_preserves k s :
  single_flight c0 n0 s -> single_flight c0 n0 (resume k s).
Proof.
  intros Hinv. unfold resume.
  destruct (calls s !! k) as [[own p|]|] eqn:Hk; try exact Hinv.
  destruct Hinv as [(Hp & Hcs & _)|(q & first & rest & Hp & Hcs & Ho & Hj & Hw)].
  - rewrite Hcs in Hk. discriminate.
  - assert (Hp0 : p = 0%nat /\ (k = 0%nat /\ own = true /\ first = Waiting true 0
                                 \/ exists k', k = S k' /\ own = false
                                               /\ rest !! k' = Some (Waiting false 0))).
    { rewrite Hcs in Hk. destruct k as [|k']; simpl in Hk.
      - injection Hk as ->.
        destruct Ho as [[[= -> ->] _]|(r & _ & Hd & _)]; [|discriminate].
        split; [reflexivity|]. left. auto.
      - pose proof (Forall_lookup_1 _ _ _ _ Hj Hk) as [[= -> ->]|(r & _ & Hd)];
          [|discriminate].
        split; [reflexivity|]. right. eauto. }
    destruct Hp0 as [-> Hwho]. rewrite Hp. simpl.
    destruct q as [t|c|e]; [right; exists (Pending t), first, rest; auto| |].
    + (* fulfilled *)
      destruct Hw as [Hc Hn].
      destruct Hwho as [(-> & -> & ->)|(k' & -> & -> & Hk')].
      * right. exists (Fulfilled c), (Done (Ok (getState (world s)))), rest.
        rewrite Hcs. simpl. repeat split; auto.
        right. exists (Ok (conn_state c)). rewrite (getState_connected _ _ Hc). auto.
      * right. exists (Fulfilled c), first,
          (<[k' := Done (Ok (getState (world s)))]> rest).
        rewrite Hcs. simpl. repeat split; auto.
        apply Forall_insert; [exact Hj|].
        right. exists (Ok (conn_state c)). rewrite (getState_connected _ _ Hc). auto.
    + (* rejected *)
      destruct Hw as [Hc Hn].
      destruct Hwho as [(-> & -> & ->)|(k' & -> & -> & Hk')].
      * right. exists (Rejected e), (Done (Throw e)), rest.
        rewrite Hcs. simpl. repeat split; auto.
        right. exists (Throw e). auto.
      * right. exists (Rejected e), first, (<[k' := Done (Throw e)]> rest).
        rewrite Hcs. simpl. repeat split; auto.
        apply Forall_insert; [exact Hj|].
        right. exists (Throw e). auto.
Qed.

Lemma step_issuing_preserves ev s :
  issuing lowercase w0 ev = true ->
  single_flight c0 n0 s /\ still_memoized s ->
  single_flight c0 n0 (step lowercase s ev) /\ still_memoized (step lowercase s ev).
Proof.
  intros Hev [Hinv Hmem]. destruct ev as [wallet url script|p|k]; simpl in *.
  - now apply connect_call_preserves.
  - destruct (advance_preserves p s Hinv) as [H1 H2]. auto.
  - discriminate.
Qed.

Lemma step_settling_preserves ev s :
  settling ev = true -> single_flight c0 n0 s -> single_flight c0 n0 (step lowercase s ev).
Proof.
  intros Hev Hinv. destruct ev as [wallet url script|p|k]; simpl in *.
  - discriminate.
  - now apply advance_preserves.
  - now apply resume_preserves.
Qed.

Lemma run_issuing_preserves evs : forall s,
  Forall (fun ev => issuing lowercase w0 ev = true) evs ->
  single_flight c0 n0 s /\ still_memoized s ->
  single_flight c0 n0 (run lowercase s evs) /\ still_memoized (run lowercase s evs).
Proof.
  induction evs as [|ev evs IH]; intros s Hevs Hs; [exact Hs|].
  inversion Hevs as [|? ? Hev Hrest]; subst.
  unfold run in *. simpl. apply IH; [exact Hrest|].
  now apply step_issuing_preserves.
Qed.

Lemma run_settling_preserves evs : forall s,
  Forall (fun ev => settling ev = true) evs ->
  single_flight c0 n0 s -> single_flight c0 n0 (run lowercase s evs).
Proof.
  induction evs as [|ev evs IH]; intros s Hevs Hs; [exact Hs|].
  inversion Hevs as [|? ? Hev Hrest]; subst.
  unfold run in *. simpl. apply IH; [exact Hrest|].
  now apply step_settling_preserves.
Qed.

Lemma run_app s evs evs' : run lowercase s (evs ++ evs') = run lowercase (run lowercase s evs) evs'.
Proof. unfold run. apply fold_left_app. Qed.

(** Every settled call carries the outcome of the one promise. *)
Lemma settled_calls_agree s i r :
  single_flight c0 n0 s -> calls s !! i = Some (Done r) ->
  exists q, promises s = [q] /\ outcome q = Some r /\ world_ok c0 n0 q (world s).
Proof.
  intros [(Hp & Hcs & _)|(q & first & rest & Hp & Hcs & Ho & Hj & Hw)] Hi.
  - rewrite Hcs in Hi. discriminate.
  - exists q. split; [exact Hp|]. split; [|exact Hw].
    rewrite Hcs in Hi. destruct i as [|i]; simpl in Hi.
    + injection Hi as ->. destruct Ho as [[[=] _]|(r' & Hr' & [= ->] & _)]. exact Hr'.
    + pose proof (Forall_lookup_1 _ _ _ _ Hj Hi) as [[=]|(r' & Hr' & [= ->])].
      exact Hr'.
Qed.

(** Every continuation of the attempt brings it closer to its end. *)
Lemma perform_step_progress t w :
  match fst (perform_step t w) with
  | Pending t' => (steps_left (t_pc t') < steps_left (t_pc t))%nat
  | _ => True
  end.
Proof.
  destruct t as [p url user [l wl sg cl so cc ch]].
  unfold perform_step, connect_failed, connect_done.
  destruct p; cbn [t_pc t_script s_load s_wallet s_signer s_claim s_setOwner
                   s_client s_chain].
  - destruct l; cbn; auto.
  - destruct wl; [destruct sg|]; cbn; auto.
  - destruct cl; cbn; auto.
  - destruct so; cbn; auto.
  - destruct cc; cbn; auto.
  - destruct ch; cbn; auto.
Qed.

Lemma run_advances_settled n : forall s q,
  promises s = [q] -> is_Some (outcome q) ->
  promises (run lowercase s (replicate n (Advance 0))) = [q].
Proof.
  induction n as [|n IH]; intros s q Hp Hq; [exact Hp|].
  cbn [replicate]. unfold run in *. cbn [fold_left]. apply IH; [|exact Hq].
  unfold step, advance. rewrite Hp. cbn.
  destruct q; [destruct Hq; discriminate| |]; exact Hp.
Qed.

(** Six continuations settle any attempt. *)
Lemma attempt_settles n : forall s t,
  promises s = [Pending t] -> (steps_left (t_pc t) <= n)%nat ->
  exists q, promises (run lowercase s (replicate n (Advance 0))) = [q] /\ is_Some (outcome q).
Proof.
  induction n as [|n IH]; intros s t Hp Hn.
  - destruct (t_pc t); simpl in Hn; lia.
  - cbn [replicate]. unfold run in *. cbn [fold_left].
    pose proof (perform_step_progress t (world s)) as Hprog.
    assert (Hadv : promises (step lowercase s (Advance 0)) = [fst (perform_step t (world s))]).
    { unfold step, advance. rewrite Hp. cbn.
      now destruct (perform_step t (world s)). }
    destruct (fst (perform_step t (world s))) as [t'|c|e] eqn:Hq.
    + apply (IH _ t' Hadv). lia.
    + exists (Fulfilled c). split; [|eexists; reflexivity].
      apply (run_advances_settled n _ _ Hadv). eexists; reflexivity.
    + exists (Rejected e). split; [|eexists; reflexivity].
      apply (run_advances_settled n _ _ Hadv). eexists; reflexivity.
Qed.

End SingleFlight.

(** C1, as the code has it.  On an adapter with no attempt in flight,
    with or without a session, let any number of [connect] calls, each
    from a wallet with an address that is not the one of that session
    (the two tests [connect] makes on the lowercased address, whatever
    the built-in [String.prototype.toLowerCase] does), be issued before
    any of them is resumed, the attempt advancing in between at any pace;
    then let the attempt advance and the calls be resumed in any order.
    At every such point: one attempt at
    most has been started and one partition claim at most has been made;
    all settled calls have settled alike, with the same state or with the
    same error; a call settled with a state means exactly one claim, and
    its state is the adapter's; a call still waiting waits on the one
    promise and, once that is settled, resumes with its outcome; and when
    the call that started the attempt has settled, [connectPromise] is
    null again, so that after a failure the next [connect] starts a new
    attempt; and six continuations at most settle the attempt. *)
Theorem connect_single_flight :
  forall (lowercase : string -> string) (w0 : Adapter.World)
         (issue settle : list Adapter.sched),
    Adapter.connectPromise w0 = None ->
    Forall (fun ev => issuing lowercase w0 ev = true) issue ->
    Forall (fun ev => settling ev = true) settle ->
    let s := Adapter.run lowercase (Adapter.boot w0) (issue ++ settle) in
    (length (Adapter.promises s) <= 1)%nat
    /\ (Adapter.claims (Adapter.world s) <= Adapter.claims w0 + 1)%nat
    /\ (forall i j r r',
          Adapter.calls s !! i = Some (Adapter.Done r) ->
          Adapter.calls s !! j = Some (Adapter.Done r') -> r = r')
    /\ (forall i st,
          Adapter.calls s !! i = Some (Adapter.Done (Ok st)) ->
          Adapter.claims (Adapter.world s) = (Adapter.claims w0 + 1)%nat
          /\ st = Adapter.getState (Adapter.world s)
          /\ Adapter.isConnected st = true)
    /\ (forall i own p,
          Adapter.calls s !! i = Some (Adapter.Waiting own p) ->
          p = 0%nat
          /\ forall q r, Adapter.promises s !! 0%nat = Some q -> outcome q = Some r ->
               Adapter.calls (Adapter.resume i s) !! i = Some (Adapter.Done r))
    /\ (forall r, Adapter.calls s !! 0%nat = Some (Adapter.Done r) ->
          Adapter.connectPromise (Adapter.world s) = None)
    /\ (forall e wallet faucetUrl script,
          Adapter.calls s !! 0%nat = Some (Adapter.Done (Throw e)) ->
          Signer.nonempty (lowercase <$> Signer.address wallet) = true ->
          exists t, Adapter.promises (Adapter.connect_call lowercase wallet faucetUrl script s)
                    = Adapter.promises s ++ [Adapter.Pending t])
    /\ (Adapter.calls s <> [] ->
        exists q, Adapter.promises
                    (Adapter.run lowercase s (replicate 6 (Adapter.Advance 0))) = [q]
                  /\ is_Some (outcome q)).
Proof.
  intros lowercase w0 issue settle Hp Hissue Hsettle s.
  assert (Hinv : single_flight (Adapter.connection w0) (Adapter.claims w0) s).
  { subst s. rewrite run_app. apply run_settling_preserves; [exact Hsettle|].
    apply run_issuing_preserves; [exact Hissue|]. split.
    - left. simpl. auto.
    - intros H. now contradiction H. }
  clearbody s. split; [|split; [|split; [|split; [|split; [|split; [|split]]]]]].
  - destruct Hinv as [(-> & _)|(q & first & rest & -> & _)]; simpl; lia.
  - destruct Hinv as [(_ & _ & _ & _ & ->)|(q & first & rest & _ & _ & _ & _ & Hw)];
      [lia|].
    destruct q; simpl in Hw; destruct Hw as [_ Hn]; [|lia|lia].
    destruct (Adapter.t_pc t); simpl in Hn; lia.
  - intros i j r r' Hi Hj.
    destruct (settled_calls_agree _ _ _ _ Hinv Hi) as (q & Hq & Hr & _).
    destruct (settled_calls_agree _ _ _ _ Hinv Hj) as (q' & Hq' & Hr' & _).
    congruence.
  - intros i st Hi.
    destruct (settled_calls_agree _ _ _ _ Hinv Hi) as (q & Hq & Hr & Hw).
    destruct q as [t|c|e]; simpl in Hr; try discriminate.
    injection Hr as <-. destruct Hw as [Hcn Hn].
    rewrite (getState_connected _ _ Hcn). auto.
  - intros i own p Hi.
    destruct Hinv as [(_ & Hcs & _)|(q & first & rest & Hq & Hcs & Ho & Hj & Hw)].
    { rewrite Hcs in Hi. discriminate. }
    assert (Hp0 : p = 0%nat).
    { rewrite Hcs in Hi. destruct i as [|i]; simpl in Hi.
      - injection Hi as ->.
        destruct Ho as [[[= _ ->] _]|(r & _ & Hd & _)]; [reflexivity|discriminate].
      - pose proof (Forall_lookup_1 _ _ _ _ Hj Hi) as [[= _ ->]|(r & _ & Hd)];
          [reflexivity|discriminate]. }
    split; [exact Hp0|]. subst p. intros q' r Hq' Hr.
    rewrite Hq in Hq'. injection Hq' as <-.
    pose proof (world_ok_outcome _ _ _ _ Hw Hr) as Hout.
    unfold Adapter.resume. rewrite Hi, Hq. simpl.
    assert (Hlt : (i < length (Adapter.calls s))%nat)
      by (apply lookup_lt_is_Some; eauto).
    destruct q as [t|c|e]; [contradiction| |]; subst r; simpl;
      now rewrite list_lookup_insert_eq.
  - intros r H0.
    destruct Hinv as [(_ & Hcs & _)|(q & first & rest & Hq & Hcs & Ho & Hj & Hw)].
    { rewrite Hcs in H0. discriminate. }
    rewrite Hcs in H0. injection H0 as ->.
    destruct Ho as [[[=] _]|(r' & _ & _ & Hnone)]. exact Hnone.
  - intros e wallet url script H0 Haddr.
    destruct Hinv as [(_ & Hcs & _)|(q & first & rest & Hq & Hcs & Ho & Hj & Hw)].
    { rewrite Hcs in H0. discriminate. }
    rewrite Hcs in H0. injection H0 as ->.
    destruct Ho as [[[=] _]|(r' & Hr' & [= <-] & Hnone)].
    destruct q as [t|c|e']; simpl in Hr'; try discriminate.
    destruct Hw as [Hcn _].
    unfold Adapter.connect_call.
    destruct (Signer.address wallet) as [a|] eqn:Ha; [|discriminate].
    cbn [fmap option_fmap option_map] in Haddr |- *.
    rewrite Haddr. cbn [negb]. unfold Adapter.same_address.
    rewrite Hcn, Hnone. simpl. eauto.
  - intros Hcalls.
    destruct Hinv as [(_ & Hcs & _)|(q & first & rest & Hq & _)];
      [contradiction|].
    destruct q as [t|c|e].
    + apply (attempt_settles lowercase 6 s t Hq). destruct (Adapter.t_pc t); simpl; lia.
    + exists (Adapter.Fulfilled c). split; [|eexists; reflexivity].
      apply (run_advances_settled lowercase 6 s _ Hq). eexists; reflexivity.
    + exists (Adapter.Rejected e). split; [|eexists; reflexivity].
      apply (run_advances_settled lowercase 6 s _ Hq). eexists; reflexivity.
Qed.

Lemma connect_single_flight_witness :
  Adapter.connectPromise demo_world = None
  /\ Forall (fun ev => issuing Signer.toLowerCase demo_world ev = true)
       [Adapter.Call other_wallet "f" good_script; Adapter.Advance 0;
        Adapter.Call other_wallet "f" good_script]
  /\ Forall (fun ev => settling ev = true)
       (replicate 5 (Adapter.Advance 0) ++ [Adapter.Resume 1; Adapter.Resume 0])
  /\ (Adapter.claims
        (Adapter.world
           (Adapter.run Signer.toLowerCase (Adapter.boot demo_world)
              ([Adapter.Call other_wallet "f" good_script; Adapter.Advance 0;
                Adapter.Call other_wallet "f" good_script]
               ++ (replicate 5 (Adapter.Advance 0)
                   ++ [Adapter.Resume 1; Adapter.Resume 0]))))
      <= Adapter.claims demo_world + 1)%nat.
Proof.
  split; [reflexivity|].
  split; [repeat constructor|]. split; [repeat constructor|].
  refine (proj1 (proj2 (connect_single_flight Signer.toLowerCase demo_world
    [Adapter.Call other_wallet "f" good_script; Adapter.Advance 0;
     Adapter.Call other_wallet "f" good_script]
    (replicate 5 (Adapter.Advance 0) ++ [Adapter.Resume 1; Adapter.Resume 0])
    _ _ _))); first [reflexivity | repeat constructor].
Defined.

(** C1 as stated fails when the attempt fails before the claim step: two
    concurrent [connect] calls, the client module does not load; no
    partition claim is made and both calls reject, with the same error. *)
Lemma no_claim_counterexample :
  let s := Adapter.run Signer.toLowerCase (Adapter.boot Adapter.initial)
             [Adapter.Call demo_wallet "f" no_module_script;
              Adapter.Call other_wallet "f" no_module_script;
              Adapter.Advance 0; Adapter.Resume 0; Adapter.Resume 1] in
  Adapter.claims (Adapter.world s) = 0%nat
  /\ Adapter.calls s = [Adapter.Done (Throw (Error "Failed to fetch module"));
                        Adapter.Done (Throw (Error "Failed to fetch module"))].
Proof. split; reflexivity. Qed.

(** With a session already there, a call for the session's own address
    returns at once and does not share the outcome of the attempt that a
    call for another address started. *)
Example existing_session_call_differs :
  let s := Adapter.run Signer.toLowerCase (Adapter.boot demo_world)
             ([Adapter.Call other_wallet "f" (ok_script 8 "0xsigner2" "chain-2");
               Adapter.Call demo_wallet "f" good_script]
              ++ replicate 6 (Adapter.Advance 0) ++ [Adapter.Resume 0]) in
  Adapter.calls s
  = [Adapter.Done (Ok {| Adapter.isConnected := true;
                            Adapter.st_chainId := Some "chain-2";
                            Adapter.st_userAddress := Some "0xdef";
                            Adapter.st_autoSignerAddress := Some "0xsigner2" |});
        Adapter.Done (Ok {| Adapter.isConnected := true;
                            Adapter.st_chainId := Some "chain-1";
                            Adapter.st_userAddress := Some "0xabc";
                            Adapter.st_autoSignerAddress := Some "0xsigner" |})].
Proof. reflexivity. Qed.

(** ** The poll loop *)
Section PollFacts.
Import GameApi.

Example poll_defaults_AAAB :
  let '(p, seen) :=
    poll_run demo_stringify record (2000 # 1) (5000 # 1) 100
             (pollRoomUpdates (2000 # 1) 100, [])
             (feed [room_A; room_A; room_A; room_B]) in
  seen = [room_A; room_B]
  /\ timers p = [2000 # 1; Qmin ((2000 # 1) * (3 # 2)) (5000 # 1);
                 Qmin (Qmin ((2000 # 1) * (3 # 2)) (5000 # 1) * (3 # 2)) (5000 # 1);
                 2000 # 1]
  /\ fetches p = 4%nat.
Proof. repeat split. Qed.

Example poll_defaults_delays :
  Forall2 Qeq
    [2000 # 1; Qmin ((2000 # 1) * (3 # 2)) (5000 # 1);
     Qmin (Qmin ((2000 # 1) * (3 # 2)) (5000 # 1) * (3 # 2)) (5000 # 1); 2000 # 1]
    [2000 # 1; 3000 # 1; 4500 # 1; 2000 # 1].
Proof. repeat constructor. Qed.

(** Two rounds of backoff from the base interval: capping after each
    round is capping once at the end, for intervals that are not negative. *)
Lemma backoff_twice (interval maxInterval : Q) :
  (0 <= interval)%Q -> (0 <= maxInterval)%Q ->
  (Qmin (Qmin (interval * (3 # 2)) maxInterval * (3 # 2)) maxInterval
   == Qmin (interval * (3 # 2) * (3 # 2)) maxInterval)%Q.
Proof.
  intros Hi Hm.
  destruct (Q.min_spec (interval * (3 # 2)) maxInterval) as [[H1 E1]|[H1 E1]];
    rewrite E1.
  - reflexivity.
  - destruct (Q.min_spec (maxInterval * (3 # 2)) maxInterval) as [[H2 E2]|[H2 E2]];
      destruct (Q.min_spec (interval * (3 # 2) * (3 # 2)) maxInterval) as [[H3 E3]|[H3 E3]];
      rewrite E2, E3; try reflexivity; lra.
Qed.

Section Steps.

Context {S : Type}.
Variable stringify : value -> option string.
Variable callback : value -> S -> S.
Variables interval maxInterval : Q.
Variable maxPolls : Z.

Lemma start_continues :
  1 <= maxPolls ->
  pollRoomUpdates interval maxPolls
  = {| currentInterval := interval; lastRoom := None; running := true;
       pollCount := 1; pending := InFlight; timers := []; fetches := 1 |}.
Proof.
  intros H. unfold pollRoomUpdates, poll_head. cbn [running negb pollCount].
  replace (maxPolls <? 0 + 1) with false by (symmetry; apply Z.ltb_ge; lia).
  reflexivity.
Qed.

Lemma tick_continues (p : Poll) (s : S) :
  pending p = Scheduled -> running p = true -> pollCount p + 1 <= maxPolls ->
  poll_step stringify callback interval maxInterval maxPolls (p, s) Tick
  = ({| currentInterval := currentInterval p; lastRoom := lastRoom p;
        running := running p; pollCount := pollCount p + 1;
        pending := InFlight; timers := timers p;
        fetches := Datatypes.S (fetches p) |}, s).
Proof.
  intros Hp Hr Hn. unfold poll_step. cbn [fst snd]. rewrite Hp.
  unfold poll_head. rewrite Hr. cbn [negb].
  replace (maxPolls <? pollCount p + 1) with false by (symmetry; apply Z.ltb_ge; lia).
  reflexivity.
Qed.

Lemma fetched_changed (p : Poll) (s : S) (room : value) :
  pending p = InFlight -> running p = true ->
  Some (stringify room) <> lastRoom p ->
  poll_step stringify callback interval maxInterval maxPolls (p, s) (Fetched (Ok room))
  = ({| currentInterval := interval; lastRoom := Some (stringify room);
        running := true; pollCount := pollCount p;
        pending := Scheduled; timers := timers p ++ [interval];
        fetches := fetches p |}, callback room s).
Proof.
  intros Hp Hr Hne. unfold poll_step. cbn [fst snd]. rewrite Hp.
  unfold poll_tail, compare. rewrite bool_decide_true by exact Hne.
  unfold reschedule. cbn [running]. rewrite Hr. reflexivity.
Qed.

Lemma fetched_unchanged (p : Poll) (s : S) (room : value) :
  pending p = InFlight -> running p = true ->
  Some (stringify room) = lastRoom p ->
  poll_step stringify callback interval maxInterval maxPolls (p, s) (Fetched (Ok room))
  = ({| currentInterval := Qmin (currentInterval p * (3 # 2)) maxInterval;
        lastRoom := lastRoom p;
        running := true; pollCount := pollCount p;
        pending := Scheduled;
        timers := timers p ++ [Qmin (currentInterval p * (3 # 2)) maxInterval];
        fetches := fetches p |}, s).
Proof.
  intros Hp Hr He. unfold poll_step. cbn [fst snd]. rewrite Hp.
  unfold poll_tail, compare. rewrite bool_decide_false by (intros H; now apply H).
  unfold reschedule. cbn [running]. rewrite Hr. reflexivity.
Qed.

End Steps.

(** The trace of the loop over the snapshots [A; A; A; B], before the
    delays are put in closed form. *)
Lemma poll_AAAB_run (stringify : value -> option string)
    (interval maxInterval : Q) (maxPolls : Z) (A B : value) :
  stringify A <> stringify B -> 4 <= maxPolls ->
  poll_run stringify record interval maxInterval maxPolls
           (pollRoomUpdates interval maxPolls, [])
           (feed [A; A; A; B])
  = ({| currentInterval := interval;
        lastRoom := Some (stringify B);
        running := true;
        pollCount := 4;
        pending := Scheduled;
        timers := [interval;
                   Qmin (interval * (3 # 2)) maxInterval;
                   Qmin (Qmin (interval * (3 # 2)) maxInterval * (3 # 2)) maxInterval;
                   interval];
        fetches := 4 |},
     [A; B]).
Proof.
  intros Hne Hmax.
  rewrite start_continues by lia.
  unfold poll_run, feed. cbn [flat_map app fold_left].
  rewrite fetched_changed by (cbn; first [reflexivity | discriminate]).
  rewrite tick_continues by (cbn; first [reflexivity | lia]).
  rewrite fetched_unchanged by (cbn; reflexivity).
  rewrite tick_continues by (cbn; first [reflexivity | lia]).
  rewrite fetched_unchanged by (cbn; reflexivity).
  rewrite tick_continues by (cbn; first [reflexivity | lia]).
  rewrite fetched_changed by (cbn; first [reflexivity | congruence]).
  reflexivity.
Qed.

End PollFacts.

(** C4.  Over the fetched snapshots [A; A; A; B], [A] and [B] having
    different fingerprints, with room for four polls and intervals that are
    not negative: the callback fires exactly twice, on the first [A] and on
    [B]; the delays set after the four fetches are the base interval, the
    base times 1.5 and the base times 1.5 squared, both capped at
    [maxInterval], and the base interval again. *)
Theorem poll_backoff_and_reset :
  forall (stringify : value -> option string) (interval maxInterval : Q)
         (maxPolls : Z) (A B : value),
    stringify A <> stringify B ->
    4 <= maxPolls ->
    (0 <= interval)%Q ->
    (0 <= maxInterval)%Q ->
    let '(p, seen) :=
      GameApi.poll_run stringify record interval maxInterval maxPolls
        (GameApi.pollRoomUpdates interval maxPolls, [])
        (GameApi.feed [A; A; A; B]) in
    seen = [A; B]
    /\ GameApi.fetches p = 4%nat
    /\ Forall2 Qeq (GameApi.timers p)
         [interval;
          Qmin (interval * (3 # 2)) maxInterval;
          Qmin (interval * (3 # 2) * (3 # 2)) maxInterval;
          interval]
    /\ GameApi.pending p = GameApi.Scheduled.
Proof.
  intros stringify interval maxInterval maxPolls A B Hne Hmax Hi Hm.
  rewrite (poll_AAAB_run stringify interval maxInterval maxPolls A B Hne Hmax).
  cbn. repeat split.
  repeat constructor; try reflexivity.
  now apply backoff_twice.
Qed.

Lemma poll_backoff_and_reset_witness :
  demo_stringify room_A <> demo_stringify room_B
  /\ 4 <= 100
  /\ (0 <= 2000 # 1)%Q
  /\ (0 <= 5000 # 1)%Q
  /\ let '(p, seen) :=
       GameApi.poll_run demo_stringify record (2000 # 1) (5000 # 1) 100
         (GameApi.pollRoomUpdates (2000 # 1) 100, [])
         (GameApi.feed [room_A; room_A; room_A; room_B]) in
     seen = [room_A; room_B]
     /\ GameApi.fetches p = 4%nat
     /\ Forall2 Qeq (GameApi.timers p)
          [2000 # 1;
           Qmin ((2000 # 1) * (3 # 2)) (5000 # 1);
           Qmin ((2000 # 1) * (3 # 2) * (3 # 2)) (5000 # 1);
           2000 # 1]
     /\ GameApi.pending p = GameApi.Scheduled.
Proof.
  split; [discriminate|]. split; [lia|].
  split; [discriminate|]. split; [discriminate|].
  apply (poll_backoff_and_reset demo_stringify (2000 # 1) (5000 # 1) 100
           room_A room_B); [discriminate|lia|discriminate|discriminate].
Defined.

Section Cancelled.
Import GameApi.

Context {S : Type}.
Variable stringify : value -> option string.
Variable callback : value -> S -> S.
Variables interval maxInterval : Q.
Variable maxPolls : Z.

Local Abbreviation step := (poll_step stringify callback interval maxInterval maxPolls).
Local Abbreviation run := (poll_run stringify callback interval maxInterval maxPolls).

(** One turn of a cancelled loop: nothing is scheduled, nothing is
    fetched; only a fetch in flight can still reach the callback, and the
    loop is halted after it. *)
Lemma cancelled_step (p : Poll) (s : S) (ev : poll_event) :
  running p = false ->
  running (fst (step (p, s) ev)) = false
  /\ timers (fst (step (p, s) ev)) = timers p
  /\ fetches (fst (step (p, s) ev)) = fetches p
  /\ (pending p <> InFlight ->
      pending (fst (step (p, s) ev)) <> InFlight /\ snd (step (p, s) ev) = s)
  /\ (pending p = InFlight ->
      (pending (fst (step (p, s) ev)) = InFlight /\ snd (step (p, s) ev) = s)
      \/ (pending (fst (step (p, s) ev)) = Halted
          /\ (snd (step (p, s) ev) = s
              \/ exists room, snd (step (p, s) ev) = callback room s))).
Proof.
  intros Hr. unfold poll_step. cbn [fst snd].
  destruct ev as [|r|]; destruct (pending p) eqn:Hp;
    cbn [fst snd cancel running timers fetches pending];
    try (repeat split; auto; try congruence; intros; try congruence; auto; fail).
  - (* the timer of a cancelled loop fires *)
    unfold poll_head. rewrite Hr. cbn.
    repeat split; auto; try congruence; intros; congruence.
  - (* the fetch in flight settles *)
    unfold poll_tail. destruct r as [room|e].
    + unfold compare. case_bool_decide; unfold reschedule; cbn [running];
        rewrite Hr; cbn; repeat split; auto; try congruence; intros _; right;
        split; eauto.
    + unfold reschedule. rewrite Hr. cbn.
      repeat split; auto; try congruence; intros _; right; split; auto.
Qed.

Lemma cancelled_run (evs : list poll_event) : forall (p : Poll) (s : S),
  running p = false ->
  running (fst (run (p, s) evs)) = false
  /\ timers (fst (run (p, s) evs)) = timers p
  /\ fetches (fst (run (p, s) evs)) = fetches p
  /\ (pending p <> InFlight -> snd (run (p, s) evs) = s)
  /\ (snd (run (p, s) evs) = s
      \/ exists room, pending p = InFlight /\ snd (run (p, s) evs) = callback room s).
Proof.
  induction evs as [|ev evs IH]; intros p s Hr.
  - unfold poll_run. cbn [fold_left fst snd]. repeat split; auto.
  - unfold poll_run in *. cbn [fold_left].
    destruct (cancelled_step p s ev Hr) as (Hr' & Ht & Hf & Hidle & Hfly).
    destruct (step (p, s) ev) as [p' s'] eqn:Hstep. cbn [fst snd] in *.
    destruct (IH p' s' Hr') as (Hr'' & Ht' & Hf' & Hidle' & Hany).
    split; [exact Hr''|]. split; [congruence|]. split; [congruence|].
    split.
    + intros Hp. destruct (Hidle Hp) as [Hp' ->]. now apply Hidle'.
    + destruct (pending p) eqn:Hp.
      * left. destruct Hidle as [Hp' ->]; [discriminate|]. now apply Hidle'.
      * destruct Hfly as [[Hp' ->]|[Hp' Hs']]; [reflexivity| |].
        -- destruct Hany as [->|(room & _ & ->)]; [now left|right; eauto].
        -- rewrite Hidle' by congruence.
           destruct Hs' as [->|(room & ->)]; [now left|right; eauto].
      * left. destruct Hidle as [Hp' ->]; [discriminate|]. now apply Hidle'.
Qed.

End Cancelled.

(** C7.  Once the cancel function has been called, whatever happens
    next: no timer is set and no fetch is started any more, and the
    callback runs at most once more, which takes a fetch that was in flight
    when the loop was cancelled. *)
Theorem cancel_stops_the_loop :
  forall (S : Type) (stringify : value -> option string)
         (callback : value -> S -> S) (interval maxInterval : Q) (maxPolls : Z)
         (p : GameApi.Poll) (s : S) (evs : list GameApi.poll_event),
    let after := GameApi.poll_run stringify callback interval maxInterval maxPolls
                   (GameApi.cancel p, s) evs in
    GameApi.running (fst after) = false
    /\ GameApi.timers (fst after) = GameApi.timers p
    /\ GameApi.fetches (fst after) = GameApi.fetches p
    /\ (snd after = s
        \/ exists room, GameApi.pending p = GameApi.InFlight
                        /\ snd after = callback room s).
Proof.
  intros S stringify callback interval maxInterval maxPolls p s evs after.
  destruct (cancelled_run stringify callback interval maxInterval maxPolls
              evs (GameApi.cancel p) s eq_refl) as (H1 & H2 & H3 & _ & H5).
  subst after. auto.
Qed.

(** A fetch in flight when the loop is cancelled still reaches the
    callback, once; the timer is not set again. *)
Example cancel_mid_fetch :
  GameApi.poll_run demo_stringify record (2000 # 1) (5000 # 1) 100
    (GameApi.pollRoomUpdates (2000 # 1) 100, [])
    [GameApi.Cancel; GameApi.Fetched (Ok room_A); GameApi.Tick;
     GameApi.Fetched (Ok room_B)]
  = ({| GameApi.currentInterval := 2000 # 1;
        GameApi.lastRoom := Some (Some "waiting");
        GameApi.running := false; GameApi.pollCount := 1;
        GameApi.pending := GameApi.Halted;
        GameApi.timers := []; GameApi.fetches := 1 |},
     [room_A]).
Proof. reflexivity. Qed.

(** ** The recent-room list *)
Section RecentRooms.
Import Adapter GameApi.

Variable APPLICATION_ID : string.

Example remember_new : remember_room "c" (Some ["b"; "a"]) = Some ["c"; "b"; "a"].
Proof. reflexivity. Qed.

Example remember_known : remember_room "a" (Some ["b"; "a"]) = Some ["b"; "a"].
Proof. reflexivity. Qed.

Example remember_eleventh :
  remember_room "k" (Some ["j"; "i"; "h"; "g"; "f"; "e"; "d"; "c"; "b"; "a"])
  = Some ["k"; "j"; "i"; "h"; "g"; "f"; "e"; "d"; "c"; "b"].
Proof. reflexivity. Qed.

(** What [remember_room] stores, by cases. *)
Lemma remember_room_known host stored :
  host ∈ default [] stored -> remember_room host stored = stored.
Proof. intros H. unfold remember_room. now rewrite bool_decide_true. Qed.

Lemma remember_room_new host stored :
  host ∉ default [] stored -> (length (default [] stored) <= 10)%nat ->
  remember_room host stored = Some (take 10 (host :: default [] stored)).
Proof.
  intros H Hlen. unfold remember_room.
  rewrite bool_decide_false by exact H. f_equal.
  destruct (Nat.ltb_spec 10 (length (host :: default [] stored))) as [Hlt|Hge].
  - rewrite List.removelast_firstn_len. cbn [length pred] in *.
    f_equal. lia.
  - now rewrite take_ge by lia.
Qed.

(** [mutate] leaves the recent-room list alone. *)
Lemma mutate_recentRooms doc vars env attempts w :
  recentRooms (snd (mutate APPLICATION_ID doc vars env attempts w)) = recentRooms w.
Proof.
  unfold mutate. unfold bind at 1.
  destruct (send APPLICATION_ID _ doc vars env w) as [[parsed|e] w1] eqn:Hsend.
  - destruct (send_frame _ _ _ _ _ _ _ _ Hsend) as (_ & _ & _ & <- & _).
    destruct (send_ok_connected _ _ _ _ _ _ _ _ Hsend) as [c Hc].
    unfold bind at 1.
    pose proof (check_errors_world "Mutation failed" parsed w1) as Hw.
    destruct (check_errors "Mutation failed" parsed w1) as [[[]|e] w2];
      simpl in Hw; subst w2; [|reflexivity].
    unfold bind at 1. rewrite (sync_loop_total c attempts 3 0 w1 Hc).
    now rewrite field_world.
  - now destruct (send_frame _ _ _ _ _ _ _ _ Hsend) as (_ & _ & _ & <- & _).
Qed.

(** [joinRoom] either fails and leaves the list as it was, or succeeds
    and leaves it remembered. *)
Lemma joinRoom_recentRooms host env w :
  match fst (joinRoom APPLICATION_ID host env w) with
  | Ok _ => recentRooms (snd (joinRoom APPLICATION_ID host env w))
            = remember_room host (recentRooms w)
  | Throw _ => recentRooms (snd (joinRoom APPLICATION_ID host env w))
               = recentRooms w
  end.
Proof.
  unfold joinRoom, bind.
  pose proof (mutate_recentRooms JOIN_ROOM
                (Some (JObj [("hostChainId", JStr host)]))
                (m_remote env) (m_attempts env) w) as H.
  destruct (mutate _ _ _ _ _ w) as [[v|e] w1]; simpl in *.
  - unfold modify. simpl. now rewrite H.
  - exact H.
Qed.

End RecentRooms.

(** One [joinRoom] on a list that is bounded and free of duplicates. *)
Lemma joinRoom_list_step :
  forall (APPLICATION_ID hostChainId : string) (env : GameApi.MutateEnv)
         (w : Adapter.World),
    (length (GameApi.getRecentRooms w) <= 10)%nat ->
    NoDup (GameApi.getRecentRooms w) ->
    let r := GameApi.joinRoom APPLICATION_ID hostChainId env w in
    let after := GameApi.getRecentRooms (snd r) in
    (length after <= 10)%nat
    /\ NoDup after
    /\ (forall u, fst r = Ok u ->
          (hostChainId ∉ GameApi.getRecentRooms w ->
           after = hostChainId :: take 9 (GameApi.getRecentRooms w))
          /\ (hostChainId ∈ GameApi.getRecentRooms w ->
              after = GameApi.getRecentRooms w))
    /\ (forall e, fst r = Throw e -> after = GameApi.getRecentRooms w).
Proof.
  intros APP host env w Hlen Hnd r after.
  pose proof (joinRoom_recentRooms APP host env w) as H.
  fold r in H. subst after. unfold GameApi.getRecentRooms in *.
  destruct (fst r) as [u|e] eqn:Hr.
  - rewrite H.
    destruct (decide (host ∈ default [] (Adapter.recentRooms w))) as [Hin|Hnin].
    + rewrite remember_room_known by exact Hin.
      repeat split; auto; try discriminate. intros Hn. contradiction.
    + rewrite remember_room_new by assumption.
      remember (default [] (Adapter.recentRooms w)) as old eqn:Hold.
      change (default [] (Some (take 10 (host :: old)))) with (host :: take 9 old).
      split; [|split; [|split]].
      * cbn [length]. rewrite length_take. lia.
      * apply NoDup_cons. split.
        -- intros Hin. apply Hnin.
           eapply elem_of_sublist; [exact Hin|apply sublist_take].
        -- exact (sublist_NoDup _ _ Hnd (sublist_take old 9)).
      * intros u' _. split; [reflexivity|]. intros Hin. contradiction.
      * discriminate.
  - rewrite H. repeat split; auto; discriminate.
Qed.

(** From the empty list, any number of [joinRoom] calls, failed or not,
    leave a list of at most 10 distinct ids. *)
Lemma recent_rooms_from_empty (APPLICATION_ID : string)
    (joins : list (string * GameApi.MutateEnv)) : forall (w : Adapter.World),
  (length (GameApi.getRecentRooms w) <= 10)%nat ->
  NoDup (GameApi.getRecentRooms w) ->
  let w' := fold_left (fun w j => snd (GameApi.joinRoom APPLICATION_ID j.1 j.2 w))
                      joins w in
  (length (GameApi.getRecentRooms w') <= 10)%nat /\ NoDup (GameApi.getRecentRooms w').
Proof.
  induction joins as [|[host env] joins IH]; intros w Hlen Hnd; [now split|].
  cbn [fold_left fst snd].
  destruct (joinRoom_list_step APPLICATION_ID host env w Hlen Hnd) as (H1 & H2 & _).
  now apply IH.
Qed.

(** C9, as the code has it.  If the stored list has at most 10 entries
    and no duplicates, which is so of the empty list the store starts
    from, then after [joinRoom(hostChainId)] it still has; after a
    successful call, an id that was not in the list is at its front, before
    the nine most recent of the others, and an id that was in the list has
    left the list as it was; a failed call leaves the list as it was. *)
Theorem recent_rooms_after_join :
  forall (APPLICATION_ID hostChainId : string) (env : GameApi.MutateEnv)
         (w : Adapter.World),
    (length (GameApi.getRecentRooms w) <= 10)%nat ->
    NoDup (GameApi.getRecentRooms w) ->
    let r := GameApi.joinRoom APPLICATION_ID hostChainId env w in
    let after := GameApi.getRecentRooms (snd r) in
    (length after <= 10)%nat
    /\ NoDup after
    /\ (forall u, fst r = Ok u ->
          (hostChainId ∉ GameApi.getRecentRooms w ->
           after = hostChainId :: take 9 (GameApi.getRecentRooms w))
          /\ (hostChainId ∈ GameApi.getRecentRooms w ->
              after = GameApi.getRecentRooms w))
    /\ (forall e, fst r = Throw e -> after = GameApi.getRecentRooms w).
Proof.
  intros APP host env w Hlen Hnd.
  exact (joinRoom_list_step APP host env w Hlen Hnd).
Qed.

Lemma recent_rooms_after_join_witness :
  (length (GameApi.getRecentRooms demo_world) <= 10)%nat
  /\ NoDup (GameApi.getRecentRooms demo_world)
  /\ (length (GameApi.getRecentRooms
                (snd (GameApi.joinRoom "app" "chain-host" accepting demo_world)))
      <= 10)%nat.
Proof.
  split; [cbn; lia|]. split; [constructor|].
  refine (proj1 (recent_rooms_after_join "app" "chain-host" accepting demo_world _ _));
    [cbn; lia|constructor].
Defined.

(** C9 as stated fails on a room that is joined again: after joining "A",
    then "B", then "A", all three calls succeeding, the list is ["B"; "A"];
    the room joined last is not at its front. *)
Lemma rejoin_counterexample :
  let w1 := snd (GameApi.joinRoom "app" "A" accepting demo_world) in
  let w2 := snd (GameApi.joinRoom "app" "B" accepting w1) in
  let r3 := GameApi.joinRoom "app" "A" accepting w2 in
  fst r3 = Ok tt
  /\ GameApi.getRecentRooms (snd r3) = ["B"; "A"]
  /\ head (GameApi.getRecentRooms (snd r3)) <> Some "A".
Proof. repeat split. discriminate. Qed.

(** ** The game store *)
Section StoreFacts.
Import Adapter GameApi Store.

Variable APPLICATION_ID : string.

Example leave_refused_resolves :
  let r := leaveCurrentRoom "app" refusing demo_app in
  fst r = Ok tt
  /\ room (store (snd r)) = room_A
  /\ error (store (snd r)) = Some "Room is full".
Proof. repeat split. Qed.

Example move_refused_rejects :
  let r := submitMove "app" {| primary := 3; secondary := None |}
                      refusing sync_answering demo_app in
  fst r = Throw (Error "Room is full") /\ room (store (snd r)) = room_A.
Proof. repeat split. Qed.

Example move_sync_refused_resolves :
  let r := submitMove "app" {| primary := 3; secondary := None |}
                      accepting sync_refusing demo_app in
  fst r = Ok tt /\ room (store (snd r)) = room_A.
Proof. repeat split. Qed.

(** Joining starts a poll loop whose callback stores the room; the
    [.then] callback installs its cancel function, which [stopPolling]
    calls. *)
Example join_then_poll :
  let a1 := run_installs (snd (joinExistingRoom "app" "chain-host" accepting demo_app)) in
  let a2 := poller_step demo_stringify 0 (Fetched (Ok room_B)) a1 in
  let a3 := snd (stopPolling a2) in
  pollCanceller (store a1) = Some 0%nat
  /\ (pending <$> pollers a1 !! 0%nat) = Some InFlight
  /\ room (store a2) = room_B
  /\ (timers <$> pollers a2 !! 0%nat) = Some [2000 # 1]
  /\ (running <$> pollers a3 !! 0%nat) = Some false
  /\ pollCanceller (store a3) = None
  /\ getRecentRooms (world a3) = ["chain-host"].
Proof. repeat split. Qed.

(** The [gameApi] functions pass on what [mutate] and [query] throw. *)
Lemma createRoom_throws gameType env w e :
  fst (mutate APPLICATION_ID CREATE_ROOM (Some (JObj [("gameType", JStr gameType)]))
              (m_remote env) (m_attempts env) w) = Throw e ->
  fst (createRoom APPLICATION_ID gameType env w) = Throw e.
Proof.
  unfold createRoom, bind. destruct (mutate _ _ _ _ _ w) as [[v|e'] w1]; simpl;
    [discriminate|now intros [= ->]].
Qed.

Lemma joinRoom_throws host env w e :
  fst (mutate APPLICATION_ID JOIN_ROOM (Some (JObj [("hostChainId", JStr host)]))
              (m_remote env) (m_attempts env) w) = Throw e ->
  fst (joinRoom APPLICATION_ID host env w) = Throw e.
Proof.
  unfold joinRoom, bind. destruct (mutate _ _ _ _ _ w) as [[v|e'] w1]; simpl;
    [discriminate|now intros [= ->]].
Qed.

Lemma leaveRoom_throws env w e :
  fst (mutate APPLICATION_ID LEAVE_ROOM None (m_remote env) (m_attempts env) w)
  = Throw e ->
  fst (leaveRoom APPLICATION_ID env w) = Throw e.
Proof.
  unfold leaveRoom, bind. destruct (mutate _ _ _ _ _ w) as [[v|e'] w1]; simpl;
    [discriminate|now intros [= ->]].
Qed.

Lemma makeMove_throws moveData env w e :
  fst (mutate APPLICATION_ID MAKE_MOVE
         (Some (JObj [("primary", JNum (primary moveData));
                      ("secondary", match secondary moveData with
                                    | Some s => JStr s
                                    | None => JNull
                                    end)]))
         (m_remote env) (m_attempts env) w) = Throw e ->
  fst (makeMove APPLICATION_ID moveData env w) = Throw e.
Proof.
  unfold makeMove, bind. destruct (mutate _ _ _ _ _ w) as [[v|e'] w1]; simpl;
    [discriminate|now intros [= ->]].
Qed.

Lemma getRoom_throws env w e :
  fst (query APPLICATION_ID GET_ROOM None env w) = Throw e ->
  fst (getRoom APPLICATION_ID env w) = Throw e.
Proof.
  unfold getRoom, bind. destruct (query _ _ _ _ w) as [[v|e'] w1]; simpl;
    [discriminate|now intros [= ->]].
Qed.

Lemma getRoomSynced_throws env w e :
  fst (queryWithSync APPLICATION_ID GET_ROOM None (sq_sync env) (sq_remote env) w)
  = Throw e ->
  fst (getRoomSynced APPLICATION_ID env w) = Throw e.
Proof.
  unfold getRoomSynced, bind. destruct (queryWithSync _ _ _ _ _ w) as [[v|e'] w1];
    simpl; [discriminate|now intros [= ->]].
Qed.

(** [stopPolling] leaves the room and the adapter alone and never throws. *)
Lemma stopPolling_frame a :
  fst (stopPolling a) = Ok tt
  /\ room (store (snd (stopPolling a))) = room (store a)
  /\ world (snd (stopPolling a)) = world a.
Proof.
  unfold stopPolling, bind, get, modify, ret.
  destruct (pollCanceller (store a)); simpl; auto.
Qed.

Ltac run_store :=
  unfold begin, failed, bind, try_catch, modify, lift, throw, ret, get;
  cbn [world store set_store fst snd].

Lemma createNewRoom_create_fails gameType create read a e :
  fst (createRoom APPLICATION_ID gameType create (world a)) = Throw e ->
  fst (createNewRoom APPLICATION_ID gameType create read a) = Throw e
  /\ room (store (snd (createNewRoom APPLICATION_ID gameType create read a)))
     = room (store a)
  /\ error (store (snd (createNewRoom APPLICATION_ID gameType create read a)))
     = Some (message_or "Failed to create room" e).
Proof.
  intros H. unfold createNewRoom. run_store.
  destruct (createRoom APPLICATION_ID gameType create (world a)) as [[h|e'] w1];
    simpl in H; [discriminate|]. injection H as ->. simpl. auto.
Qed.

Lemma createNewRoom_read_fails gameType create read a h w1 e :
  createRoom APPLICATION_ID gameType create (world a) = (Ok h, w1) ->
  fst (getRoom APPLICATION_ID read w1) = Throw e ->
  fst (createNewRoom APPLICATION_ID gameType create read a) = Throw e
  /\ room (store (snd (createNewRoom APPLICATION_ID gameType create read a)))
     = room (store a)
  /\ error (store (snd (createNewRoom APPLICATION_ID gameType create read a)))
     = Some (message_or "Failed to create room" e).
Proof.
  intros Hc H. unfold createNewRoom. run_store. rewrite Hc. cbn [world].
  destruct (getRoom APPLICATION_ID read w1) as [[r|e'] w2];
    simpl in H; [discriminate|]. injection H as ->. simpl. auto.
Qed.

Lemma joinExistingRoom_fails host join a e :
  fst (joinRoom APPLICATION_ID host join (world a)) = Throw e ->
  fst (joinExistingRoom APPLICATION_ID host join a) = Throw e
  /\ room (store (snd (joinExistingRoom APPLICATION_ID host join a)))
     = room (store a)
  /\ error (store (snd (joinExistingRoom APPLICATION_ID host join a)))
     = Some (message_or "Failed to join room" e).
Proof.
  intros H. unfold joinExistingRoom. run_store.
  destruct (joinRoom APPLICATION_ID host join (world a)) as [[u|e'] w1];
    simpl in H; [discriminate|]. injection H as ->. simpl. auto.
Qed.

Lemma submitMove_move_fails moveData move sync a e :
  fst (makeMove APPLICATION_ID moveData move (world a)) = Throw e ->
  fst (submitMove APPLICATION_ID moveData move sync a) = Throw e
  /\ room (store (snd (submitMove APPLICATION_ID moveData move sync a)))
     = room (store a)
  /\ error (store (snd (submitMove APPLICATION_ID moveData move sync a)))
     = Some (message_or "Failed to make move" e).
Proof.
  intros H. unfold submitMove. run_store.
  destruct (makeMove APPLICATION_ID moveData move (world a)) as [[u|e'] w1];
    simpl in H; [discriminate|]. injection H as ->. simpl. auto.
Qed.

Lemma submitMove_sync_fails moveData move sync a u w1 e :
  makeMove APPLICATION_ID moveData move (world a) = (Ok u, w1) ->
  fst (getRoomSynced APPLICATION_ID sync w1) = Throw e ->
  fst (submitMove APPLICATION_ID moveData move sync a) = Ok tt
  /\ room (store (snd (submitMove APPLICATION_ID moveData move sync a)))
     = room (store a)
  /\ error (store (snd (submitMove APPLICATION_ID moveData move sync a))) = None.
Proof.
  intros Hm H. unfold submitMove, syncRoom. run_store. rewrite Hm. cbn [world].
  destruct (getRoomSynced APPLICATION_ID sync w1) as [[r|e'] w2];
    simpl in H; [discriminate|]. simpl. auto.
Qed.

Lemma leaveCurrentRoom_fails leave a e :
  fst (leaveRoom APPLICATION_ID leave (world a)) = Throw e ->
  fst (leaveCurrentRoom APPLICATION_ID leave a) = Ok tt
  /\ room (store (snd (leaveCurrentRoom APPLICATION_ID leave a)))
     = room (store a)
  /\ error (store (snd (leaveCurrentRoom APPLICATION_ID leave a)))
     = Some (message_or "Failed to leave room" e).
Proof.
  intros H. unfold leaveCurrentRoom. run_store.
  match goal with
  | |- context [stopPolling ?x] =>
      destruct (stopPolling_frame x) as (Hs1 & Hs2 & Hs3);
      destruct (stopPolling x) as [r a1]
  end.
  simpl in Hs1, Hs2, Hs3. subst r. rewrite Hs3.
  destruct (leaveRoom APPLICATION_ID leave (world a)) as [[u|e'] w1];
    simpl in H; [discriminate|]. injection H as ->. simpl.
  rewrite Hs2. auto.
Qed.

End StoreFacts.

(** C5, as the code has it.  An error [e] thrown by the [mutate] call of
    [createNewRoom], [joinExistingRoom] or [submitMove], or by the [query]
    call that follows the mutation in [createNewRoom], is rethrown as it
    is.  The error of the synchronized read that follows the mutation in
    [submitMove] is caught inside [syncRoom], and [submitMove] resolves.
    In all these cases, and when the [mutate] call of [leaveCurrentRoom]
    throws, the stored room is what it was. *)
Theorem store_failure_handling :
  forall (APPLICATION_ID : string) (a : Store.App) (e : exn),
    (forall gameType create read,
        fst (Adapter.mutate APPLICATION_ID GameApi.CREATE_ROOM
               (Some (JObj [("gameType", JStr gameType)]))
               (GameApi.m_remote create) (GameApi.m_attempts create)
               (Store.world a)) = Throw e ->
        let r := Store.createNewRoom APPLICATION_ID gameType create read a in
        fst r = Throw e /\ Store.room (Store.store (snd r)) = Store.room (Store.store a))
    /\ (forall gameType create read h w1,
          GameApi.createRoom APPLICATION_ID gameType create (Store.world a) = (Ok h, w1) ->
          fst (Adapter.query APPLICATION_ID GameApi.GET_ROOM None read w1) = Throw e ->
          let r := Store.createNewRoom APPLICATION_ID gameType create read a in
          fst r = Throw e /\ Store.room (Store.store (snd r)) = Store.room (Store.store a))
    /\ (forall hostChainId join,
          fst (Adapter.mutate APPLICATION_ID GameApi.JOIN_ROOM
                 (Some (JObj [("hostChainId", JStr hostChainId)]))
                 (GameApi.m_remote join) (GameApi.m_attempts join)
                 (Store.world a)) = Throw e ->
          let r := Store.joinExistingRoom APPLICATION_ID hostChainId join a in
          fst r = Throw e /\ Store.room (Store.store (snd r)) = Store.room (Store.store a))
    /\ (forall moveData move sync,
          fst (Adapter.mutate APPLICATION_ID GameApi.MAKE_MOVE
                 (Some (JObj [("primary", JNum (GameApi.primary moveData));
                              ("secondary", match GameApi.secondary moveData with
                                            | Some s => JStr s
                                            | None => JNull
                                            end)]))
                 (GameApi.m_remote move) (GameApi.m_attempts move)
                 (Store.world a)) = Throw e ->
          let r := Store.submitMove APPLICATION_ID moveData move sync a in
          fst r = Throw e /\ Store.room (Store.store (snd r)) = Store.room (Store.store a))
    /\ (forall moveData move sync u w1,
          GameApi.makeMove APPLICATION_ID moveData move (Store.world a) = (Ok u, w1) ->
          fst (Adapter.queryWithSync APPLICATION_ID GameApi.GET_ROOM None
                 (GameApi.sq_sync sync) (GameApi.sq_remote sync) w1) = Throw e ->
          let r := Store.submitMove APPLICATION_ID moveData move sync a in
          fst r = Ok tt /\ Store.room (Store.store (snd r)) = Store.room (Store.store a))
    /\ (forall leave,
          fst (Adapter.mutate APPLICATION_ID GameApi.LEAVE_ROOM None
                 (GameApi.m_remote leave) (GameApi.m_attempts leave)
                 (Store.world a)) = Throw e ->
          let r := Store.leaveCurrentRoom APPLICATION_ID leave a in
          Store.room (Store.store (snd r)) = Store.room (Store.store a)
          /\ Store.error (Store.store (snd r))
             = Some (Store.message_or "Failed to leave room" e)).
Proof.
  intros APP a e. split; [|split; [|split; [|split; [|split]]]].
  - intros gameType create read H r.
    destruct (createNewRoom_create_fails APP gameType create read a e
                (createRoom_throws APP _ _ _ _ H)) as (H1 & H2 & _). auto.
  - intros gameType create read h w1 Hc H r.
    destruct (createNewRoom_read_fails APP gameType create read a h w1 e Hc
                (getRoom_throws APP _ _ _ H)) as (H1 & H2 & _). auto.
  - intros host join H r.
    destruct (joinExistingRoom_fails APP host join a e
                (joinRoom_throws APP _ _ _ _ H)) as (H1 & H2 & _). auto.
  - intros moveData move sync H r.
    destruct (submitMove_move_fails APP moveData move sync a e
                (makeMove_throws APP _ _ _ _ H)) as (H1 & H2 & _). auto.
  - intros moveData move sync u w1 Hm H r.
    destruct (submitMove_sync_fails APP moveData move sync a u w1 e Hm
                (getRoomSynced_throws APP _ _ _ H)) as (H1 & H2 & _). auto.
  - intros leave H r.
    exact (proj2 (leaveCurrentRoom_fails APP leave a e
                    (leaveRoom_throws APP _ _ _ H))).
Qed.

Lemma store_failure_handling_witness :
  fst (Adapter.mutate "app" GameApi.JOIN_ROOM
         (Some (JObj [("hostChainId", JStr "chain-host")]))
         (GameApi.m_remote refusing) (GameApi.m_attempts refusing)
         (Store.world demo_app)) = Throw (Error "Room is full")
  /\ fst (Store.joinExistingRoom "app" "chain-host" refusing demo_app)
     = Throw (Error "Room is full")
  /\ Store.room (Store.store (snd (Store.joinExistingRoom "app" "chain-host"
                                     refusing demo_app)))
     = Store.room (Store.store demo_app).
Proof.
  split; [reflexivity|].
  apply (proj1 (proj2 (proj2 (store_failure_handling "app" demo_app
                                (Error "Room is full"))))
           "chain-host" refusing).
  reflexivity.
Defined.

(** C5 as stated fails for the read that follows a move: the mutation
    goes through, the [query] of the synchronized read throws, and
    [submitMove] does not rethrow; it resolves. *)
Lemma sync_read_swallowed_counterexample :
  let move := {| GameApi.primary := 3; GameApi.secondary := None |} in
  let r1 := GameApi.makeMove "app" move accepting (Store.world demo_app) in
  fst r1 = Ok tt
  /\ fst (Adapter.queryWithSync "app" GameApi.GET_ROOM None
            (GameApi.sq_sync sync_refusing) (GameApi.sq_remote sync_refusing)
            (snd r1)) = Throw (Error "Room is full")
  /\ fst (Store.submitMove "app" move accepting sync_refusing demo_app) = Ok tt.
Proof. repeat split. Qed.

(* ===================================================================== *)
(** * Part III: further properties of the code *)
(* ===================================================================== *)

(** ** More on the signer *)

Lemma unhex_byte_hex (b : Byte.byte) (rest : string) :
  unhex (Signer.byte_hex b +:+ rest) = b :: unhex rest.
Proof.
  assert (H : unhex_pair (Signer.hex_digit (Byte.to_N b `div` 16))
                         (Signer.hex_digit (Byte.to_N b `mod` 16)) = Some b)
    by (destruct b; vm_compute; reflexivity).
  unfold Signer.byte_hex.
  change (unhex (String (Signer.hex_digit (Byte.to_N b `div` 16))
                   (String (Signer.hex_digit (Byte.to_N b `mod` 16)) "") +:+ rest))
    with (match unhex_pair (Signer.hex_digit (Byte.to_N b `div` 16))
                           (Signer.hex_digit (Byte.to_N b `mod` 16)) with
          | Some b' => b' :: unhex rest
          | None => []
          end).
  now rewrite H.
Qed.

Lemma unhex_uint8ArrayToHex (bytes : list Byte.byte) :
  unhex (Signer.uint8ArrayToHex bytes) = bytes.
Proof.
  unfold Signer.uint8ArrayToHex.
  induction bytes as [|b bytes IH]; [reflexivity|].
  cbn [fold_right]. now rewrite unhex_byte_hex, IH.
Qed.

(** X1.  The text [uint8ArrayToHex] writes has two characters per byte
    and determines the bytes: different byte arrays are signed as
    different messages. *)
Theorem uint8ArrayToHex_injective :
  forall bytes bytes' : list Byte.byte,
    String.length (Signer.uint8ArrayToHex bytes) = (2 * length bytes)%nat
    /\ (Signer.uint8ArrayToHex bytes = Signer.uint8ArrayToHex bytes' ->
        bytes = bytes').
Proof.
  intros bytes bytes'. split; [apply uint8ArrayToHex_length|].
  intros H. apply (f_equal unhex) in H.
  now rewrite !unhex_uint8ArrayToHex in H.
Qed.

Lemma uint8ArrayToHex_injective_witness :
  Signer.uint8ArrayToHex [Byte.x0a; Byte.xff] = Signer.uint8ArrayToHex [Byte.x0a; Byte.xff]
  /\ [Byte.x0a; Byte.xff] = [Byte.x0a; Byte.xff].
Proof.
  split; [reflexivity|].
  exact (proj2 (uint8ArrayToHex_injective [Byte.x0a; Byte.xff] [Byte.x0a; Byte.xff])
           eq_refl).
Defined.

(** X2.  [containsKey(owner)] and [sign(owner, value)] apply the same
    test, whatever the built-in [String.prototype.toLowerCase] does
    ([lowercase]) and for every owner string: when [address()] gives
    [my], [containsKey] answers whether [owner.toLowerCase()] is [my],
    and it answers [false] exactly when [sign] raises the owner-mismatch
    error; when [address()] fails, both fail with its error. *)
Theorem containsKey_agrees_with_sign :
  forall (lowercase : string -> string) (s : Signer.DynamicSigner)
         (owner : string) (value : list Byte.byte),
    match Signer.signer_address lowercase s with
    | (Ok my, s') =>
        Signer.containsKey lowercase s owner
        = (Ok (String.eqb (lowercase owner) my), s')
        /\ (fst (Signer.containsKey lowercase s owner) = Ok false
            <-> fst (Signer.sign lowercase s owner value)
                = Throw (Signer.owner_mismatch owner my))
    | (Throw e, s') =>
        Signer.containsKey lowercase s owner = (Throw e, s')
        /\ Signer.sign lowercase s owner value = (Throw e, s')
    end.
Proof.
  intros lowercase s owner value. unfold Signer.containsKey, Signer.sign.
  destruct (Signer.signer_address lowercase s) as [[my|e] s']; [|split; reflexivity].
  split; [reflexivity|]. cbn [fst].
  destruct (String.eqb (lowercase owner) my); cbn [negb fst].
  - split; [discriminate|].
    destruct (Signer.signMessage _ _); cbn; intros H; [discriminate|].
    unfold Signer.owner_mismatch in H. cbn in H. discriminate.
  - split; reflexivity.
Qed.

(** X3.  On a new signer, [address()] fails when the wallet has no
    address (missing or empty) and leaves the signer as it was; otherwise
    it gives the wallet's address lowercased, which is itself in lower
    case, caches it without touching the wallet, and gives the same answer
    from then on.  (The built-in is taken on ASCII text, as addresses
    are.) *)
Theorem address_lowercased_and_stable :
  forall w : Signer.DynamicWallet,
    let s0 := Signer.createDynamicSigner w in
    (Signer.nonempty (Signer.address w) = false ->
     Signer.signer_address Signer.toLowerCase s0
     = (Throw (Error "Dynamic wallet has no address"), s0))
    /\ (forall a, Signer.address w = Some a -> a <> "" ->
          let s1 := {| Signer.wallet := w;
                       Signer.cachedAddress := Some (Signer.toLowerCase a) |} in
          Signer.signer_address Signer.toLowerCase s0 = (Ok (Signer.toLowerCase a), s1)
          /\ Signer.signer_address Signer.toLowerCase s1 = (Ok (Signer.toLowerCase a), s1)
          /\ Signer.toLowerCase (Signer.toLowerCase a) = Signer.toLowerCase a).
Proof.
  intros w s0. split.
  - intros H. unfold Signer.signer_address, Signer.resolve_address. cbn.
    destruct (Signer.address w) as [a|]; [|reflexivity].
    cbn in H |- *. now rewrite H.
  - intros a Ha Hne s1.
    assert (H0 : Signer.signer_address Signer.toLowerCase s0 = (Ok (Signer.toLowerCase a), s1)).
    { unfold Signer.signer_address, Signer.resolve_address. cbn. rewrite Ha. cbn.
      destruct (String.eqb_spec a ""); [contradiction|reflexivity]. }
    split; [exact H0|]. split; [|apply toLowerCase_idem].
    exact (signer_address_stable _ _ _ H0).
Qed.

Lemma address_lowercased_and_stable_witness :
  Signer.address demo_wallet = Some "0xABC"
  /\ "0xABC" <> ""
  /\ Signer.signer_address Signer.toLowerCase (Signer.createDynamicSigner demo_wallet)
     = (Ok (Signer.toLowerCase "0xABC"),
        {| Signer.wallet := demo_wallet;
           Signer.cachedAddress := Some (Signer.toLowerCase "0xABC") |}).
Proof.
  assert (Hne : "0xABC" <> "") by discriminate.
  split; [reflexivity|]. split; [exact Hne|].
  exact (proj1 (proj2 (address_lowercased_and_stable demo_wallet) "0xABC" eq_refl Hne)).
Defined.

(** ** More on the session manager *)

(** A wallet's address in lower case is empty only if the address is. *)
Lemma nonempty_lower a :
  a <> "" -> Signer.nonempty (Some (Signer.toLowerCase a)) = true.
Proof.
  intros Hne. cbn.
  destruct (String.eqb_spec (Signer.toLowerCase a) ""); [|reflexivity].
  exfalso. now apply (toLowerCase_nonempty a).
Qed.

(** A [connect] call that starts an attempt. *)
Lemma connect_call_starts wallet a url script w :
  Adapter.connectPromise w = None ->
  Signer.address wallet = Some a -> a <> "" ->
  Adapter.same_address w (Signer.toLowerCase a) = false ->
  Adapter.connect_call Signer.toLowerCase wallet url script (Adapter.boot w)
  = {| Adapter.world := Adapter.set_connectPromise (Some 0%nat) w;
       Adapter.promises :=
         [Adapter.Pending
            {| Adapter.t_pc := Adapter.AwaitLoad;
               Adapter.t_faucetUrl := url;
               Adapter.t_userAddress := Signer.toLowerCase a;
               Adapter.t_script := script |}];
       Adapter.calls := [Adapter.Waiting true 0] |}.
Proof.
  intros Hp Ha Hne Hsame. unfold Adapter.connect_call. rewrite Ha.
  cbn [fmap option_fmap option_map].
  rewrite (nonempty_lower a Hne). cbn [negb Adapter.boot Adapter.world].
  now rewrite Hsame, Hp.
Qed.





(** X6.  [connect] neither starts an attempt nor changes the adapter when
    the wallet has no address, in which case it rejects, or when the
    session is already that of the wallet's address, whatever the case of
    its letters, in which case it resolves with the current state. *)
Theorem connect_early_returns :
  forall (wallet : Signer.DynamicWallet) (faucetUrl : string)
         (script : Adapter.ConnectScript) (s : Adapter.Sys),
    (Signer.nonempty (Signer.address wallet) = false ->
     Adapter.connect_call Signer.toLowerCase wallet faucetUrl script s
     = {| Adapter.world := Adapter.world s;
          Adapter.promises := Adapter.promises s;
          Adapter.calls := Adapter.calls s
            ++ [Adapter.Done (Throw (Error "Dynamic wallet has no address"))] |})
    /\ (forall a c,
          Signer.address wallet = Some a -> a <> "" ->
          Adapter.connection (Adapter.world s) = Some c ->
          Adapter.conn_address c = Signer.toLowerCase a ->
          Adapter.connect_call Signer.toLowerCase wallet faucetUrl script s
          = {| Adapter.world := Adapter.world s;
               Adapter.promises := Adapter.promises s;
               Adapter.calls := Adapter.calls s
                 ++ [Adapter.Done (Ok (conn_state c))] |}).
Proof.
  intros wallet url script s. split.
  - intros H. unfold Adapter.connect_call.
    destruct (Signer.address wallet) as [a|]; [|reflexivity].
    cbn [fmap option_fmap option_map].
    assert (Ha : a = "")
      by (cbn in H; destruct (String.eqb_spec a ""); [assumption|discriminate]).
    subst a. reflexivity.
  - intros a c Ha Hne Hc Haddr. unfold Adapter.connect_call. rewrite Ha.
    cbn [fmap option_fmap option_map].
    rewrite (nonempty_lower a Hne). cbn [negb].
    unfold Adapter.same_address. rewrite Hc, Haddr, String.eqb_refl.
    now rewrite (getState_connected _ _ Hc).
Qed.

Lemma connect_early_returns_witness :
  Signer.address demo_wallet = Some "0xABC"
  /\ "0xABC" <> ""
  /\ Adapter.connection (Adapter.world (Adapter.boot demo_world)) = Some demo_connection
  /\ Adapter.conn_address demo_connection = Signer.toLowerCase "0xABC"
  /\ Adapter.connect_call Signer.toLowerCase demo_wallet "https://faucet" good_script
       (Adapter.boot demo_world)
     = {| Adapter.world := demo_world;
          Adapter.promises := [];
          Adapter.calls := [Adapter.Done (Ok (conn_state demo_connection))] |}.
Proof.
  split; [reflexivity|]. split; [discriminate|]. split; [reflexivity|].
  split; [reflexivity|].
  apply (proj2 (connect_early_returns demo_wallet "https://faucet" good_script
                  (Adapter.boot demo_world)) "0xABC" demo_connection);
    first [reflexivity | discriminate].
Defined.

(** ** More on the application binding and the gateway *)

(** X7.  When [connectApplication(applicationId)] has to resolve the
    handle and one of its two round trips fails, the call rejects with that
    error and the cached binding is what it was; the second round trip is
    not made when the first fails. *)
Theorem connectApplication_failure_keeps_cache :
  forall (applicationId : string) (chain_r app_r : result unit)
         (w : Adapter.World) (c : Adapter.LineraConnection) (e : exn),
    Adapter.connection w = Some c ->
    applicationId <> "" ->
    Adapter.cached_for applicationId (Adapter.appConnection w) = false ->
    (chain_r = Throw e ->
     Adapter.connectApplication applicationId chain_r app_r w
     = (Throw e, Adapter.log (Adapter.EChain (Adapter.client c) (Adapter.chainId c)) w))
    /\ (chain_r = Ok tt -> app_r = Throw e ->
        Adapter.connectApplication applicationId chain_r app_r w
        = (Throw e,
           Adapter.log (Adapter.EApplication (Adapter.client c) (Adapter.chainId c)
                          applicationId)
             (Adapter.log (Adapter.EChain (Adapter.client c) (Adapter.chainId c)) w))).
Proof.
  intros appId chain_r app_r w c e Hc Hid Hcache.
  assert (Hres : Adapter.connectApplication appId chain_r app_r w
                 = Adapter.resolve_application appId chain_r app_r c w).
  { unfold Adapter.connectApplication, bind, get. rewrite Hc.
    destruct (Adapter.appConnection w) as [a|]; [|reflexivity].
    now rewrite Hcache. }
  rewrite Hres. unfold Adapter.resolve_application.
  destruct (String.eqb_spec appId ""); [contradiction|].
  split.
  - intros ->. reflexivity.
  - intros -> ->. reflexivity.
Qed.

Lemma connectApplication_failure_keeps_cache_witness :
  Adapter.connection demo_world = Some demo_connection
  /\ "other-app" <> ""
  /\ Adapter.cached_for "other-app" (Adapter.appConnection demo_world) = false
  /\ Adapter.appConnection
       (snd (Adapter.connectApplication "other-app" (Throw (Error "offline")) (Ok tt)
               demo_world))
     = Some demo_binding.
Proof.
  split; [reflexivity|]. split; [discriminate|]. split; [reflexivity|].
  rewrite (proj1 (connectApplication_failure_keeps_cache "other-app"
                    (Throw (Error "offline")) (Ok tt) demo_world demo_connection
                    (Error "offline") eq_refl ltac:(discriminate) eq_refl) eq_refl).
  reflexivity.
Defined.

(** X8.  When both round trips succeed, [connectApplication] caches a
    handle resolved under the current connection's client and partition,
    replacing any binding for another id; a second call for the same id
    then returns the cached binding without any round trip, whatever the
    network would answer. *)
Theorem connectApplication_caches :
  forall (applicationId : string) (w : Adapter.World)
         (c : Adapter.LineraConnection),
    Adapter.connection w = Some c ->
    applicationId <> "" ->
    Adapter.cached_for applicationId (Adapter.appConnection w) = false ->
    let w1 := Adapter.set_appConnection (Some (binding_under c applicationId))
                (Adapter.log (Adapter.EApplication (Adapter.client c)
                                (Adapter.chainId c) applicationId)
                   (Adapter.log (Adapter.EChain (Adapter.client c)
                                   (Adapter.chainId c)) w)) in
    Adapter.connectApplication applicationId (Ok tt) (Ok tt) w
    = (Ok (binding_under c applicationId), w1)
    /\ (forall chain_r app_r,
          Adapter.connectApplication applicationId chain_r app_r w1
          = (Ok (binding_under c applicationId), w1)).
Proof.
  intros appId w c Hc Hid Hcache w1. split.
  - unfold Adapter.connectApplication, bind, get. rewrite Hc.
    assert (Hres : Adapter.resolve_application appId (Ok tt) (Ok tt) c w
                   = (Ok (binding_under c appId), w1)).
    { unfold Adapter.resolve_application.
      destruct (String.eqb_spec appId ""); [contradiction|reflexivity]. }
    destruct (Adapter.appConnection w) as [a|]; [rewrite Hcache|]; exact Hres.
  - intros chain_r app_r.
    apply (connectApplication_cached (binding_under c appId) c); [|reflexivity].
    exact Hc.
Qed.

Lemma connectApplication_caches_witness :
  Adapter.connection demo_world = Some demo_connection
  /\ "other-app" <> ""
  /\ Adapter.cached_for "other-app" (Adapter.appConnection demo_world) = false
  /\ fst (Adapter.connectApplication "other-app" (Ok tt) (Ok tt) demo_world)
     = Ok (binding_under demo_connection "other-app").
Proof.
  split; [reflexivity|]. split; [discriminate|]. split; [reflexivity|].
  rewrite (proj1 (connectApplication_caches "other-app" demo_world demo_connection
                    eq_refl ltac:(discriminate) eq_refl)).
  reflexivity.
Defined.

(** What [send] does on a connected adapter without a binding. *)
Lemma send_unbound APPLICATION_ID msg doc vars env w c :
  Adapter.connection w = Some c ->
  Adapter.appConnection w = None ->
  APPLICATION_ID <> "" ->
  let w1 := Adapter.log (Adapter.EChain (Adapter.client c) (Adapter.chainId c)) w in
  let w2 := Adapter.log (Adapter.EApplication (Adapter.client c) (Adapter.chainId c)
                           APPLICATION_ID) w1 in
  let w3 := Adapter.set_appConnection (Some (binding_under c APPLICATION_ID)) w2 in
  Adapter.send APPLICATION_ID msg doc vars env w
  = match Adapter.r_chain env with
    | Throw e => (Throw e, w1)
    | Ok _ =>
        match Adapter.r_application env with
        | Throw e => (Throw e, w2)
        | Ok _ =>
            (Adapter.parse_reply (Adapter.r_reply env),
             Adapter.log (Adapter.EAppQuery
                            (Adapter.application (binding_under c APPLICATION_ID))
                            {| Adapter.pl_query := doc;
                               Adapter.pl_variables := Adapter.variables_or_empty vars |})
                         w3)
        end
    end.
Proof.
  intros Hc Ha Hid w1 w2 w3.
  assert (Hres : Adapter.connectApplication APPLICATION_ID (Adapter.r_chain env)
                   (Adapter.r_application env) w
                 = match Adapter.r_chain env with
                   | Throw e => (Throw e, w1)
                   | Ok _ =>
                       match Adapter.r_application env with
                       | Throw e => (Throw e, w2)
                       | Ok _ => (Ok (binding_under c APPLICATION_ID), w3)
                       end
                   end).
  { unfold Adapter.connectApplication. unfold bind at 1. unfold get.
    rewrite Hc, Ha. unfold Adapter.resolve_application.
    destruct (String.eqb_spec APPLICATION_ID ""); [contradiction|].
    unfold bind, Adapter.emit, modify, await, ret.
    destruct (Adapter.r_chain env) as [[]|e]; [|reflexivity].
    destruct (Adapter.r_application env) as [[]|e]; reflexivity. }
  unfold Adapter.send. unfold bind at 1. unfold get. rewrite Hc.
  unfold bind at 1. rewrite Ha. unfold bind at 1. rewrite Hres.
  destruct (Adapter.r_chain env) as [[]|e]; [|reflexivity].
  destruct (Adapter.r_application env) as [[]|e]; reflexivity.
Qed.

(** X9.  The first [query] on a connected adapter without a binding
    resolves the handle of [APPLICATION_ID] under the current connection,
    caches it and sends the request on it; the next [query] makes no new
    resolution and sends its request on the cached handle.  When the
    resolution fails, [query] rejects with its error and sends nothing to
    the application. *)
Theorem query_binds_lazily_once :
  forall (APPLICATION_ID doc doc' : string) (vars vars' : value)
         (env env' : Adapter.Remote) (w : Adapter.World)
         (c : Adapter.LineraConnection),
    Adapter.connection w = Some c ->
    Adapter.appConnection w = None ->
    APPLICATION_ID <> "" ->
    let handle := Adapter.application (binding_under c APPLICATION_ID) in
    let resolve := [Adapter.EChain (Adapter.client c) (Adapter.chainId c);
                    Adapter.EApplication (Adapter.client c) (Adapter.chainId c)
                      APPLICATION_ID] in
    let w1 := snd (Adapter.query APPLICATION_ID doc vars env w) in
    (Adapter.r_chain env = Ok tt -> Adapter.r_application env = Ok tt ->
     Adapter.trace w1
     = Adapter.trace w ++ resolve
       ++ [Adapter.EAppQuery handle
             {| Adapter.pl_query := doc;
                Adapter.pl_variables := Adapter.variables_or_empty vars |}]
     /\ Adapter.appConnection w1 = Some (binding_under c APPLICATION_ID)
     /\ Adapter.trace (snd (Adapter.query APPLICATION_ID doc' vars' env' w1))
        = Adapter.trace w1
          ++ [Adapter.EAppQuery handle
                {| Adapter.pl_query := doc';
                   Adapter.pl_variables := Adapter.variables_or_empty vars' |}])
    /\ (forall e, Adapter.r_chain env = Throw e ->
          Adapter.query APPLICATION_ID doc vars env w
          = (Throw e, Adapter.log (Adapter.EChain (Adapter.client c)
                                     (Adapter.chainId c)) w))
    /\ (forall e, Adapter.r_chain env = Ok tt ->
          Adapter.r_application env = Throw e ->
          fst (Adapter.query APPLICATION_ID doc vars env w) = Throw e
          /\ Adapter.trace w1 = Adapter.trace w ++ resolve
          /\ Adapter.appConnection w1 = None).
Proof.
  intros APP doc doc' vars vars' env env' w c Hc Ha Hid handle resolve w1.
  pose proof (send_unbound APP "Must connect wallet before querying"
                doc vars env w c Hc Ha Hid) as Hsend. cbv zeta in Hsend.
  split; [|split].
  - intros Hr1 Hr2. rewrite Hr1, Hr2 in Hsend.
    assert (Hw1 : w1 = Adapter.log (Adapter.EAppQuery handle
                         {| Adapter.pl_query := doc;
                            Adapter.pl_variables := Adapter.variables_or_empty vars |})
                      (Adapter.set_appConnection (Some (binding_under c APP))
                         (Adapter.log (Adapter.EApplication (Adapter.client c)
                                         (Adapter.chainId c) APP)
                            (Adapter.log (Adapter.EChain (Adapter.client c)
                                            (Adapter.chainId c)) w))))
      by (subst w1; exact (query_after_send _ _ _ _ _ _ _ Hsend)).
    rewrite Hw1. split; [|split].
    + cbn. now rewrite <- !app_assoc.
    + reflexivity.
    + erewrite query_after_send; [|eapply send_cached; [exact Hc|reflexivity]].
      reflexivity.
  - intros e Hr1. rewrite Hr1 in Hsend.
    unfold Adapter.query. unfold bind at 1. now rewrite Hsend.
  - intros e Hr1 Hr2. rewrite Hr1, Hr2 in Hsend.
    assert (Hq : Adapter.query APP doc vars env w
                 = (Throw e, Adapter.log (Adapter.EApplication (Adapter.client c)
                                            (Adapter.chainId c) APP)
                               (Adapter.log (Adapter.EChain (Adapter.client c)
                                               (Adapter.chainId c)) w)))
      by (unfold Adapter.query; unfold bind at 1; now rewrite Hsend).
    subst w1. rewrite Hq. cbn. rewrite <- app_assoc. rewrite Ha. auto.
Qed.

Lemma query_binds_lazily_once_witness :
  Adapter.connection demo_unbound = Some demo_connection
  /\ Adapter.appConnection demo_unbound = None
  /\ "app" <> ""
  /\ Adapter.r_chain (answering envelope_data) = Ok tt
  /\ Adapter.r_application (answering envelope_data) = Ok tt
  /\ Adapter.appConnection
       (snd (Adapter.query "app" "q" None (answering envelope_data) demo_unbound))
     = Some (binding_under demo_connection "app").
Proof.
  split; [reflexivity|]. split; [reflexivity|]. split; [discriminate|].
  split; [reflexivity|]. split; [reflexivity|].
  exact (proj1 (proj2 (proj1 (query_binds_lazily_once "app" "q" "q" None None
                  (answering envelope_data) (answering envelope_data)
                  demo_unbound demo_connection eq_refl eq_refl ltac:(discriminate))
                  eq_refl eq_refl))).
Defined.

(** X10.  Without a session, as after [disconnect], every call of the
    gateway rejects with its own message and does nothing: no request is
    sent and the adapter is unchanged. *)
Theorem not_connected_rejects :
  forall (APPLICATION_ID doc applicationId : string) (vars : value)
         (env : Adapter.Remote) (attempts : nat -> Adapter.Attempt)
         (sync_r chain_r app_r : result unit) (w : Adapter.World),
    Adapter.connection w = None ->
    Adapter.query APPLICATION_ID doc vars env w
    = (Throw (Error "Must connect wallet before querying"), w)
    /\ Adapter.mutate APPLICATION_ID doc vars env attempts w
       = (Throw (Error "Must connect wallet before mutating"), w)
    /\ Adapter.queryWithSync APPLICATION_ID doc vars sync_r env w
       = (Throw (Error "Must connect wallet before querying"), w)
    /\ Adapter.connectApplication applicationId chain_r app_r w
       = (Throw (Error "Must connect wallet before connecting to application"), w)
    /\ Adapter.getChainId w = (Throw (Error "Not connected"), w)
    /\ Adapter.getUserAddress w = (Throw (Error "Not connected"), w).
Proof.
  intros APP doc appId vars env attempts sync_r chain_r app_r w Hc.
  unfold Adapter.query, Adapter.mutate, Adapter.queryWithSync, Adapter.send,
    Adapter.connectApplication, Adapter.getChainId, Adapter.getUserAddress,
    bind, get, throw.
  rewrite Hc. repeat split.
Qed.

Lemma not_connected_rejects_witness :
  Adapter.connection (Adapter.disconnect demo_world) = None
  /\ Adapter.query "app" "q" None (answering envelope_data)
       (Adapter.disconnect demo_world)
     = (Throw (Error "Must connect wallet before querying"),
        Adapter.disconnect demo_world).
Proof.
  split; [reflexivity|].
  exact (proj1 (not_connected_rejects "app" "q" "app" None (answering envelope_data)
                  passing_attempts (Ok tt) (Ok tt) (Ok tt)
                  (Adapter.disconnect demo_world) eq_refl)).
Defined.

(** After its [send], [mutate] only adds to the trace. *)
Lemma mutate_after_send APPLICATION_ID doc vars env attempts
    (w w1 : Adapter.World) r :
  Adapter.send APPLICATION_ID "Must connect wallet before mutating" doc vars env w
  = (r, w1) ->
  exists evs, snd (Adapter.mutate APPLICATION_ID doc vars env attempts w) = logs evs w1.
Proof.
  intros Hsend. unfold Adapter.mutate. unfold bind at 1. rewrite Hsend.
  destruct r as [parsed|e]; [|exists []; now rewrite logs_nil].
  destruct (send_ok_connected _ _ _ _ _ _ _ _ Hsend) as [c Hc].
  unfold bind at 1.
  pose proof (check_errors_world "Mutation failed" parsed w1) as Hw.
  destruct (Adapter.check_errors "Mutation failed" parsed w1) as [[[]|e] w2];
    simpl in Hw; subst w2; [|exists []; now rewrite logs_nil].
  unfold bind at 1. rewrite (sync_loop_total c attempts 3 0 w1 Hc).
  eexists. now rewrite field_world.
Qed.

(** What [send] may do to the binding. *)
Lemma send_binding APPLICATION_ID msg doc vars env (w w1 : Adapter.World) r :
  Adapter.send APPLICATION_ID msg doc vars env w = (r, w1) ->
  Adapter.appConnection w1 = Adapter.appConnection w
  \/ (Adapter.appConnection w = None
      /\ exists c, Adapter.connection w = Some c
                   /\ Adapter.appConnection w1 = Some (binding_under c APPLICATION_ID)).
Proof.
  intros Hsend.
  destruct (Adapter.connection w) as [c|] eqn:Hc.
  - destruct (Adapter.appConnection w) as [a|] eqn:Ha.
    + rewrite (send_cached APPLICATION_ID msg doc vars env c a w Hc Ha) in Hsend.
      injection Hsend as _ <-. left. exact Ha.
    + destruct (String.eqb_spec APPLICATION_ID "") as [Hid|Hid].
      * left. revert Hsend. unfold Adapter.send. unfold bind at 1. unfold get.
        rewrite Hc. unfold bind at 1. rewrite Ha. unfold bind at 1.
        unfold Adapter.connectApplication. unfold bind at 1. unfold get.
        rewrite Hc, Ha. unfold Adapter.resolve_application. rewrite Hid.
        cbn. intros [= _ <-]. exact Ha.
      * pose proof (send_unbound APPLICATION_ID msg doc vars env w c Hc Ha Hid) as H.
        cbv zeta in H. rewrite H in Hsend.
        destruct (Adapter.r_chain env) as [[]|e];
          [destruct (Adapter.r_application env) as [[]|e]|];
          injection Hsend as _ <-; cbn; rewrite ?Ha; eauto.
  - left. revert Hsend. unfold Adapter.send. unfold bind at 1. unfold get.
    rewrite Hc. intros [= _ <-]. reflexivity.
Qed.

(** X11.  [query] and [mutate], whatever the network answers, leave the
    session, the memoized promise and the stored entries alone; the only
    thing they may do to the binding is to fill an empty cache with the
    handle of [APPLICATION_ID] resolved under the current connection. *)
Theorem remote_calls_frame :
  forall (APPLICATION_ID doc : string) (vars : value) (env : Adapter.Remote)
         (attempts : nat -> Adapter.Attempt) (w : Adapter.World) (call : bool),
    let w' := if call
              then snd (Adapter.query APPLICATION_ID doc vars env w)
              else snd (Adapter.mutate APPLICATION_ID doc vars env attempts w) in
    Adapter.connection w' = Adapter.connection w
    /\ Adapter.connectPromise w' = Adapter.connectPromise w
    /\ Adapter.localStorage w' = Adapter.localStorage w
    /\ Adapter.recentRooms w' = Adapter.recentRooms w
    /\ (Adapter.appConnection w' = Adapter.appConnection w
        \/ (Adapter.appConnection w = None
            /\ exists c, Adapter.connection w = Some c
                         /\ Adapter.appConnection w'
                            = Some (binding_under c APPLICATION_ID))).
Proof.
  intros APP doc vars env attempts w call w'.
  destruct call.
  - destruct (Adapter.send APP "Must connect wallet before querying" doc vars env w)
      as [r w1] eqn:Hsend.
    subst w'. rewrite (query_after_send _ _ _ _ _ _ _ Hsend).
    destruct (send_frame _ _ _ _ _ _ _ _ Hsend) as (H1 & H2 & H3 & H4 & _).
    repeat split; auto. exact (send_binding _ _ _ _ _ _ _ _ Hsend).
  - destruct (Adapter.send APP "Must connect wallet before mutating" doc vars env w)
      as [r w1] eqn:Hsend.
    destruct (mutate_after_send APP doc vars env attempts w w1 r Hsend) as [evs Hm].
    subst w'. rewrite Hm.
    destruct (send_frame _ _ _ _ _ _ _ _ Hsend) as (H1 & H2 & H3 & H4 & _).
    repeat split; auto. exact (send_binding _ _ _ _ _ _ _ _ Hsend).
Qed.

(** With no application id configured, the lazy binding fails and
    nothing is sent. *)
Lemma send_unconfigured msg doc vars env (w : Adapter.World) c :
  Adapter.connection w = Some c ->
  Adapter.appConnection w = None ->
  Adapter.send "" msg doc vars env w
  = (Throw (Error "Application ID is not configured"), w).
Proof.
  intros Hc Ha.
  assert (Hres : Adapter.connectApplication "" (Adapter.r_chain env)
                   (Adapter.r_application env) w
                 = (Throw (Error "Application ID is not configured"), w)).
  { unfold Adapter.connectApplication. unfold bind at 1. unfold get.
    now rewrite Hc, Ha. }
  unfold Adapter.send. unfold bind at 1. unfold get. rewrite Hc.
  unfold bind at 1. rewrite Ha. unfold bind at 1. rewrite Hres. reflexivity.
Qed.

(** Events already in the trace do not change what [send] does. *)
Lemma send_logs APPLICATION_ID msg doc vars env l (w : Adapter.World) :
  Adapter.send APPLICATION_ID msg doc vars env (logs l w)
  = (fst (Adapter.send APPLICATION_ID msg doc vars env w),
     splice (length (Adapter.trace w)) l
            (snd (Adapter.send APPLICATION_ID msg doc vars env w))).
Proof.
  assert (Hsame : splice (length (Adapter.trace w)) l w = logs l w).
  { unfold splice, logs. now rewrite firstn_all, skipn_all, app_nil_r. }
  assert (Hmore : forall evs a,
            splice (length (Adapter.trace w)) l
                   (Adapter.set_appConnection a (logs evs w))
            = Adapter.set_appConnection a (logs (l ++ evs) w)).
  { intros evs a. unfold splice, logs, Adapter.set_appConnection.
    cbn [Adapter.connection Adapter.appConnection Adapter.trace
         Adapter.connectPromise Adapter.localStorage Adapter.recentRooms].
    now rewrite take_app_length, drop_app_length, app_assoc. }
  assert (Hlogs : forall evs,
            splice (length (Adapter.trace w)) l (logs evs w) = logs (l ++ evs) w).
  { intros evs. unfold splice, logs.
    cbn [Adapter.connection Adapter.appConnection Adapter.trace
         Adapter.connectPromise Adapter.localStorage Adapter.recentRooms].
    now rewrite take_app_length, drop_app_length, app_assoc. }
  destruct (Adapter.connection w) as [c|] eqn:Hc.
  - destruct (Adapter.appConnection w) as [a|] eqn:Ha.
    + rewrite (send_cached APPLICATION_ID msg doc vars env c a w Hc Ha).
      rewrite (send_cached APPLICATION_ID msg doc vars env c a (logs l w) Hc Ha).
      cbn [fst snd]. rewrite !log_as_logs, logs_logs, Hlogs. reflexivity.
    + destruct (String.eqb_spec APPLICATION_ID "") as [Hid|Hid].
      * subst APPLICATION_ID.
        rewrite (send_unconfigured msg doc vars env w c Hc Ha).
        rewrite (send_unconfigured msg doc vars env (logs l w) c Hc Ha).
        cbn [fst snd]. now rewrite Hsame.
      * pose proof (send_unbound APPLICATION_ID msg doc vars env w c Hc Ha Hid) as H.
        pose proof (send_unbound APPLICATION_ID msg doc vars env (logs l w) c Hc Ha Hid)
          as H'.
        cbv zeta in H, H'. rewrite H, H'.
        rewrite !log_as_logs, !logs_logs.
        destruct (Adapter.r_chain env) as [[]|e];
          [destruct (Adapter.r_application env) as [[]|e]|]; cbn [fst snd].
        -- assert (Hset : forall a0 evs (w0 : Adapter.World),
                     logs evs (Adapter.set_appConnection a0 w0)
                     = Adapter.set_appConnection a0 (logs evs w0)) by reflexivity.
           rewrite !Hset, !logs_logs, Hmore.
           now rewrite <- !app_assoc.
        -- rewrite Hlogs. now rewrite <- ?app_assoc.
        -- rewrite Hlogs. reflexivity.
  - unfold Adapter.send, bind, get, throw.
    cbn [logs Adapter.connection]. rewrite Hc. cbn [fst snd].
    rewrite Hsame. reflexivity.
Qed.

(** What [query] answers is read off what its [send] gives. *)
Lemma query_answer_of_send APPLICATION_ID doc vars env (w w' w1 w1' : Adapter.World) r :
  Adapter.send APPLICATION_ID "Must connect wallet before querying" doc vars env w
  = (r, w1) ->
  Adapter.send APPLICATION_ID "Must connect wallet before querying" doc vars env w'
  = (r, w1') ->
  fst (Adapter.query APPLICATION_ID doc vars env w)
  = fst (Adapter.query APPLICATION_ID doc vars env w').
Proof.
  intros H H'.
  assert (Hq : forall u u1,
            Adapter.send APPLICATION_ID "Must connect wallet before querying"
                         doc vars env u = (r, u1) ->
            fst (Adapter.query APPLICATION_ID doc vars env u)
            = match r with
              | Throw e => Throw e
              | Ok JNull => Throw (Error "Cannot read properties of null (reading 'data')")
              | Ok parsed =>
                  match fst (Adapter.check_errors "Query failed" parsed w) with
                  | Ok _ => Ok (prop "data" parsed)
                  | Throw e => Throw e
                  end
              end).
  { intros u u1 Hu. unfold Adapter.query. unfold bind at 1. rewrite Hu.
    destruct r as [parsed|e]; [|reflexivity].
    unfold bind.
    destruct parsed; try reflexivity;
      cbn [Adapter.field]; unfold ret;
      match goal with
      | |- context [Adapter.check_errors ?f ?p u1] =>
          rewrite (surjective_pairing (Adapter.check_errors f p u1));
          rewrite (check_errors_any_world f p u1 w);
          destruct (fst (Adapter.check_errors f p w)) as [[]|?]; reflexivity
      end. }
  now rewrite (Hq _ _ H), (Hq _ _ H').
Qed.

(** X12.  [queryWithSync] gives exactly what [query] gives, whatever the
    chain sync before it does: a failed sync is logged and dropped.  The
    two calls leave the same adapter, except that the sync call and its
    warning, if any, come first in the trace. *)
Theorem queryWithSync_same_answer :
  forall (APPLICATION_ID doc : string) (vars : value) (sync_r : result unit)
         (env : Adapter.Remote) (w : Adapter.World) (c : Adapter.LineraConnection),
    Adapter.connection w = Some c ->
    Adapter.queryWithSync APPLICATION_ID doc vars sync_r env w
    = (fst (Adapter.query APPLICATION_ID doc vars env w),
       splice (length (Adapter.trace w)) (presync_events c sync_r)
              (snd (Adapter.query APPLICATION_ID doc vars env w))).
Proof.
  intros APP doc vars sync_r env w c Hc.
  unfold Adapter.queryWithSync. unfold bind at 1. unfold get. rewrite Hc.
  unfold bind at 1.
  assert (Hpre : try_catch
            (let* _ := Adapter.emit (Adapter.EChain (Adapter.client c) (Adapter.chainId c)) in
             await sync_r)
            (fun error => Adapter.emit (Adapter.EWarn error)) w
          = (Ok tt, logs (presync_events c sync_r) w)).
  { unfold try_catch, bind, Adapter.emit, modify, await, presync_events.
    destruct sync_r as [[]|e]; cbn [fst snd];
      now rewrite !log_as_logs, ?logs_logs. }
  rewrite Hpre.
  destruct (Adapter.send APP "Must connect wallet before querying" doc vars env w)
    as [r w1] eqn:Hsend.
  pose proof (send_logs APP "Must connect wallet before querying" doc vars env
                (presync_events c sync_r) w) as Hl.
  rewrite Hsend in Hl. cbn [fst snd] in Hl.
  rewrite (surjective_pairing (Adapter.query APP doc vars env w)).
  rewrite (query_after_send _ _ _ _ _ _ _ Hsend).
  rewrite (surjective_pairing (Adapter.query APP doc vars env (logs _ w))).
  rewrite (query_after_send _ _ _ _ _ _ _ Hl).
  cbn [fst snd]. f_equal.
  exact (query_answer_of_send _ _ _ _ _ _ _ _ _ Hl Hsend).
Qed.

Lemma queryWithSync_same_answer_witness :
  Adapter.connection demo_world = Some demo_connection
  /\ Adapter.queryWithSync "app" "q" None (Throw (Error "offline"))
       (answering envelope_data) demo_world
     = (fst (Adapter.query "app" "q" None (answering envelope_data) demo_world),
        splice (length (Adapter.trace demo_world))
               (presync_events demo_connection (Throw (Error "offline")))
               (snd (Adapter.query "app" "q" None (answering envelope_data)
                       demo_world))).
Proof.
  split; [reflexivity|].
  exact (queryWithSync_same_answer "app" "q" None (Throw (Error "offline"))
           (answering envelope_data) demo_world demo_connection eq_refl).
Defined.

(** ** More on [disconnect] *)

(** X13.  [disconnect] is idempotent.  It nulls the session and the
    binding, so that [getState] reports nothing; it removes entries from
    [localStorage] and adds none; and it leaves the memoized connect
    promise and the recent-room list as they were. *)
Theorem disconnect_idempotent :
  forall w : Adapter.World,
    Adapter.disconnect (Adapter.disconnect w) = Adapter.disconnect w
    /\ Adapter.getState (Adapter.disconnect w)
       = {| Adapter.isConnected := false; Adapter.st_chainId := None;
            Adapter.st_userAddress := None; Adapter.st_autoSignerAddress := None |}
    /\ Adapter.isApplicationConnected (Adapter.disconnect w) = false
    /\ Adapter.localStorage (Adapter.disconnect w) ⊆ Adapter.localStorage w
    /\ Adapter.connectPromise (Adapter.disconnect w) = Adapter.connectPromise w
    /\ Adapter.recentRooms (Adapter.disconnect w) = Adapter.recentRooms w.
Proof.
  intros w. split; [|repeat split].
  - assert (Hs : Adapter.localStorage (Adapter.disconnect (Adapter.disconnect w))
                 = Adapter.localStorage (Adapter.disconnect w)).
    { apply map_eq. intros k. rewrite (disconnect_lookup (Adapter.disconnect w) k).
      repeat case_bool_decide; subst;
        try (rewrite disconnect_lookup; repeat case_bool_decide; congruence).
      destruct (Adapter.mnemonic_key k) eqn:Hk; [|reflexivity].
      rewrite disconnect_lookup. repeat case_bool_decide; try reflexivity.
      now rewrite Hk. }
    assert (Hd : forall u,
              Adapter.disconnect u
              = {| Adapter.connection := None; Adapter.appConnection := None;
                   Adapter.connectPromise := Adapter.connectPromise u;
                   Adapter.localStorage := Adapter.localStorage (Adapter.disconnect u);
                   Adapter.recentRooms := Adapter.recentRooms u;
                   Adapter.trace := Adapter.trace u |}) by reflexivity.
    rewrite (Hd (Adapter.disconnect w)), Hs. reflexivity.
  - apply map_subseteq_spec. intros k v. rewrite disconnect_lookup.
    repeat case_bool_decide; try discriminate.
    now destruct (Adapter.mnemonic_key k).
Qed.

(** ** The connection without a wallet *)

(** X14.  On an adapter with no session and no attempt in flight, a
    [connectWithPrivateKey] whose steps all succeed creates a wallet,
    claims one partition for the fresh key, builds the client and opens
    the partition, with no [setOwner] request; the session it stores has
    the key's address both as user and as auto-signer; it writes the
    partition and the address to [localStorage] and nothing else; the
    memoized promise is cleared again and the state it returns is the
    adapter's. *)
Theorem private_key_connect_establishes :
  forall (faucetUrl : string) (s : PrivateKey.KeyScript) (p : nat)
         (inflight : Adapter.M unit) (w : Adapter.World)
         (wl : nat) (sg ch : string),
    Adapter.connection w = None ->
    Adapter.connectPromise w = None ->
    key_failure s = None ->
    PrivateKey.k_wallet s = Ok wl ->
    PrivateKey.k_signer s = Ok sg ->
    PrivateKey.k_claim s = Ok ch ->
    PrivateKey.connectWithPrivateKey faucetUrl s p inflight w
    = (Ok {| Adapter.isConnected := true; Adapter.st_chainId := Some ch;
             Adapter.st_userAddress := Some sg;
             Adapter.st_autoSignerAddress := Some sg |},
       key_connected faucetUrl wl sg ch w).
Proof.
  intros faucetUrl s p inflight w wl sg ch Hc Hp Hf Hw Hs Hcl.
  destruct s as [wasm load wallet signer claim client chain].
  unfold key_failure in Hf. simpl in Hf, Hw, Hs, Hcl. subst wallet signer claim.
  destruct wasm as [[]|?]; [|discriminate].
  destruct load as [[]|?]; [|discriminate].
  destruct client as [[]|?]; [|discriminate].
  destruct chain as [[]|?]; [|discriminate].
  destruct w as [c a q ls rr tr]. simpl in Hc, Hp. subst c q.
  unfold PrivateKey.connectWithPrivateKey, PrivateKey.performConnectWithPrivateKey,
    PrivateKey.finally, key_connected, established, logs,
    Adapter.setItem, Adapter.set_localStorage, Adapter.set_connection,
    Adapter.set_connectPromise, Adapter.emit, Adapter.log, Adapter.getState,
    bind, try_catch, get, ret, modify, await.
  cbn. rewrite <- !app_assoc. reflexivity.
Qed.

Lemma private_key_connect_establishes_witness :
  PrivateKey.connectWithPrivateKey "https://faucet" good_key_script 0
    (ret tt) Adapter.initial
  = (Ok {| Adapter.isConnected := true; Adapter.st_chainId := Some "chain-k";
           Adapter.st_userAddress := Some "0xkey";
           Adapter.st_autoSignerAddress := Some "0xkey" |},
     key_connected "https://faucet" 9 "0xkey" "chain-k" Adapter.initial).
Proof.
  exact (private_key_connect_establishes "https://faucet" good_key_script 0 (ret tt)
           Adapter.initial 9 "0xkey" "chain-k"
           eq_refl eq_refl eq_refl eq_refl eq_refl eq_refl).
Defined.

(** What a call of [connectWithPrivateKey] that finds no attempt in
    flight can have done to [localStorage]. *)
Lemma key_connect_storage faucetUrl s p inflight (w : Adapter.World) :
  Adapter.connectPromise w = None ->
  let w' := snd (PrivateKey.connectWithPrivateKey faucetUrl s p inflight w) in
  Adapter.localStorage w' = Adapter.localStorage w
  \/ exists sg ch,
       Adapter.localStorage w'
       = <["chaincycles_user_address" := sg]>
           (<["chaincycles_chain_id" := ch]> (Adapter.localStorage w)).
Proof.
  intros Hp w'. subst w'.
  destruct w as [c a q ls rr tr]. simpl in Hp. subst q.
  destruct c as [c|]; [left; reflexivity|].
  destruct s as [wasm load wallet signer claim client chain].
  destruct wasm as [[]|?]; [|left; reflexivity].
  destruct load as [[]|?]; [|left; reflexivity].
  destruct wallet as [wl|?]; [|left; reflexivity].
  destruct signer as [sg|?]; [|left; reflexivity].
  destruct claim as [ch|?]; [|left; reflexivity].
  destruct client as [[]|?]; [|left; reflexivity].
  destruct chain as [[]|?]; [|left; reflexivity].
  right. exists sg, ch. reflexivity.
Qed.

(** X15.  A session made by [connectWithPrivateKey] leaves nothing behind
    in [localStorage]: whatever the steps of the call do, a [disconnect]
    after it leaves the entries a [disconnect] before it would have left.
    (The call is one that finds no attempt in flight.) *)
Theorem private_key_session_leaves_no_residue :
  forall (faucetUrl : string) (s : PrivateKey.KeyScript) (p : nat)
         (inflight : Adapter.M unit) (w : Adapter.World),
    Adapter.connectPromise w = None ->
    Adapter.localStorage
      (Adapter.disconnect
         (snd (PrivateKey.connectWithPrivateKey faucetUrl s p inflight w)))
    = Adapter.localStorage (Adapter.disconnect w).
Proof.
  intros faucetUrl s p inflight w Hp.
  apply map_eq. intros k. rewrite !disconnect_lookup.
  destruct (key_connect_storage faucetUrl s p inflight w Hp) as [H|(sg & ch & H)];
    rewrite H; [reflexivity|].
  repeat case_bool_decide; try reflexivity.
  destruct (Adapter.mnemonic_key k); [reflexivity|].
  now rewrite !lookup_insert_ne by congruence.
Qed.

Lemma private_key_session_leaves_no_residue_witness :
  Adapter.connectPromise Adapter.initial = None
  /\ Adapter.localStorage
       (Adapter.disconnect
          (snd (PrivateKey.connectWithPrivateKey "https://faucet" good_key_script 0
                  (ret tt) Adapter.initial)))
     = Adapter.localStorage (Adapter.disconnect Adapter.initial).
Proof.
  split; [reflexivity|].
  exact (private_key_session_leaves_no_residue "https://faucet" good_key_script 0
           (ret tt) Adapter.initial eq_refl).
Defined.

(** X16.  A [connectWithPrivateKey] one of whose steps fails rejects with
    the error of the first failing step, as it is; afterwards there is no
    session and no memoized promise, the stored entries, the application
    binding and the recent-room list are what they were, and at most one
    partition has been asked for. *)
Theorem private_key_connect_failure :
  forall (faucetUrl : string) (s : PrivateKey.KeyScript) (p : nat)
         (inflight : Adapter.M unit) (w : Adapter.World) (e : exn),
    Adapter.connection w = None ->
    Adapter.connectPromise w = None ->
    key_failure s = Some e ->
    let r := PrivateKey.connectWithPrivateKey faucetUrl s p inflight w in
    fst r = Throw e
    /\ Adapter.connection (snd r) = None
    /\ Adapter.connectPromise (snd r) = None
    /\ Adapter.localStorage (snd r) = Adapter.localStorage w
    /\ Adapter.appConnection (snd r) = Adapter.appConnection w
    /\ Adapter.recentRooms (snd r) = Adapter.recentRooms w
    /\ (Adapter.claims (snd r) <= Adapter.claims w + 1)%nat.
Proof.
  intros faucetUrl s p inflight w e Hc Hp Hf r. subst r.
  destruct w as [c a q ls rr tr]. simpl in Hc, Hp. subst c q.
  destruct s as [wasm load wallet signer claim client chain].
  unfold key_failure in Hf. cbn in Hf.
  assert (Hcw : forall f,
            filter (fun e0 => Adapter.is_claim e0 = true) [Adapter.ECreateWallet f] = []).
  { intros f. now rewrite filter_cons_False by (cbn; discriminate). }
  assert (Hcl : forall f wl sg,
            filter (fun e0 => Adapter.is_claim e0 = true) [Adapter.EClaimChain f wl sg]
            = [Adapter.EClaimChain f wl sg]).
  { intros f wl sg. now rewrite filter_cons_True by reflexivity. }
  assert (Hnc : forall wl sg,
            filter (fun e0 => Adapter.is_claim e0 = true) [Adapter.ENewClient wl sg] = []).
  { intros wl sg. now rewrite filter_cons_False by (cbn; discriminate). }
  assert (Hch : forall cl ch,
            filter (fun e0 => Adapter.is_claim e0 = true) [Adapter.EChain cl ch] = []).
  { intros cl ch. now rewrite filter_cons_False by (cbn; discriminate). }
  destruct wasm as [[]|?]; [destruct load as [[]|?]; [destruct wallet as [wl|?];
    [destruct signer as [sg|?]; [destruct claim as [ch|?];
      [destruct client as [[]|?]; [destruct chain as [[]|?]|]|]|]|]|]|];
    try discriminate; injection Hf as <-;
    cbn -[filter]; unfold Adapter.claims; cbn -[filter];
    repeat split;
    rewrite ?filter_app, ?length_app, ?Hcw, ?Hcl, ?Hnc, ?Hch; cbn [length]; lia.
Qed.

Lemma private_key_connect_failure_witness :
  Adapter.connection Adapter.initial = None
  /\ Adapter.connectPromise Adapter.initial = None
  /\ key_failure refused_key_script = Some (Error "faucet is dry")
  /\ fst (PrivateKey.connectWithPrivateKey "https://faucet" refused_key_script 0
            (ret tt) Adapter.initial)
     = Throw (Error "faucet is dry").
Proof.
  split; [reflexivity|]. split; [reflexivity|]. split; [reflexivity|].
  exact (proj1 (private_key_connect_failure "https://faucet" refused_key_script 0
                  (ret tt) Adapter.initial (Error "faucet is dry")
                  eq_refl eq_refl eq_refl)).
Defined.

(** X17.  [connectWithPrivateKey] starts nothing when the adapter has a
    session, whoever it belongs to: it returns the current state and
    leaves the adapter as it is.  With no session and an attempt in
    flight it waits for that attempt and starts none of its own: the
    adapter is what the attempt in flight made of it, the answer is the
    state read after it, and a rejection of it is passed on. *)
Theorem private_key_connect_early_returns :
  forall (faucetUrl : string) (s : PrivateKey.KeyScript) (p : nat)
         (inflight : Adapter.M unit) (w : Adapter.World),
    (is_Some (Adapter.connection w) ->
     PrivateKey.connectWithPrivateKey faucetUrl s p inflight w
     = (Ok (Adapter.getState w), w))
    /\ (Adapter.connection w = None ->
        is_Some (Adapter.connectPromise w) ->
        PrivateKey.connectWithPrivateKey faucetUrl s p inflight w
        = (match fst (inflight w) with
           | Ok _ => Ok (Adapter.getState (snd (inflight w)))
           | Throw e => Throw e
           end, snd (inflight w))).
Proof.
  intros faucetUrl s p inflight w. split.
  - intros [c Hc]. unfold PrivateKey.connectWithPrivateKey, bind, get, ret.
    now rewrite Hc.
  - intros Hc [q Hq]. unfold PrivateKey.connectWithPrivateKey. unfold bind at 1.
    unfold get. rewrite Hc, Hq. unfold bind, ret.
    now destruct (inflight w) as [[[]|e] w1].
Qed.

Lemma private_key_connect_early_returns_witness :
  is_Some (Adapter.connection demo_world)
  /\ PrivateKey.connectWithPrivateKey "https://faucet" good_key_script 0 (ret tt)
       demo_world
     = (Ok (Adapter.getState demo_world), demo_world).
Proof.
  assert (H : is_Some (Adapter.connection demo_world)) by (eexists; reflexivity).
  split; [exact H|].
  exact (proj1 (private_key_connect_early_returns "https://faucet" good_key_script
                  0%nat (ret tt) demo_world) H).
Defined.

(** ** Invariants of the poll loop *)

Section PollInvariants.
Import GameApi.

Context {S : Type}.
Variable stringify : value -> option string.
Variable callback : value -> S -> S.
Variables interval maxInterval : Q.
Variable maxPolls : Z.

(** A property every turn of the event loop keeps holds after any run. *)
Lemma poll_run_keeps (I : Poll * S -> Prop) :
  (forall ps ev, I ps ->
     I (poll_step stringify callback interval maxInterval maxPolls ps ev)) ->
  forall evs ps, I ps ->
    I (poll_run stringify callback interval maxInterval maxPolls ps evs).
Proof.
  intros Hstep. unfold poll_run.
  induction evs as [|ev evs IH]; intros ps Hps; [exact Hps|].
  cbn [fold_left]. apply IH, Hstep, Hps.
Qed.

Lemma poll_head_on_budget p :
  on_budget maxPolls p -> on_budget maxPolls (poll_head maxPolls p).
Proof.
  unfold on_budget, poll_head. intros [Hr Hb].
  destruct (running p) eqn:Er; cbn [negb].
  - specialize (Hr eq_refl).
    destruct (Z.ltb_spec maxPolls (pollCount p + 1)); cbn; split; try lia;
      try discriminate.
  - cbn. split; [congruence|exact Hb].
Qed.

Lemma poll_head_in_step p :
  pending p = Scheduled -> in_step p -> in_step (poll_head maxPolls p).
Proof.
  unfold in_step, poll_head. intros -> H.
  destruct (running p); cbn [negb]; [|cbn; lia].
  destruct (Z.ltb_spec maxPolls (pollCount p + 1)); cbn; lia.
Qed.

Lemma poll_step_budget ps ev :
  on_budget maxPolls (fst ps) /\ in_step (fst ps) ->
  on_budget maxPolls
    (fst (poll_step stringify callback interval maxInterval maxPolls ps ev))
  /\ in_step (fst (poll_step stringify callback interval maxInterval maxPolls ps ev)).
Proof.
  destruct ps as [p s]. cbn [fst]. intros [Hb Hs].
  unfold poll_step. cbn [fst snd].
  destruct ev as [|r|]; destruct (pending p) eqn:Ep; cbn [fst]; auto.
  - split; [now apply poll_head_on_budget|now apply poll_head_in_step].
  - unfold poll_tail, compare, reschedule.
    unfold on_budget, in_step in *. rewrite Ep in Hs.
    destruct r as [room|e];
      [destruct (bool_decide (Some (stringify room) <> lastRoom p))|];
      cbn [fst snd running fetches pollCount timers pending];
      destruct (running p) eqn:Er;
      cbn [fst snd running fetches pollCount timers pending];
      rewrite ?length_app; cbn [length]; repeat split; try tauto; try lia.
  - unfold on_budget, in_step, cancel in *. cbn.
    split; [split; [discriminate|tauto]|exact Hs].
  - unfold on_budget, in_step, cancel in *. cbn.
    split; [split; [discriminate|tauto]|exact Hs].
  - unfold on_budget, in_step, cancel in *. cbn.
    split; [split; [discriminate|tauto]|exact Hs].
Qed.

Lemma poll_step_delays ps ev :
  (0 <= interval)%Q -> (interval <= maxInterval)%Q ->
  delays_within interval maxInterval (fst ps) ->
  delays_within interval maxInterval
    (fst (poll_step stringify callback interval maxInterval maxPolls ps ev)).
Proof.
  intros H0 Hle. destruct ps as [p s]. cbn [fst]. intros [[Hlo Hhi] Ht].
  assert (Hgrow : (interval <= Qmin (currentInterval p * (3 # 2)) maxInterval
                   <= maxInterval)%Q).
  { split; [apply Q.min_glb; [lra|exact Hle]|apply Q.le_min_r]. }
  unfold poll_step. cbn [fst snd].
  destruct ev as [|r|]; destruct (pending p) eqn:Ep; cbn [fst];
    try (split; [split|]; assumption).
  - unfold poll_head, delays_within.
    destruct (running p); cbn [negb]; [|cbn; auto].
    destruct (Z.ltb maxPolls (pollCount p + 1)); cbn; auto.
  - unfold poll_tail, compare, reschedule, delays_within.
    destruct r as [room|e];
      [destruct (bool_decide (Some (stringify room) <> lastRoom p))|];
      cbn [fst snd running currentInterval timers];
      destruct (running p);
      cbn [fst snd running currentInterval timers];
      repeat split; try assumption; try lra; try apply Hgrow;
      try (apply Forall_app; split; [assumption|]);
      repeat constructor; try assumption; try lra; try apply Hgrow.
Qed.

End PollInvariants.

Lemma no_repeat_snoc {A : Type} (l : list A) (x : A) :
  no_repeat l -> last l <> Some x -> no_repeat (l ++ [x]).
Proof.
  induction l as [|a t IH]; intros Hl Hx; [cbn; auto|].
  destruct t as [|b t'].
  - cbn in *. repeat split; auto. congruence.
  - destruct Hl as [Hab Ht]. cbn [app no_repeat]. split; [exact Hab|].
    apply IH; [exact Ht|exact Hx].
Qed.

Lemma poll_step_notified
    (stringify : value -> option string) (interval maxInterval : Q) (maxPolls : Z)
    (ps : GameApi.Poll * list value) (ev : GameApi.poll_event) :
  notified_once stringify ps ->
  notified_once stringify
    (GameApi.poll_step stringify record interval maxInterval maxPolls ps ev).
Proof.
  destruct ps as [p seen]. unfold notified_once. cbn [fst snd]. intros [Hl Hn].
  unfold GameApi.poll_step. cbn [fst snd].
  destruct ev as [|r|]; destruct (GameApi.pending p) eqn:Ep; cbn [fst snd]; auto.
  - unfold GameApi.poll_head.
    destruct (GameApi.running p); cbn [negb]; [|cbn; auto].
    destruct (Z.ltb maxPolls (GameApi.pollCount p + 1)); cbn; auto.
  - unfold GameApi.poll_tail, GameApi.compare, GameApi.reschedule.
    destruct r as [room|e].
    + case_bool_decide as Hd.
      * cbn [fst snd GameApi.running GameApi.lastRoom].
        assert (Hgoal : Some (stringify room) = stringify <$> last (record room seen)
                        /\ no_repeat (map stringify (record room seen))).
        { unfold record. rewrite last_snoc, map_app. cbn [map fmap option_fmap option_map].
          split; [reflexivity|].
          apply no_repeat_snoc; [exact Hn|].
          rewrite Hl in Hd. intros Heq. apply Hd.
          rewrite <- Heq. clear. induction seen as [|a [|b t] IH]; cbn; auto. }
        destruct (GameApi.running p); cbn; exact Hgoal.
      * cbn [fst snd GameApi.running GameApi.lastRoom].
        destruct (GameApi.running p); cbn; auto.
    + destruct (GameApi.running p); cbn; auto.
Qed.

(** X18.  However timers, fetch results and calls of the cancel function
    are interleaved, a poll loop starts at most [maxPolls] fetches (none
    when [maxPolls] is negative), and its timers and fetches alternate:
    the timers set so far are as many as the fetches started, or one
    fewer. *)
Theorem poll_fetch_budget :
  forall (St : Type) (stringify : value -> option string) (callback : value -> St -> St)
         (interval maxInterval : Q) (maxPolls : Z) (s : St)
         (evs : list GameApi.poll_event),
    let p := fst (GameApi.poll_run stringify callback interval maxInterval maxPolls
                    (GameApi.pollRoomUpdates interval maxPolls, s) evs) in
    Z.of_nat (GameApi.fetches p) <= Z.max 0 maxPolls
    /\ (length (GameApi.timers p) <= GameApi.fetches p
        <= S (length (GameApi.timers p)))%nat.
Proof.
  intros St stringify callback interval maxInterval maxPolls s evs p.
  assert (H : on_budget maxPolls p /\ in_step p).
  { subst p.
    apply (poll_run_keeps stringify callback interval maxInterval maxPolls
             (fun ps => on_budget maxPolls (fst ps) /\ in_step (fst ps))).
    - intros ps ev. apply poll_step_budget.
    - cbn [fst]. unfold GameApi.pollRoomUpdates, GameApi.poll_head, on_budget, in_step.
      cbn [GameApi.running negb GameApi.pollCount].
      destruct (Z.ltb_spec maxPolls (0 + 1)); cbn; repeat split; try lia;
        discriminate. }
  destruct H as [[_ Hb] Hs]. split; [exact Hb|].
  unfold in_step in Hs. destruct (GameApi.pending p); lia.
Qed.

(** X19.  With [0 <= interval <= maxInterval], every delay a poll loop
    ever passes to [setTimeout] lies between [interval] and
    [maxInterval], whatever the fetches return and in whatever order the
    events come. *)
Theorem poll_delays_bounded :
  forall (St : Type) (stringify : value -> option string) (callback : value -> St -> St)
         (interval maxInterval : Q) (maxPolls : Z) (s : St)
         (evs : list GameApi.poll_event),
    (0 <= interval)%Q ->
    (interval <= maxInterval)%Q ->
    Forall (fun d => (interval <= d <= maxInterval)%Q)
      (GameApi.timers
         (fst (GameApi.poll_run stringify callback interval maxInterval maxPolls
                 (GameApi.pollRoomUpdates interval maxPolls, s) evs))).
Proof.
  intros St stringify callback interval maxInterval maxPolls s evs H0 Hle.
  apply (poll_run_keeps stringify callback interval maxInterval maxPolls
           (fun ps => delays_within interval maxInterval (fst ps))).
  - intros ps ev. now apply poll_step_delays.
  - cbn [fst]. unfold GameApi.pollRoomUpdates, GameApi.poll_head, delays_within.
    cbn [GameApi.running negb GameApi.pollCount].
    destruct (Z.ltb maxPolls (0 + 1)); cbn; repeat split;
      try lra; try assumption; constructor.
Qed.

Lemma poll_delays_bounded_witness :
  (0 <= 2000 # 1)%Q /\ (2000 # 1 <= 5000 # 1)%Q
  /\ Forall (fun d => (2000 # 1 <= d <= 5000 # 1)%Q)
       (GameApi.timers
          (fst (GameApi.poll_run demo_stringify record (2000 # 1) (5000 # 1) 100
                  (GameApi.pollRoomUpdates (2000 # 1) 100, [])
                  (GameApi.feed [room_A; room_A; room_B])))).
Proof.
  assert (H0 : (0 <= 2000 # 1)%Q) by (unfold Qle; simpl; lia).
  assert (H1 : (2000 # 1 <= 5000 # 1)%Q) by (unfold Qle; simpl; lia).
  split; [exact H0|]. split; [exact H1|].
  exact (poll_delays_bounded (list value) demo_stringify record (2000 # 1) (5000 # 1)
           100 [] (GameApi.feed [room_A; room_A; room_B]) H0 H1).
Defined.

(** X20.  A poll loop never hands two snapshots with the same
    [JSON.stringify] text to its callback in a row, and the text it
    remembers is that of the last snapshot it handed over, whatever the
    fetches return and in whatever order the events come. *)
Theorem poll_notifies_changes_only :
  forall (stringify : value -> option string) (interval maxInterval : Q)
         (maxPolls : Z) (evs : list GameApi.poll_event),
    let r := GameApi.poll_run stringify record interval maxInterval maxPolls
               (GameApi.pollRoomUpdates interval maxPolls, []) evs in
    no_repeat (map stringify (snd r))
    /\ GameApi.lastRoom (fst r) = stringify <$> last (snd r).
Proof.
  intros stringify interval maxInterval maxPolls evs r.
  assert (H : notified_once stringify r).
  { subst r.
    apply (poll_run_keeps stringify record interval maxInterval maxPolls
             (notified_once stringify)).
    - intros ps ev. apply poll_step_notified.
    - unfold notified_once, GameApi.pollRoomUpdates, GameApi.poll_head.
      cbn [fst snd GameApi.running negb GameApi.pollCount].
      destruct (Z.ltb maxPolls (0 + 1)); cbn; auto. }
  destruct H as [Hl Hn]. split; assumption.
Qed.

(** ** More on the game calls *)

(** The answer of [queryWithSync] is the answer of [query]. *)
Lemma queryWithSync_answer APPLICATION_ID doc vars sync_r env (w : Adapter.World) :
  fst (Adapter.queryWithSync APPLICATION_ID doc vars sync_r env w)
  = fst (Adapter.query APPLICATION_ID doc vars env w).
Proof.
  destruct (Adapter.connection w) as [c|] eqn:Hc.
  - unfold Adapter.queryWithSync. unfold bind at 1. unfold get. rewrite Hc.
    unfold bind at 1.
    assert (Hpre : try_catch
              (let* _ := Adapter.emit (Adapter.EChain (Adapter.client c) (Adapter.chainId c)) in
               await sync_r)
              (fun error => Adapter.emit (Adapter.EWarn error)) w
            = (Ok tt, logs (presync_events c sync_r) w)).
    { unfold try_catch, bind, Adapter.emit, modify, await, presync_events.
      destruct sync_r as [[]|e]; cbn [fst snd];
        now rewrite !log_as_logs, ?logs_logs. }
    rewrite Hpre.
    eapply query_answer_of_send; [apply send_logs|apply surjective_pairing].
  - unfold Adapter.queryWithSync, Adapter.query, Adapter.send, bind, get, throw.
    now rewrite Hc.
Qed.

(** X21.  [getRoomSynced] answers what [getRoom] would have answered on
    the same adapter and the same reply, be it a room, [null] or a
    rejection: the chain sync before the query never changes the answer. *)
Theorem getRoomSynced_agrees_with_getRoom :
  forall (APPLICATION_ID : string) (env : GameApi.SyncEnv) (w : Adapter.World),
    fst (GameApi.getRoomSynced APPLICATION_ID env w)
    = fst (GameApi.getRoom APPLICATION_ID (GameApi.sq_remote env) w).
Proof.
  intros APP env w. unfold GameApi.getRoomSynced, GameApi.getRoom, bind.
  pose proof (queryWithSync_answer APP GameApi.GET_ROOM None (GameApi.sq_sync env)
                (GameApi.sq_remote env) w) as H.
  destruct (Adapter.queryWithSync APP GameApi.GET_ROOM None (GameApi.sq_sync env)
              (GameApi.sq_remote env) w) as [r1 w1].
  destruct (Adapter.query APP GameApi.GET_ROOM None (GameApi.sq_remote env) w)
    as [r2 w2].
  cbn [fst] in H. subst r2.
  destruct r1 as [v|e]; [|reflexivity].
  destruct v as [j|]; [|reflexivity].
  now destruct j.
Qed.

(** X22.  On a bound session, when the reply parses to an object whose
    [errors] is absent or falsy, [getRoom] returns the [room] member of
    its [data]; if the reply has no [data], or a [null] one, [getRoom]
    rejects with the [TypeError] of reading [room] on it. *)
Theorem getRoom_reads_envelope :
  forall (APPLICATION_ID : string) (env : Adapter.Remote) (w : Adapter.World)
         (c : Adapter.LineraConnection) (a : Adapter.ApplicationConnection)
         (fields : list (string * json)),
    Adapter.connection w = Some c ->
    Adapter.appConnection w = Some a ->
    Adapter.r_reply env = Adapter.Reply (JObj fields) ->
    truthy (assoc "errors" fields) = false ->
    fst (GameApi.getRoom APPLICATION_ID env w) = room_of_envelope fields.
Proof.
  intros APP env w c a fields Hc Ha Hr Herr.
  unfold GameApi.getRoom. unfold bind at 1. unfold Adapter.query. unfold bind at 1.
  rewrite (send_cached APP _ GameApi.GET_ROOM None env c a w Hc Ha), Hr.
  cbn [Adapter.parse_reply]. unfold bind at 1. cbn [Adapter.field]. unfold ret at 1.
  unfold bind at 1. rewrite check_errors_object.
  unfold room_of_envelope, prop.
  destruct (assoc "errors" fields) as [e|].
  - rewrite Herr. cbn [Adapter.field prop]. unfold ret.
    destruct (assoc "data" fields) as [d|]; [|reflexivity]. now destruct d.
  - cbn [Adapter.field prop]. unfold ret.
    destruct (assoc "data" fields) as [d|]; [|reflexivity]. now destruct d.
Qed.

Lemma getRoom_reads_envelope_witness :
  fst (GameApi.getRoom "app" (answering envelope_bare) demo_world)
  = Throw (Error "Cannot read properties of undefined (reading 'room')").
Proof.
  exact (getRoom_reads_envelope "app" (answering envelope_bare) demo_world
           demo_connection demo_binding [] eq_refl eq_refl eq_refl eq_refl).
Defined.



(** ** More on the game store *)

Section StoreInvariants.
Import Adapter GameApi Store.

(** [stopPolling] cancels the loop the store holds and forgets it. *)
Lemma stopPolling_cancels a :
  let a' := snd (stopPolling a) in
  pollCanceller (store a') = None
  /\ installs a' = installs a
  /\ world a' = world a
  /\ room (store a') = room (store a)
  /\ isLoading (store a') = isLoading (store a)
  /\ error (store a') = error (store a)
  /\ length (pollers a') = length (pollers a)
  /\ (forall n p', pollers a' !! n = Some p' ->
        exists p, pollers a !! n = Some p
                  /\ (running p' = true ->
                      running p = true /\ pollCanceller (store a) <> Some n)).
Proof.
  unfold stopPolling, bind, get, modify, ret.
  destruct (pollCanceller (store a)) as [k|] eqn:Hk; cbn [fst snd store installs
    world pollers set_pollCanceller pollCanceller room isLoading error].
  - repeat split; auto.
    + now rewrite length_alter.
    + intros n p' Hn. destruct (decide (k = n)) as [->|Hne].
      * rewrite list_lookup_alter_eq in Hn.
        destruct (pollers a !! n) as [p|]; simpl in Hn; [|discriminate].
        injection Hn as <-. exists p. split; [reflexivity|]. cbn. discriminate.
      * rewrite list_lookup_alter_ne in Hn by exact Hne.
        exists p'. split; [exact Hn|]. intros Hr. split; [exact Hr|congruence].
  - repeat split; auto. intros n p' Hn. exists p'. split; [exact Hn|].
    intros Hr. split; [exact Hr|discriminate].
Qed.

(** [startPolling]: the store's loop, if it holds one, is cancelled; a
    new loop is started and its number handed to the [.then] callback. *)
Lemma startPolling_appends a :
  let a0 := snd (stopPolling a) in
  startPolling a
  = (Ok tt,
     {| store := store a0; world := world a0;
        pollers := pollers a0 ++ [pollRoomUpdates (2000 # 1) 100];
        installs := installs a0 ++ [length (pollers a0)] |}).
Proof.
  cbv zeta. unfold startPolling, bind, modify.
  destruct (stopPolling_frame a) as (Hok & _).
  destruct (stopPolling a) as [r a0]. cbn [fst snd] in *. now subst r.
Qed.

End StoreInvariants.

(** X24.  [stopPolling] stops the loop that [startPolling] started only
    once the [.then] callback of [startPolling] has installed its cancel
    function.  Once it has, [stopPolling] cancels that loop and forgets
    it.  Before it has, [stopPolling] does nothing; and if a second
    [startPolling] follows in the same turn, the two callbacks then run
    one after the other, the store holds the cancel function of the
    second loop only, and after a [stopPolling] the first loop is still
    running. *)
Theorem stopPolling_needs_installed_canceller :
  forall a : Store.App,
    Store.installs a = [] ->
    let n := length (Store.pollers a) in
    let loop := GameApi.pollRoomUpdates (2000 # 1) 100 in
    let a1 := snd (Store.startPolling a) in
    let late := snd (Store.stopPolling (Store.run_installs a1)) in
    let a2 := snd (Store.stopPolling a1) in
    let a3 := Store.run_installs (snd (Store.startPolling a2)) in
    let a4 := snd (Store.stopPolling a3) in
    GameApi.running loop = true
    /\ GameApi.pending loop = GameApi.InFlight
    /\ Store.pollers a1 !! n = Some loop
    /\ Store.pollers late !! n = Some (GameApi.cancel loop)
    /\ Store.pollCanceller (Store.store late) = None
    /\ a2 = a1
    /\ Store.pollers a3 !! n = Some loop
    /\ Store.pollers a3 !! S n = Some loop
    /\ Store.pollCanceller (Store.store a3) = Some (S n)
    /\ Store.pollers a4 !! n = Some loop
    /\ Store.pollers a4 !! S n = Some (GameApi.cancel loop)
    /\ Store.pollCanceller (Store.store a4) = None.
Proof.
  intros a Hi n loop a1 late a2 a3 a4.
  destruct (stopPolling_cancels a) as (Hc0 & Hi0 & _ & _ & _ & _ & Hlen0 & _).
  cbv zeta in Hc0, Hi0, Hlen0.
  set (a0 := snd (Store.stopPolling a)) in *.
  assert (Ha1 : a1 = {| Store.store := Store.store a0; Store.world := Store.world a0;
                        Store.pollers := Store.pollers a0 ++ [loop];
                        Store.installs := [n] |}).
  { subst a1. rewrite startPolling_appends. cbn [snd]. fold a0.
    now rewrite Hi0, Hi, Hlen0. }
  assert (Hstop : forall b, Store.pollCanceller (Store.store b) = None ->
                            Store.stopPolling b = (Ok tt, b)).
  { intros b Hb. unfold Store.stopPolling, bind, get. now rewrite Hb. }
  assert (Hstop' : forall b k, Store.pollCanceller (Store.store b) = Some k ->
            snd (Store.stopPolling b)
            = {| Store.store := Store.set_pollCanceller None (Store.store b);
                 Store.world := Store.world b;
                 Store.pollers := alter GameApi.cancel k (Store.pollers b);
                 Store.installs := Store.installs b |}).
  { intros b k Hb. unfold Store.stopPolling, bind, get, modify. now rewrite Hb. }
  assert (Hn : length (Store.pollers a0) = n) by exact Hlen0.
  assert (Ha2 : a2 = a1).
  { subst a2. rewrite Hstop; [reflexivity|]. rewrite Ha1. exact Hc0. }
  assert (Ha3 : a3 = {| Store.store := Store.set_pollCanceller (Some (S n))
                                         (Store.set_pollCanceller (Some n)
                                            (Store.store a0));
                        Store.world := Store.world a0;
                        Store.pollers := (Store.pollers a0 ++ [loop]) ++ [loop];
                        Store.installs := [] |}).
  { subst a3. rewrite Ha2, startPolling_appends. cbn [snd].
    rewrite Hstop by (rewrite Ha1; exact Hc0). cbn [snd].
    rewrite Ha1. unfold Store.run_installs.
    cbn [Store.store Store.world Store.pollers Store.installs app fold_left].
    rewrite length_app, Hn. cbn [length]. now rewrite Nat.add_1_r. }
  split; [reflexivity|]. split; [reflexivity|].
  split. { rewrite Ha1. cbn [Store.pollers]. now apply list_lookup_middle. }
  assert (Hlate : late = {| Store.store := Store.set_pollCanceller None
                                             (Store.set_pollCanceller (Some n)
                                                (Store.store a0));
                            Store.world := Store.world a0;
                            Store.pollers := alter GameApi.cancel n
                                               (Store.pollers a0 ++ [loop]);
                            Store.installs := [] |}).
  { subst late. rewrite Ha1. unfold Store.run_installs.
    cbn [Store.store Store.world Store.pollers Store.installs fold_left].
    now rewrite (Hstop' _ n) by reflexivity. }
  split. { rewrite Hlate. cbn [Store.pollers]. rewrite list_lookup_alter_eq.
           now rewrite list_lookup_middle by (symmetry; exact Hn). }
  split; [now rewrite Hlate|]. split; [exact Ha2|].
  split. { rewrite Ha3. cbn [Store.pollers]. rewrite <- app_assoc.
           now apply list_lookup_middle. }
  split. { rewrite Ha3. cbn [Store.pollers]. apply list_lookup_middle.
           rewrite length_app, Hn. cbn [length]. lia. }
  split; [now rewrite Ha3|].
  assert (Ha4 : a4 = {| Store.store := Store.set_pollCanceller None (Store.store a3);
                        Store.world := Store.world a3;
                        Store.pollers := alter GameApi.cancel (S n) (Store.pollers a3);
                        Store.installs := Store.installs a3 |}).
  { subst a4. apply Hstop'. now rewrite Ha3. }
  rewrite Ha4. cbn [Store.pollers Store.store Store.set_pollCanceller
                    Store.pollCanceller].
  split. { rewrite list_lookup_alter_ne by lia. rewrite Ha3. cbn [Store.pollers].
           rewrite <- app_assoc. now apply list_lookup_middle. }
  split; [|reflexivity].
  rewrite list_lookup_alter_eq, Ha3. cbn [Store.pollers].
  rewrite list_lookup_middle; [reflexivity|].
  rewrite length_app, Hn. cbn [length]. lia.
Qed.

Lemma stopPolling_needs_installed_canceller_witness :
  Store.installs demo_app = []
  /\ (GameApi.running <$>
        Store.pollers
          (snd (Store.stopPolling
                  (Store.run_installs
                     (snd (Store.startPolling
                             (snd (Store.stopPolling
                                     (snd (Store.startPolling demo_app)))))))))
        !! length (Store.pollers demo_app))
     = Some true.
Proof.
  split; [reflexivity|].
  pose proof (stopPolling_needs_installed_canceller demo_app eq_refl) as H.
  cbv zeta in H.
  destruct H as (_ & _ & _ & _ & _ & _ & _ & _ & _ & H & _).
  now rewrite H.
Defined.

(** X25.  None of the four room actions leaves the store loading, whether
    it succeeds or fails.  After [createNewRoom], [joinExistingRoom] and
    [submitMove] the store's [error] is null exactly when the action
    resolved; [leaveCurrentRoom] always resolves, and after it [error] is
    null exactly when [leaveRoom] went through. *)
Theorem store_actions_settle :
  forall (APPLICATION_ID : string) (a : Store.App),
    (forall gameType create read,
       let r := Store.createNewRoom APPLICATION_ID gameType create read a in
       Store.isLoading (Store.store (snd r)) = false
       /\ (Store.error (Store.store (snd r)) = None <-> exists h, fst r = Ok h))
    /\ (forall host join,
          let r := Store.joinExistingRoom APPLICATION_ID host join a in
          Store.isLoading (Store.store (snd r)) = false
          /\ (Store.error (Store.store (snd r)) = None <-> fst r = Ok tt))
    /\ (forall moveData move sync,
          let r := Store.submitMove APPLICATION_ID moveData move sync a in
          Store.isLoading (Store.store (snd r)) = false
          /\ (Store.error (Store.store (snd r)) = None <-> fst r = Ok tt))
    /\ (forall leave,
          let r := Store.leaveCurrentRoom APPLICATION_ID leave a in
          Store.isLoading (Store.store (snd r)) = false
          /\ fst r = Ok tt
          /\ (Store.error (Store.store (snd r)) = None
              <-> fst (GameApi.leaveRoom APPLICATION_ID leave (Store.world a)) = Ok tt)).
Proof.
  intros APP a. split; [|split; [|split]].
  - intros gameType create read r. subst r.
    unfold Store.createNewRoom, Store.begin, Store.failed, bind, try_catch, modify,
      Store.lift, throw, ret.
    cbn [Store.world Store.store Store.set_store fst snd].
    destruct (GameApi.createRoom APP gameType create (Store.world a)) as [[h|e] w1];
      cbn [Store.world Store.store fst snd].
    + destruct (GameApi.getRoom APP read w1) as [[rm|e] w2]; cbn;
        (split; [reflexivity|]); split; eauto; try discriminate.
      intros [h' Hh]. discriminate.
    + cbn. split; [reflexivity|]. split; [discriminate|]. intros [h' Hh]. discriminate.
  - intros host join r. subst r.
    unfold Store.joinExistingRoom, Store.begin, Store.failed, Store.startPolling,
      Store.stopPolling, bind, try_catch, modify, Store.lift, throw, ret, get.
    cbn [Store.world Store.store Store.set_store fst snd].
    destruct (GameApi.joinRoom APP host join (Store.world a)) as [[[]|e] w1];
      cbn [Store.world Store.store Store.pollCanceller Store.set_error
           Store.set_isLoading fst snd].
    + destruct (Store.pollCanceller (Store.store a)); cbn; repeat split; auto.
    + cbn. repeat split; discriminate.
  - intros moveData move sync r. subst r.
    unfold Store.submitMove, Store.syncRoom, Store.begin, Store.failed, bind,
      try_catch, modify, Store.lift, throw, ret.
    cbn [Store.world Store.store Store.set_store fst snd].
    destruct (GameApi.makeMove APP moveData move (Store.world a)) as [[[]|e] w1];
      cbn [Store.world Store.store fst snd].
    + destruct (GameApi.getRoomSynced APP sync w1) as [[rm|e] w2]; cbn;
        repeat split; auto.
    + cbn. repeat split; discriminate.
  - intros leave r. subst r.
    unfold Store.leaveCurrentRoom, Store.begin, Store.failed, Store.stopPolling,
      bind, try_catch, modify, Store.lift, throw, ret, get.
    cbn [Store.world Store.store Store.set_store fst snd Store.pollCanceller
         Store.set_error Store.set_isLoading].
    destruct (Store.pollCanceller (Store.store a));
      cbn -[GameApi.leaveRoom alter];
      destruct (GameApi.leaveRoom APP leave (Store.world a)) as [[[]|e] w1];
      cbn; repeat split; auto; intros H; discriminate H.
Qed.

(** X26.  [leaveCurrentRoom] stops the store's poll loop before it talks
    to the network: whether [leaveRoom] goes through or not, the loop the
    store held is cancelled and its cancel function forgotten.  The room
    is set to null only if [leaveRoom] went through; otherwise it stays. *)
Theorem leave_stops_polling :
  forall (APPLICATION_ID : string) (leave : GameApi.MutateEnv) (a : Store.App)
         (n : nat),
    Store.pollCanceller (Store.store a) = Some n ->
    let a' := snd (Store.leaveCurrentRoom APPLICATION_ID leave a) in
    Store.pollCanceller (Store.store a') = None
    /\ (forall p, Store.pollers a' !! n = Some p -> GameApi.running p = false)
    /\ length (Store.pollers a') = length (Store.pollers a)
    /\ Store.room (Store.store a')
       = match fst (GameApi.leaveRoom APPLICATION_ID leave (Store.world a)) with
         | Ok _ => Some JNull
         | Throw _ => Store.room (Store.store a)
         end.
Proof.
  intros APP leave a n Hn a'. subst a'.
  unfold Store.leaveCurrentRoom, Store.begin, Store.failed, Store.stopPolling,
    bind, try_catch, modify, Store.lift, throw, ret, get.
  cbn [Store.world Store.store Store.set_store fst snd Store.pollCanceller
       Store.set_error Store.set_isLoading].
  rewrite Hn. cbn -[GameApi.leaveRoom alter lookup length].
  assert (Hq : forall p, alter GameApi.cancel n (Store.pollers a) !! n = Some p ->
                         GameApi.running p = false).
  { intros p. rewrite list_lookup_alter_eq.
    destruct (Store.pollers a !! n) as [q|]; simpl; [|discriminate].
    now intros [= <-]. }
  destruct (GameApi.leaveRoom APP leave (Store.world a)) as [[[]|e] w1];
    cbn -[alter lookup length]; rewrite length_alter; repeat split; auto.
Qed.

Lemma leave_stops_polling_witness :
  Store.pollCanceller
    (Store.store (Store.run_installs
                    (snd (Store.joinExistingRoom "app" "chain-host" accepting demo_app))))
  = Some 0%nat
  /\ Store.pollCanceller
       (Store.store
          (snd (Store.leaveCurrentRoom "app" refusing
                  (Store.run_installs
                     (snd (Store.joinExistingRoom "app" "chain-host" accepting
                             demo_app))))))
     = None.
Proof.
  split; [reflexivity|].
  exact (proj1 (leave_stops_polling "app" refusing
                  (Store.run_installs
                     (snd (Store.joinExistingRoom "app" "chain-host" accepting
                             demo_app)))
                  0%nat eq_refl)).
Defined.

(** ** The connection store *)

Section LineraStoreFacts.
Import Players LineraStore.

Variable APPLICATION_ID : string.
Variable DEFAULT_FAUCET_URL : string.

Lemma query_connection doc vars env (w : Adapter.World) :
  Adapter.connection (snd (Adapter.query APPLICATION_ID doc vars env w))
  = Adapter.connection w.
Proof.
  destruct (Adapter.send APPLICATION_ID "Must connect wallet before querying"
              doc vars env w) as [r w1] eqn:Hsend.
  rewrite (query_after_send _ _ _ _ _ _ _ Hsend).
  now destruct (send_frame _ _ _ _ _ _ _ _ Hsend) as (H1 & _).
Qed.

Lemma mutate_connection doc vars env attempts (w : Adapter.World) :
  Adapter.connection (snd (Adapter.mutate APPLICATION_ID doc vars env attempts w))
  = Adapter.connection w.
Proof.
  destruct (Adapter.send APPLICATION_ID "Must connect wallet before mutating"
              doc vars env w) as [r w1] eqn:Hsend.
  destruct (mutate_after_send _ _ _ _ attempts _ _ _ Hsend) as [evs ->].
  now destruct (send_frame _ _ _ _ _ _ _ _ Hsend) as (H1 & _).
Qed.

Lemma member_world name v (w : Adapter.World) : snd (GameApi.member name v w) = w.
Proof. destruct v as [j|]; [apply field_world|reflexivity]. Qed.

Lemma getCurrentPlayerProfile_connection env (w : Adapter.World) :
  Adapter.connection (snd (getCurrentPlayerProfile APPLICATION_ID env w))
  = Adapter.connection w.
Proof.
  unfold getCurrentPlayerProfile, getPlayerProfile, Adapter.getUserAddress.
  unfold bind at 1 2. unfold get.
  destruct (Adapter.connection w) as [c|] eqn:Hc; [|exact Hc].
  unfold ret at 1. unfold bind.
  pose proof (query_connection GET_PLAYER
                (Some (JObj [("wallet", JStr (Adapter.conn_address c))])) env w) as H.
  destruct (Adapter.query APPLICATION_ID GET_PLAYER _ env w) as [[v|e] w1];
    cbn [snd] in *; [|congruence].
  rewrite member_world. congruence.
Qed.

Lemma registerPlayer_connection username env (w : Adapter.World) :
  Adapter.connection (snd (registerPlayer APPLICATION_ID username env w))
  = Adapter.connection w.
Proof.
  unfold registerPlayer, bind, ret.
  pose proof (mutate_connection REGISTER (Some (JObj [("username", JStr username)]))
                (GameApi.m_remote env) (GameApi.m_attempts env) w) as H.
  destruct (Adapter.mutate APPLICATION_ID REGISTER _ _ _ w) as [[v|e] w1];
    exact H.
Qed.

(** The profile block never throws; it writes the profile only and
    leaves the session alone. *)
Lemma load_profile_frame defaultUsername env a :
  let r := load_profile APPLICATION_ID defaultUsername env a in
  fst r = Ok tt
  /\ same_but_profile (store a) (store (snd r))
  /\ Adapter.connection (world (snd r)) = Adapter.connection (world a).
Proof.
  cbv zeta. unfold same_but_profile, load_profile, try_catch, bind, lift, modify, ret.
  pose proof (getCurrentPlayerProfile_connection (p_first env) (world a)) as H1.
  destruct (getCurrentPlayerProfile APPLICATION_ID (p_first env) (world a))
    as [[first|e] w1]; cbn [snd] in H1; [|cbn; auto 10].
  destruct (truthy first); cbn [negb world store fst snd]; [cbn; auto 10|].
  pose proof (registerPlayer_connection defaultUsername (p_register env) w1) as H2.
  destruct (registerPlayer APPLICATION_ID defaultUsername (p_register env) w1)
    as [[[]|e] w2]; cbn [snd] in H2; cbn [world store fst snd];
    [|cbn; repeat split; congruence].
  pose proof (getCurrentPlayerProfile_connection (p_second env) w2) as H3.
  destruct (getCurrentPlayerProfile APPLICATION_ID (p_second env) w2)
    as [[second|e] w3]; cbn [snd] in H3; cbn; repeat split; congruence.
Qed.

(** What the adapter's [connectWithPrivateKey] answers, when it finds no
    attempt in flight. *)
Lemma key_connect_state s p inflight (w : Adapter.World) :
  Adapter.connectPromise w = None ->
  let r := PrivateKey.connectWithPrivateKey DEFAULT_FAUCET_URL s p inflight w in
  match fst r with
  | Ok state => state = Adapter.getState (snd r)
                /\ exists c, Adapter.connection (snd r) = Some c
  | Throw _ => Adapter.connection (snd r) = None /\ Adapter.connection w = None
  end.
Proof.
  intros Hp r. subst r.
  destruct w as [c a q ls rr tr]. simpl in Hp. subst q.
  destruct c as [c|]; [split; [reflexivity|now exists c]|].
  destruct s as [wasm load wallet signer claim client chain].
  destruct wasm as [[]|?]; [|split; reflexivity].
  destruct load as [[]|?]; [|split; reflexivity].
  destruct wallet as [wl|?]; [|split; reflexivity].
  destruct signer as [sg|?]; [|split; reflexivity].
  destruct claim as [ch|?]; [|split; reflexivity].
  destruct client as [[]|?]; [|split; reflexivity].
  destruct chain as [[]|?]; [|split; reflexivity].
  split; [reflexivity|]. eexists. reflexivity.
Qed.

Lemma mirrors_profile a a' :
  same_but_profile (store a) (store a') ->
  Adapter.connection (world a') = Adapter.connection (world a) ->
  mirrors a -> mirrors a'.
Proof.
  unfold mirrors, same_but_profile, Adapter.getState. cbn.
  intros (_ & H2 & _ & H4 & H5 & H6) Hc (M1 & M2 & M3 & M4).
  rewrite Hc. repeat split; congruence.
Qed.

Lemma connectWithPrivateKey_mirrors s p inflight env a :
  Adapter.connectPromise (world a) = None ->
  mirrors a ->
  mirrors (snd (connectWithPrivateKey APPLICATION_ID DEFAULT_FAUCET_URL
                  s p inflight env a)).
Proof.
  intros Hp Hm. unfold connectWithPrivateKey. unfold bind at 1. unfold get.
  destruct (isConnecting (store a)); [exact Hm|].
  unfold bind at 1. unfold modify at 1. unfold try_catch.
  unfold bind at 1. unfold lift at 1. cbn [world set_store store].
  pose proof (key_connect_state s p inflight (world a) Hp) as Hk. cbv zeta in Hk.
  destruct (PrivateKey.connectWithPrivateKey DEFAULT_FAUCET_URL s p inflight (world a))
    as [[state|e] w1]; cbn [fst snd] in Hk.
  - unfold bind at 1. unfold modify at 1. cbn [set_store store world].
    match goal with
    | |- mirrors (snd (let (r, s') := load_profile _ ?u ?e ?x in _)) =>
        destruct (load_profile_frame u e x) as (Hok & Hsame & Hconn);
        destruct (load_profile APPLICATION_ID u e x) as [r a2]
    end.
    cbn [fst snd] in *. subst r. cbn [snd].
    eapply mirrors_profile; [exact Hsame|exact Hconn|].
    destruct Hk as [-> [c Hc]].
    unfold mirrors, Adapter.getState. simpl. rewrite Hc. simpl. auto.
  - unfold bind, modify, throw. cbn [snd].
    destruct Hk as [Hc1 Hc0]. revert Hm. unfold mirrors, Adapter.getState.
    simpl. now rewrite Hc1, Hc0.
Qed.

(** The store's [connectWithPrivateKey], by cases. *)
Lemma connectWithPrivateKey_cases s p inflight env a :
  connectWithPrivateKey APPLICATION_ID DEFAULT_FAUCET_URL s p inflight env a
  = if isConnecting (store a) then (Ok tt, a)
    else
      match PrivateKey.connectWithPrivateKey DEFAULT_FAUCET_URL s p inflight (world a) with
      | (Ok state, w1) =>
          load_profile APPLICATION_ID
            ("Player_" +:+ slice_or (Adapter.st_autoSignerAddress state) 2 10 "Anon")
            env {| store := connected state (begin (store a)); world := w1 |}
      | (Throw e, w1) =>
          (Throw e, {| store := failed e (begin (store a)); world := w1 |})
      end.
Proof.
  unfold connectWithPrivateKey. unfold bind at 1. unfold get.
  destruct (isConnecting (store a)); [reflexivity|].
  unfold bind at 1. unfold modify at 1. unfold try_catch.
  unfold bind at 1. unfold lift at 1. cbn [world set_store store].
  destruct (PrivateKey.connectWithPrivateKey DEFAULT_FAUCET_URL s p inflight (world a))
    as [[state|e] w1].
  - unfold bind at 1. unfold modify at 1. cbn [set_store store world].
    match goal with
    | |- context [load_profile _ ?u ?e ?x] =>
        destruct (load_profile_frame u e x) as (Hok & _);
        destruct (load_profile APPLICATION_ID u e x) as [r a2] eqn:E
    end.
    cbn [fst] in Hok. subst r. symmetry. exact E.
  - reflexivity.
Qed.

Lemma refreshProfile_frame env a :
  let r := refreshProfile APPLICATION_ID env a in
  fst r = Ok tt
  /\ same_but_profile (store a) (store (snd r))
  /\ Adapter.connection (world (snd r)) = Adapter.connection (world a).
Proof.
  cbv zeta. unfold same_but_profile, refreshProfile, try_catch, bind, lift, modify, ret.
  pose proof (getCurrentPlayerProfile_connection env (world a)) as H1.
  destruct (getCurrentPlayerProfile APPLICATION_ID env (world a))
    as [[first|e] w1]; cbn [snd] in H1; cbn; auto 10.
Qed.

Lemma register_mirrors username reg env a :
  mirrors a -> mirrors (snd (register APPLICATION_ID username reg env a)).
Proof.
  intros Hm. unfold register. unfold bind, lift at 1.
  pose proof (registerPlayer_connection username reg (world a)) as H1.
  destruct (registerPlayer APPLICATION_ID username reg (world a)) as [[[]|e] w1];
    cbn [snd] in H1.
  - match goal with
    | |- mirrors (snd (refreshProfile _ ?e ?x)) =>
        destruct (refreshProfile_frame e x) as (_ & Hsame & Hconn)
    end.
    cbv zeta in Hsame, Hconn. cbn [store world] in Hsame, Hconn.
    eapply mirrors_profile; [| |exact Hm]; [exact Hsame|congruence].
  - cbn [snd]. revert Hm. unfold mirrors, Adapter.getState. simpl. now rewrite H1.
Qed.

End LineraStoreFacts.

(** X27.  The connection store keeps showing the session the adapter has.
    If its [isConnected], [chainId], [userAddress] and
    [autoSignerAddress] are those of the adapter's [getState], they still
    are after [connectWithPrivateKey] (called with no attempt in flight),
    whether the connection, the profile read or the registration succeed
    or fail; after [disconnect]; after [refreshProfile]; after
    [register]; and after [updateFromState] of the adapter's state. *)
Theorem linera_store_mirrors_adapter :
  forall (APPLICATION_ID DEFAULT_FAUCET_URL : string) (a : LineraStore.Session),
    mirrors a ->
    (forall s p inflight env,
       Adapter.connectPromise (LineraStore.world a) = None ->
       mirrors (snd (LineraStore.connectWithPrivateKey APPLICATION_ID
                       DEFAULT_FAUCET_URL s p inflight env a)))
    /\ mirrors (LineraStore.disconnect a)
    /\ (forall env, mirrors (snd (LineraStore.refreshProfile APPLICATION_ID env a)))
    /\ (forall username reg env,
          mirrors (snd (LineraStore.register APPLICATION_ID username reg env a)))
    /\ mirrors (LineraStore.updateFromState
                  (Adapter.getState (LineraStore.world a)) a).
Proof.
  intros APP URL a Hm.
  split; [intros s p inflight env Hp; now apply connectWithPrivateKey_mirrors|].
  split; [unfold mirrors; cbn; auto|].
  split.
  { intros env. destruct (refreshProfile_frame APP env a) as (_ & Hsame & Hconn).
    eapply mirrors_profile; [exact Hsame|exact Hconn|exact Hm]. }
  split; [intros username reg env; now apply register_mirrors|].
  unfold mirrors. cbn. auto.
Qed.

Lemma linera_store_mirrors_adapter_witness :
  mirrors fresh_session
  /\ mirrors (snd (LineraStore.connectWithPrivateKey "app" "https://faucet"
                     good_key_script 0 (ret tt) profile_refused fresh_session)).
Proof.
  assert (H : mirrors fresh_session) by (unfold mirrors; cbn; auto).
  split; [exact H|].
  exact (proj1 (linera_store_mirrors_adapter "app" "https://faucet" fresh_session H)
           good_key_script 0%nat (ret tt) profile_refused eq_refl).
Defined.

(** X28.  The store's [connectWithPrivateKey] does nothing while a
    connect is under way ([isConnecting]).  Otherwise it resolves exactly
    when the adapter's [connectWithPrivateKey] does, whatever the profile
    read and the registration after it do: then the store is connected,
    not connecting, without error, and shows the state the adapter
    returned.  When the adapter rejects, the store call rejects with the
    same error, records its message, is no longer connecting, and keeps
    its connection fields and its profile; the adapter is as its own call
    left it. *)
Theorem linera_store_connect_outcome :
  forall (APPLICATION_ID DEFAULT_FAUCET_URL : string) (s : PrivateKey.KeyScript)
         (p : nat) (inflight : Adapter.M unit) (env : LineraStore.ProfileEnv)
         (a : LineraStore.Session),
    let r := LineraStore.connectWithPrivateKey APPLICATION_ID DEFAULT_FAUCET_URL
               s p inflight env a in
    let k := PrivateKey.connectWithPrivateKey DEFAULT_FAUCET_URL s p inflight
               (LineraStore.world a) in
    (LineraStore.isConnecting (LineraStore.store a) = true -> r = (Ok tt, a))
    /\ (LineraStore.isConnecting (LineraStore.store a) = false ->
        match fst k with
        | Ok state =>
            fst r = Ok tt
            /\ LineraStore.isConnecting (LineraStore.store (snd r)) = false
            /\ LineraStore.isConnected (LineraStore.store (snd r)) = true
            /\ LineraStore.error (LineraStore.store (snd r)) = None
            /\ LineraStore.chainId (LineraStore.store (snd r))
               = Adapter.st_chainId state
            /\ LineraStore.userAddress (LineraStore.store (snd r))
               = Adapter.st_userAddress state
            /\ LineraStore.autoSignerAddress (LineraStore.store (snd r))
               = Adapter.st_autoSignerAddress state
        | Throw e =>
            fst r = Throw e
            /\ LineraStore.store (snd r)
               = LineraStore.failed e (LineraStore.begin (LineraStore.store a))
            /\ LineraStore.world (snd r) = snd k
        end).
Proof.
  intros APP URL s p inflight env a r k. subst r k.
  rewrite connectWithPrivateKey_cases.
  split; [intros ->; reflexivity|]. intros ->.
  destruct (PrivateKey.connectWithPrivateKey URL s p inflight (LineraStore.world a))
    as [[state|e] w1]; cbn [fst snd].
  - match goal with
    | |- context [LineraStore.load_profile _ ?u ?e ?x] =>
        destruct (load_profile_frame APP u e x) as (Hok & Hsame & _);
        destruct (LineraStore.load_profile APP u e x) as [r a2]
    end.
    cbn [fst snd] in *. subst r.
    destruct Hsame as (H1 & H2 & H3 & H4 & H5 & H6).
    cbn [LineraStore.store LineraStore.connected LineraStore.begin
         LineraStore.isConnecting LineraStore.isConnected LineraStore.error
         LineraStore.chainId LineraStore.userAddress LineraStore.autoSignerAddress]
      in H1, H2, H3, H4, H5, H6.
    repeat split; assumption.
  - repeat split.
Qed.

Lemma linera_store_connect_outcome_witness :
  fst (LineraStore.connectWithPrivateKey "app" "https://faucet" good_key_script 0
         (ret tt) profile_refused fresh_session) = Ok tt.
Proof.
  exact (proj1 (proj2 (linera_store_connect_outcome "app" "https://faucet"
                         good_key_script 0%nat (ret tt) profile_refused
                         fresh_session) eq_refl)).
Defined.

(** ** A binding in flight across a new session *)

(** Run with nothing in between, the steps of [connectApplication] are
    the method as the gateway calls it. *)
Lemma connectApplication_steps applicationId chain_r app_r (w : Adapter.World) :
  Bind.connectApplication_alone applicationId chain_r app_r w
  = (Bind.settled (fst (Adapter.connectApplication applicationId chain_r app_r w)),
     snd (Adapter.connectApplication applicationId chain_r app_r w)).
Proof.
  unfold Bind.connectApplication_alone, Bind.connectApplication_call,
    Bind.bind_start, Bind.bind_step, Bind.connectApplication_resume, Bind.settled,
    Adapter.connectApplication, Adapter.resolve_application, Adapter.cached_for,
    bind, get, ret, throw, modify, await, Adapter.emit.
  cbn [fold_left].
  destruct (Adapter.connection w) as [c|]; [|reflexivity].
  destruct (Adapter.appConnection w) as [a|];
    [destruct (String.eqb (Adapter.applicationId a) applicationId);
     [reflexivity|]|];
    (destruct (String.eqb applicationId ""); [reflexivity|]);
    (destruct chain_r as [[]|e]; [|reflexivity]);
    (destruct app_r as [[]|e]; reflexivity).
Qed.

(** X29.  [connectApplication] caches the handle of the session it was
    called under, whatever has become of the adapter when its two round
    trips return: the client and the partition are read when the call is
    made, and [appConnection] is written at the end with no look at the
    session then current.  So a binding in flight across [disconnect()]
    and a [connect()] that succeeds leaves the handle of the old client
    and partition cached under the new session, and the next [query] is
    sent on it; a [connectApplication] called after the new [connect]
    caches the handle of the new session. *)
Theorem bind_in_flight_outlives_session :
  forall (applicationId : string) (w : Adapter.World)
         (c : Adapter.LineraConnection) (wallet : Signer.DynamicWallet)
         (a faucetUrl : string) (wl : nat) (sg ch : string),
    Adapter.connection w = Some c ->
    Adapter.cached_for applicationId (Adapter.appConnection w) = false ->
    applicationId <> "" ->
    Adapter.connectPromise w = None ->
    Signer.address wallet = Some a ->
    a <> "" ->
    let p := Bind.AwaitChainObject applicationId (Adapter.client c) (Adapter.chainId c) in
    let p' := Bind.AwaitApplication applicationId (Adapter.client c) (Adapter.chainId c) in
    let old := binding_under c applicationId in
    let c' := established faucetUrl (Signer.toLowerCase a) wl sg ch in
    let w1 := snd (Bind.connectApplication_call applicationId w) in
    let w2 := Adapter.world
                (Adapter.connect_alone Signer.toLowerCase wallet faucetUrl (ok_script wl sg ch)
                   (Adapter.disconnect w1)) in
    let w3 := snd (Bind.connectApplication_resume (Ok tt) p w2) in
    let w4 := snd (Bind.connectApplication_resume (Ok tt) p' w3) in
    fst (Bind.connectApplication_call applicationId w) = Bind.Binding p
    /\ (forall u u' : Adapter.World,
          fst (Bind.connectApplication_resume (Ok tt) p u) = Bind.Binding p'
          /\ Bind.connectApplication_resume (Ok tt) p' u'
             = (Bind.Bound old, Adapter.set_appConnection (Some old) u'))
    /\ Adapter.connection w2 = Some c'
    /\ Adapter.appConnection w2 = None
    /\ Adapter.connection w4 = Some c'
    /\ Adapter.appConnection w4 = Some old
    /\ (forall APPLICATION_ID doc vars env,
          Adapter.trace (snd (Adapter.query APPLICATION_ID doc vars env w4))
          = Adapter.trace w4
            ++ [Adapter.EAppQuery
                  {| Adapter.app_client := Adapter.client c;
                     Adapter.app_chain := Adapter.chainId c;
                     Adapter.app_id := applicationId |}
                  {| Adapter.pl_query := doc;
                     Adapter.pl_variables := Adapter.variables_or_empty vars |}])
    /\ Adapter.appConnection
         (snd (Bind.connectApplication_alone applicationId (Ok tt) (Ok tt) w2))
       = Some (binding_under c' applicationId).
Proof.
  intros appId w c wallet a url wl sg ch Hc Hcache Hid Hp Ha Hne
         p p' old c' w1 w2 w3 w4.
  assert (Hcall : Bind.connectApplication_call appId w
                  = (Bind.Binding p,
                     Adapter.log (Adapter.EChain (Adapter.client c) (Adapter.chainId c)) w)).
  { unfold Bind.connectApplication_call, Bind.bind_start. rewrite Hc.
    unfold Adapter.cached_for in Hcache.
    destruct (Adapter.appConnection w) as [b|]; [rewrite Hcache|];
      (destruct (String.eqb_spec appId ""); [contradiction|reflexivity]). }
  assert (Hw2 : Adapter.connection w2 = Some c' /\ Adapter.appConnection w2 = None).
  { subst w2 w1. rewrite Hcall. cbn [snd]. unfold Adapter.connect_alone.
    rewrite (connect_call_starts wallet a url _
               (Adapter.disconnect
                  (Adapter.log (Adapter.EChain (Adapter.client c) (Adapter.chainId c)) w)));
      [|exact Hp|exact Ha|exact Hne|reflexivity].
    cbn. split; reflexivity. }
  destruct Hw2 as [Hc2 Hb2].
  split; [now rewrite Hcall|].
  split; [intros u u'; split; reflexivity|].
  split; [exact Hc2|]. split; [exact Hb2|].
  assert (Hc4 : Adapter.connection w4 = Some c') by exact Hc2.
  assert (Hb4 : Adapter.appConnection w4 = Some old) by reflexivity.
  split; [exact Hc4|]. split; [exact Hb4|].
  split.
  - intros APP doc vars env.
    rewrite (query_after_send _ _ _ _ _ _ _
               (send_cached APP _ doc vars env c' old w4 Hc4 Hb4)).
    reflexivity.
  - rewrite connectApplication_steps. cbn [snd].
    unfold Adapter.connectApplication, Adapter.resolve_application, bind, get,
      ret, modify, await, Adapter.emit.
    rewrite Hc2, Hb2.
    destruct (String.eqb_spec appId ""); [contradiction|reflexivity].
Qed.

Lemma bind_in_flight_outlives_session_witness :
  Adapter.connection demo_unbound = Some demo_connection
  /\ Adapter.appConnection
       (snd (Bind.connectApplication_resume (Ok tt)
               (Bind.AwaitApplication "app" (Adapter.client demo_connection)
                  (Adapter.chainId demo_connection))
               (snd (Bind.connectApplication_resume (Ok tt)
                       (Bind.AwaitChainObject "app" (Adapter.client demo_connection)
                          (Adapter.chainId demo_connection))
                       (Adapter.world
                          (Adapter.connect_alone Signer.toLowerCase other_wallet "https://faucet"
                             (ok_script 8 "0xsigner2" "chain-2")
                             (Adapter.disconnect
                                (snd (Bind.connectApplication_call "app"
                                        demo_unbound)))))))))
     = Some (binding_under demo_connection "app").
Proof.
  split; [reflexivity|].
  refine (proj1 (proj2 (proj2 (proj2 (proj2 (proj2
            (bind_in_flight_outlives_session "app" demo_unbound demo_connection
               other_wallet "0xDEF" "https://faucet" 8 "0xsigner2" "chain-2"
               _ _ _ _ _ _)))))));
    first [reflexivity | discriminate].
Defined.

(** ** The WASM initialization *)

Section WasmFacts.
Import WasmInit.

Lemma rejected_not_pending l p :
  Forall init_rejected l -> l !! p <> Some InitPending.
Proof.
  intros Hl Hp. rewrite Forall_lookup in Hl. exact (Hl p _ Hp).
Qed.

Lemma rejected_not_fulfilled l p :
  Forall init_rejected l -> l !! p <> Some InitFulfilled.
Proof.
  intros Hl Hp. rewrite Forall_lookup in Hl. exact (Hl p _ Hp).
Qed.

(** A lookup in [pre ++ [x]] that does not find a failed promise finds [x]. *)
Lemma lookup_last_init pre x p y :
  Forall init_rejected pre -> (pre ++ [x]) !! p = Some y -> ~ init_rejected y ->
  p = length pre /\ y = x.
Proof.
  intros Hpre Hp Hy. apply lookup_app_Some in Hp as [Hp|[Hge Hp]].
  - rewrite Forall_lookup in Hpre. destruct (Hy (Hpre p y Hp)).
  - apply list_lookup_singleton_Some in Hp as [Hz ->]. split; [lia|reflexivity].
Qed.

Lemma call_ok s : wasm_ok s -> wasm_ok (ensureWasmInitialized s).
Proof.
  intros (H3 & H1 & H2). unfold ensureWasmInitialized.
  assert (Hnew : forall c k q, c <> Waiting true q ->
            (callers s ++ [c]) !! k = Some (Waiting true q) ->
            callers s !! k = Some (Waiting true q)).
  { intros c k q Hc Hk. apply lookup_app_Some in Hk as [Hk|[_ Hk]]; [exact Hk|].
    apply list_lookup_singleton_Some in Hk as [_ Hk]. congruence. }
  destruct (wasmInitialized s) eqn:Hi.
  - split; [|split]; cbn [wasmInitPromise wasmInitialized inits callers].
    + exact H3.
    + intros k q Hk. apply Hnew in Hk; [|discriminate].
      destruct (H1 k q Hk) as [_ Hf]. congruence.
    + intros k k' q q' Hk. apply Hnew in Hk; [|discriminate].
      destruct (H1 k q Hk) as [_ Hf]. congruence.
  - destruct (wasmInitPromise s) as [p|] eqn:Hp.
    + split; [|split]; cbn [wasmInitPromise wasmInitialized inits callers].
      * exact H3.
      * intros k q Hk. apply Hnew in Hk; [|discriminate].
        exact (H1 k q Hk).
      * intros k k' q q' Hk Hk'.
        apply Hnew in Hk; [|discriminate]. apply Hnew in Hk'; [|discriminate].
        exact (H2 k k' q q' Hk Hk').
    + destruct H3 as [_ Hall].
      assert (Hnone : forall k q, callers s !! k <> Some (Waiting true q)).
      { intros k q Hk. destruct (H1 k q Hk) as [Hq _]. discriminate. }
      split; [|split]; cbn [wasmInitPromise wasmInitialized inits callers].
      * exists (inits s), InitPending. repeat split; auto. discriminate.
      * intros k q Hk. apply lookup_app_Some in Hk as [Hk|[_ Hk]].
        -- destruct (Hnone k q Hk).
        -- apply list_lookup_singleton_Some in Hk as [_ Hk].
           injection Hk as <-. split; reflexivity.
      * intros k k' q q' Hk Hk'.
        apply lookup_app_Some in Hk as [Hk|[Hge Hk]]; [destruct (Hnone k q Hk)|].
        apply lookup_app_Some in Hk' as [Hk'|[Hge' Hk']]; [destruct (Hnone k' q' Hk')|].
        apply list_lookup_singleton_Some in Hk as [Hz _].
        apply list_lookup_singleton_Some in Hk' as [Hz' _]. lia.
Qed.

Lemma settle_ok p r s : wasm_ok s -> wasm_ok (settle p r s).
Proof.
  intros (H3 & H1 & H2). unfold settle.
  destruct (inits s !! p) as [[| |e]|] eqn:Hp; try (split; [|split]; assumption).
  split; [|split]; cbn [wasmInitPromise wasmInitialized inits callers];
    [|exact H1|exact H2].
  destruct (wasmInitPromise s) as [p0|].
  - destruct H3 as (pre & x & Hin & Hlen & Hpre & Hx).
    rewrite Hin in Hp.
    destruct (lookup_last_init pre x p InitPending Hpre Hp) as [-> <-]; [now cbn|].
    exists pre, (match r with Ok _ => InitFulfilled | Throw e => InitRejected e end).
    rewrite Hin. split.
    { rewrite insert_app_r_alt by lia. now rewrite Nat.sub_diag. }
    split; [exact Hlen|]. split; [exact Hpre|].
    intros Hi. specialize (Hx Hi). discriminate.
  - destruct H3 as [_ Hall]. destruct (rejected_not_pending _ p Hall Hp).
Qed.

Lemma resume_ok k s : wasm_ok s -> wasm_ok (resume k s).
Proof.
  intros (H3 & H1 & H2). unfold resume.
  destruct (callers s !! k) as [[own q|r]|] eqn:Hk; try (split; [|split]; assumption).
  assert (Hothers : forall v k0 q0,
            <[k := v]> (callers s) !! k0 = Some (Waiting true q0) ->
            v <> Waiting true q0 ->
            k0 <> k /\ callers s !! k0 = Some (Waiting true q0)).
  { intros v k0 q0 Hk0 Hv. apply list_lookup_insert_Some in Hk0
      as [(-> & -> & _)|[Hne Hk0]]; [congruence|]. split; [congruence|exact Hk0]. }
  destruct (inits s !! q) as [[| |e]|] eqn:Hq; try (split; [|split]; assumption).
  - split; [|split]; cbn [wasmInitPromise wasmInitialized inits callers].
    + destruct own; [|exact H3].
      destruct (H1 k q Hk) as [Hp Hi]. rewrite Hp in H3 |- *.
      destruct H3 as (pre & x & Hin & Hlen & Hpre & Hx).
      exists pre, x. repeat split; auto. intros _.
      rewrite Hin in Hq.
      now destruct (lookup_last_init pre x q InitFulfilled Hpre Hq) as [_ <-]; [cbn|].
    + intros k0 q0 Hk0. destruct (Hothers _ k0 q0 Hk0) as [Hne Hk0']; [discriminate|].
      destruct own; [destruct Hne; exact (H2 k0 k q0 q Hk0' Hk)|].
      exact (H1 k0 q0 Hk0').
    + intros k0 k0' q0 q0' Hk0 Hk0'.
      destruct (Hothers _ k0 q0 Hk0) as [_ Hk1]; [discriminate|].
      destruct (Hothers _ k0' q0' Hk0') as [_ Hk1']; [discriminate|].
      exact (H2 k0 k0' q0 q0' Hk1 Hk1').
  - split; [|split]; cbn [wasmInitPromise wasmInitialized inits callers].
    + destruct own; [|exact H3].
      destruct (H1 k q Hk) as [Hp Hi]. rewrite Hp in H3.
      destruct H3 as (pre & x & Hin & Hlen & Hpre & Hx).
      split; [exact Hi|]. rewrite Hin. apply Forall_app. split; [exact Hpre|].
      rewrite Hin in Hq. apply lookup_app_Some in Hq as [Hq|[Hge Hq]].
      * apply lookup_lt_Some in Hq. lia.
      * apply list_lookup_singleton_Some in Hq as [_ ->]. now repeat constructor.
    + intros k0 q0 Hk0. destruct (Hothers _ k0 q0 Hk0) as [Hne Hk0']; [discriminate|].
      destruct own; [destruct Hne; exact (H2 k0 k q0 q Hk0' Hk)|].
      exact (H1 k0 q0 Hk0').
    + intros k0 k0' q0 q0' Hk0 Hk0'.
      destruct (Hothers _ k0 q0 Hk0) as [_ Hk1]; [discriminate|].
      destruct (Hothers _ k0' q0' Hk0') as [_ Hk1']; [discriminate|].
      exact (H2 k0 k0' q0 q0' Hk1 Hk1').
Qed.

Lemma run_ok evs : forall s, wasm_ok s -> wasm_ok (run s evs).
Proof.
  unfold run. induction evs as [|ev evs IH]; intros s Hs; [exact Hs|].
  cbn [fold_left]. apply IH. destruct ev as [|p r|k]; cbn [step].
  - now apply call_ok.
  - now apply settle_ok.
  - now apply resume_ok.
Qed.

End WasmFacts.

(** X30.  However calls of [ensureWasmInitialized], settlements of
    [initWasm] and continuations are interleaved: every [initWasm] but
    the last one started has failed, so that at most one is ever in
    flight and at most one ever succeeds; the memoized promise, when
    there is one, is the last one started; and [wasmInitialized] is set
    only when the last one has succeeded. *)
Theorem wasm_initialized_at_most_once :
  forall evs : list WasmInit.sched,
    let s := WasmInit.run WasmInit.boot evs in
    (forall i, (S i < length (WasmInit.inits s))%nat ->
       exists e, WasmInit.inits s !! i = Some (WasmInit.InitRejected e))
    /\ (forall p, WasmInit.wasmInitPromise s = Some p ->
          S p = length (WasmInit.inits s))
    /\ (WasmInit.isWasmReady s = true ->
        last (WasmInit.inits s) = Some WasmInit.InitFulfilled).
Proof.
  intros evs s.
  assert (H : wasm_ok s).
  { apply run_ok. split; [|split].
    - cbn. split; [reflexivity|constructor].
    - intros k q Hk. destruct k; discriminate Hk.
    - intros k k' q q' Hk. destruct k; discriminate Hk. }
  destruct H as (H3 & _ & _). unfold WasmInit.isWasmReady.
  destruct (WasmInit.wasmInitPromise s) as [p|].
  - destruct H3 as (pre & x & Hin & Hlen & Hpre & Hx). rewrite Hin.
    split; [|split].
    + intros i Hi. rewrite length_app in Hi. cbn in Hi.
      destruct (lookup_lt_is_Some_2 pre i) as [y Hy]; [lia|].
      rewrite lookup_app_l by lia. rewrite Hy.
      rewrite Forall_lookup in Hpre. specialize (Hpre i y Hy).
      destruct y; try destruct Hpre. eauto.
    + intros p' [= <-]. rewrite length_app. cbn. lia.
    + intros Hi. rewrite last_snoc. now rewrite (Hx Hi).
  - destruct H3 as [Hi Hall]. split; [|split].
    + intros i Hlt.
      destruct (lookup_lt_is_Some_2 (WasmInit.inits s) i) as [y Hy]; [lia|].
      rewrite Hy. rewrite Forall_lookup in Hall. specialize (Hall i y Hy).
      destruct y; try destruct Hall. eauto.
    + discriminate.
    + rewrite Hi. discriminate.
Qed.

Lemma wasm_initialized_at_most_once_witness :
  WasmInit.isWasmReady
    (WasmInit.run WasmInit.boot
       [WasmInit.Call; WasmInit.Call; WasmInit.Settle 0 (Ok tt); WasmInit.Resume 0])
  = true
  /\ last (WasmInit.inits
             (WasmInit.run WasmInit.boot
                [WasmInit.Call; WasmInit.Call; WasmInit.Settle 0 (Ok tt);
                 WasmInit.Resume 0]))
     = Some WasmInit.InitFulfilled.
Proof.
  split; [reflexivity|].
  exact (proj2 (proj2 (wasm_initialized_at_most_once
                         [WasmInit.Call; WasmInit.Call; WasmInit.Settle 0 (Ok tt);
                          WasmInit.Resume 0])) eq_refl).
Defined.

